(** * Across SDK: block-range resolver, hub-pool ledger and UBA fee engine

    A shallow embedding of
    - [getBlockRangeForDepositId] (binary search over the deposit counter),
    - the root-bundle, spoke-pool and token-route queries of
      [HubPoolClient], and the parts of its [update] that ingest tokens,
      set the pending root bundle and move the search window,
    - [calculateRecentRunningBalance], [getUBAFee] and
      [getHistoricalUBAFees] of [UBAFeeCalculator],
    - the deposit counter of [MockSpokePoolClient],
    together with the properties the specification states about them and
    further properties read off the code.

    JavaScript numbers that hold block numbers, indices and counters are
    integers ([Z]); [BigNumber] values are integers too, and the partial
    conversion [BigNumber.toNumber] is written out.  Thrown [Error]s are
    values of type [Error] carrying the message of the throw site. *)

From Stdlib Require Import ZArith Lia List Bool String Ascii.
From stdpp Require Import base option list gmap strings sorting pretty.

Local Open Scope Z_scope.

(** ** Errors *)

(** [throw new Error(message)]. *)
Inductive Error : Type :=
  | MkError (message : string).

Definition message (e : Error) : string :=
  match e with MkError m => m end.

#[global] Instance Error_eq_dec : EqDecision Error.
Proof. solve_decision. Defined.

(** * The block-range resolver *)

Module Resolver.

(** The failure classes of the specification, read off the message of
    the thrown [Error]. *)
Inductive FailureKind : Type :=
  | InvalidRange
  | TargetUnreachable
  | OtherFailure.

Definition msg_low_negative : string :=
  "Binary search failed because low must be >= 0".
Definition msg_low_above_high : string :=
  "Binary search failed because low > high".
Definition msg_max_searches : string :=
  "maxSearches must be > 0".
Definition msg_not_found : string :=
  "Failed to find deposit ID".

Definition failureKind (e : Error) : FailureKind :=
  if decide (message e = msg_low_negative) then InvalidRange
  else if decide (message e = msg_low_above_high) then InvalidRange
  else if decide (message e = msg_max_searches) then InvalidRange
  else if decide (message e = msg_not_found) then TargetUnreachable
  else OtherFailure.

(** What one call does, in order: the [eth_call] requests sent through
    [spokePool.numberOfDeposits], and the passes through the body of the
    search loop. *)
Inductive Event : Type :=
  | EthCall (blockTag : Z)
  | Search (mid : Z).

(** The state of one call: the memo table [queriedIds] and the events so
    far, most recent first.  The trace is not in the source; it is there
    so that requests and passes can be counted. *)
Record Env : Type := mkEnv {
  queriedIds : gmap Z Z;
  trace : list Event
}.

Definition emptyEnv : Env := {| queriedIds := ∅; trace := [] |}.

(** The block numbers requested in a trace. *)
Definition ethCalls (t : list Event) : list Z :=
  flat_map (fun ev => match ev with EthCall b => [b] | Search _ => [] end) t.

(** The number of passes through the loop body in a trace. *)
Definition searchCount (t : list Event) : nat :=
  length (List.filter (fun ev => match ev with Search _ => true | EthCall _ => false end) t).

(** Computations that read and write [Env] and may throw. *)
Definition M (A : Type) : Type := Env -> (Error + A) * Env.

Definition ret {A} (a : A) : M A := fun s => (inr a, s).

Definition bind {A B} (m : M A) (k : A -> M B) : M B :=
  fun s =>
    match m s with
    | (inl e, s') => (inl e, s')
    | (inr a, s') => k a s'
    end.

Definition throw {A} (e : Error) : M A := fun s => (inl e, s).

Definition record (ev : Event) : M unit :=
  fun s => (inr tt, {| queriedIds := queriedIds s; trace := ev :: trace s |}).

Declare Scope resolver_scope.
Delimit Scope resolver_scope with res.
Notation "x <- m ;; k" := (bind m (fun x => k))
  (at level 100, m at next level, right associativity) : resolver_scope.
Local Open Scope resolver_scope.

(** The bracket [{ low, high }] that is returned. *)
Record Range : Type := mkRange { low : Z; high : Z }.

Section WithSpokePool.

(** [spokePool.numberOfDeposits({ blockTag })]. *)
Variable numberOfDeposits : Z -> Z.

(** The lambda [getDepositIdAtBlock]: the request is sent only when
    [queriedIds[blockNumber]] is undefined, and its answer is stored
    before it is returned. *)
Definition getDepositIdAtBlock (blockNumber : Z) : M Z :=
  fun s =>
    match queriedIds s !! blockNumber with
    | None =>
        let id := numberOfDeposits blockNumber in
        (inr id, {| queriedIds := <[blockNumber := id]> (queriedIds s);
                    trace := EthCall blockNumber :: trace s |})
    | Some id => (inr id, s)
    end.

Section Search.

Variables (targetDepositId maxSearches : Z).

(** One pass through the body of the [do ... while] loop: the new [low]
    and [high]. *)
Definition narrow (low high : Z) : M (Z * Z) :=
  let mid := (low + high) / 2 in
  _ <- record (Search mid) ;;
  midDepositId <- getDepositIdAtBlock mid ;;
  prevDepositId <-
    (if mid =? 0 then ret 0 else getDepositIdAtBlock (mid - 1)) ;;
  let lowRange := prevDepositId in
  let highRange := midDepositId - 1 in
  if targetDepositId <? lowRange then ret (low, mid - 1)
  else if highRange <? targetDepositId then ret (mid + 1, high)
  else ret (mid, mid).

(** The loop [do ... while (++searches < maxSearches && low < high)].
    [fuel] bounds the number of passes; [None] is returned only when it
    runs out, which does not happen with the fuel that
    [getBlockRangeForDepositId] supplies (lemma [bisectPure_enough_fuel]). *)
Fixpoint bisect (fuel : nat) (searches low high : Z) : M (option Range) :=
  lh <- narrow low high ;;
  let '(low', high') := lh in
  let searches' := searches + 1 in
  if (searches' <? maxSearches) && (low' <? high') then
    match fuel with
    | O => ret None
    | S fuel' => bisect fuel' searches' low' high'
    end
  else ret (Some {| low := low'; high := high' |}).

End Search.

Definition resolve
    (targetDepositId initLow initHigh maxSearches : Z) : M (option Range) :=
  if initLow <? 0 then throw (MkError msg_low_negative)
  else if initHigh <? initLow then throw (MkError msg_low_above_high)
  else if maxSearches <=? 0 then throw (MkError msg_max_searches)
  else
    highId <- getDepositIdAtBlock initHigh ;;
    if highId <? targetDepositId then throw (MkError msg_not_found)
    else
      lowId <- getDepositIdAtBlock initLow ;;
      if targetDepositId <? lowId then throw (MkError msg_not_found)
      else
        bisect targetDepositId maxSearches
               (Z.to_nat maxSearches) 0 initLow initHigh.

(** [getBlockRangeForDepositId]: the body above, run on a fresh memo
    table ([const queriedIds = {}]). *)
Definition getBlockRangeForDepositId
    (targetDepositId initLow initHigh maxSearches : Z)
    : (Error + option Range) * Env :=
  resolve targetDepositId initLow initHigh maxSearches emptyEnv.

(** *** The search without the memo table

    The same loop reading the counter directly; the memoised search is
    shown to compute it (lemma [bisect_pure]). *)

Definition narrowPure (targetDepositId low high : Z) : Z * Z :=
  let mid := (low + high) / 2 in
  let midDepositId := numberOfDeposits mid in
  let prevDepositId := if mid =? 0 then 0 else numberOfDeposits (mid - 1) in
  if targetDepositId <? prevDepositId then (low, mid - 1)
  else if midDepositId - 1 <? targetDepositId then (mid + 1, high)
  else (mid, mid).

Fixpoint bisectPure (targetDepositId maxSearches : Z)
    (fuel : nat) (searches low high : Z) : option Range :=
  let '(low', high') := narrowPure targetDepositId low high in
  if (searches + 1 <? maxSearches) && (low' <? high') then
    match fuel with
    | O => None
    | S fuel' => bisectPure targetDepositId maxSearches fuel' (searches + 1) low' high'
    end
  else Some {| low := low'; high := high' |}.

(** The memo table holds answers of the counter only. *)
Definition consistent (s : Env) : Prop :=
  forall b v, queriedIds s !! b = Some v -> v = numberOfDeposits b.

(** The counter never decreases. *)
Definition monotone : Prop :=
  forall a b, a <= b -> numberOfDeposits a <= numberOfDeposits b.

(** What the search keeps of the bracket [[l, h]] inside the initial
    bracket [[initLow, initHigh]]: the counter has not passed the target
    before block [l], and has reached it at block [h] (passed it, when [h]
    was moved). *)
Definition bracketed (targetDepositId initLow initHigh l h : Z) : Prop :=
  initLow <= l /\ h <= initHigh
  /\ (0 < l -> numberOfDeposits (l - 1) <= targetDepositId)
  /\ targetDepositId <= numberOfDeposits h
  /\ (h < initHigh -> targetDepositId < numberOfDeposits h).

End WithSpokePool.

(** [m] keeps the property [P] of the state, whether it returns or throws. *)
Definition preserves {A} (P : Env -> Prop) (m : M A) : Prop :=
  forall s, P s -> P (snd (m s)).

(** From a state with [P], [m] returns [a] and keeps [P]. *)
Definition computes {A} (P : Env -> Prop) (m : M A) (a : A) : Prop :=
  forall s, P s -> fst (m s) = inr a /\ P (snd (m s)).

(** The memo table holds exactly the blocks requested, each requested
    once. *)
Definition memoExact (s : Env) : Prop :=
  NoDup (ethCalls (trace s))
  /\ forall b, b ∈ ethCalls (trace s) <-> is_Some (queriedIds s !! b).

End Resolver.

(** * Arrays *)

(** The JavaScript and lodash array functions the clients use. *)

Module JsArray.

(** [Array.prototype.indexOf] on an array of numbers: the first index
    holding [x], or [-1]. *)
Fixpoint indexOfFrom (x : Z) (l : list Z) (i : Z) : Z :=
  match l with
  | [] => -1
  | y :: r => if y =? x then i else indexOfFrom x r (i + 1)
  end.

Definition indexOf (x : Z) (l : list Z) : Z := indexOfFrom x l 0.

(** [Array.prototype.indexOf] and [includes] on an array of strings. *)
Fixpoint indexOfStringFrom (x : string) (l : list string) (i : Z) : Z :=
  match l with
  | [] => -1
  | y :: r => if String.eqb y x then i else indexOfStringFrom x r (i + 1)
  end.

Definition indexOfString (x : string) (l : list string) : Z :=
  indexOfStringFrom x l 0.

Definition includes (x : string) (l : list string) : bool :=
  existsb (fun y => String.eqb y x) l.

(** lodash [_.findLastIndex]: the index of the last element satisfying
    [p], or [-1].  [i] is the index of the head of [l]. *)
Fixpoint findLastIndexFrom {A} (p : A -> bool) (l : list A) (i : Z) : Z :=
  match l with
  | [] => -1
  | x :: r =>
      let j := findLastIndexFrom p r (i + 1) in
      if j =? -1 then (if p x then i else -1) else j
  end.

Definition findLastIndex {A} (l : list A) (p : A -> bool) : Z :=
  findLastIndexFrom p l 0.

(** lodash [_.findLast]: the array is searched from right to left. *)
Definition findLast {A} (l : list A) (p : A -> bool) : option A :=
  List.find p (rev l).

(** [array[i]] for a number [i]: [undefined] outside the array. *)
Definition at_index {A} (l : list A) (i : Z) : option A :=
  if i <? 0 then None else l !! Z.to_nat i.

(** [Array.prototype.slice(start, end)]: negative indices count from the
    end, and both indices are clamped to the array. *)
Definition clampIndex (len i : Z) : Z :=
  if i <? 0 then Z.max (len + i) 0 else Z.min i len.

Definition slice {A} (l : list A) (start finish : Z) : list A :=
  let len := Z.of_nat (length l) in
  let k := clampIndex len start in
  let final := clampIndex len finish in
  take (Z.to_nat (final - k)) (drop (Z.to_nat k) l).

(** The position an index of [slice] stands for: a negative index counts
    from the end of the array. *)
Definition fromEnd (len i : Z) : Z :=
  if i <? 0 then Z.max (len + i) 0 else i.

(** [String.prototype.toLowerCase] on the ASCII letters. *)
Definition lowerAscii (c : ascii) : ascii :=
  let n := nat_of_ascii c in
  if (Nat.leb 65 n && Nat.leb n 90)%bool then ascii_of_nat (n + 32) else c.

Fixpoint toLowerCase (s : string) : string :=
  match s with
  | EmptyString => EmptyString
  | String c r => String (lowerAscii c) (toLowerCase r)
  end.

End JsArray.

(** * The hub-pool ledger *)

Module HubPool.

Import JsArray.

(** [SortableEvent]: the position of an event in the chain. *)
Class SortableEvent (A : Type) : Type := {
  blockNumber : A -> Z;
  transactionIndex : A -> Z;
  logIndex : A -> Z
}.

Record L1Token : Type := mkL1Token {
  address : string;
  symbol : string;
  decimals : Z
}.

Record ProposedRootBundle : Type := mkProposedRootBundle {
  proposedBlockNumber : Z;
  proposedTransactionIndex : Z;
  proposedLogIndex : Z;
  poolRebalanceLeafCount : Z;
  bundleEvaluationBlockNumbers : list Z;
  poolRebalanceRoot : string;
  relayerRefundRoot : string;
  slowRelayRoot : string;
  proposer : string;
  transactionHash : string
}.

Record ExecutedRootBundle : Type := mkExecutedRootBundle {
  executedBlockNumber : Z;
  executedTransactionIndex : Z;
  executedLogIndex : Z;
  chainId : Z;
  l1Tokens : list string;
  runningBalances : list Z;
  groupIndex : Z;
  leafId : Z
}.

#[global] Instance ProposedRootBundle_sortable : SortableEvent ProposedRootBundle :=
  {| blockNumber := proposedBlockNumber;
     transactionIndex := proposedTransactionIndex;
     logIndex := proposedLogIndex |}.

#[global] Instance ExecutedRootBundle_sortable : SortableEvent ExecutedRootBundle :=
  {| blockNumber := executedBlockNumber;
     transactionIndex := executedTransactionIndex;
     logIndex := executedLogIndex |}.

(** The order of [sortEventsDescending]: [x] is not older than [y]. *)
Definition notOlder {A} `{SortableEvent A} (x y : A) : Prop :=
  blockNumber y < blockNumber x
  \/ (blockNumber y = blockNumber x
      /\ (transactionIndex y < transactionIndex x
          \/ (transactionIndex y = transactionIndex x
              /\ logIndex y <= logIndex x))).

#[global] Instance notOlder_dec {A} `{SortableEvent A} : RelDecision (@notOlder A _).
Proof. intros x y. unfold notOlder. apply _. Defined.

(** Modelled from the spec: [sortEventsDescending] of [../utils], which is
    not among the sources.  Events are totally ordered by [blockNumber],
    then [transactionIndex], then [logIndex]; the function returns a
    sorted copy, most recent event first. *)
Definition sortEventsDescending {A} `{SortableEvent A} (events : list A) : list A :=
  merge_sort notOlder events.

(** [BigNumber.toNumber] of ethers: the conversion throws on a value that
    does not fit the 53 bits of a safe integer (see the note in [update]
    on the cast of BN to Number). *)
Definition msg_overflow : string := "overflow".

Definition toNumber (b : Z) : Error + Z :=
  if Z.abs b <? 2 ^ 53 then inr b else inl (MkError msg_overflow).

(** [undefined.toNumber()]. *)
Definition msg_undefined : string :=
  "Cannot read properties of undefined".

Section Client.

(** The fields of [HubPoolClient] that the queries read. *)
Variable proposedRootBundles : list ProposedRootBundle.
Variable executedRootBundles : list ExecutedRootBundle.
Variable latestBlockNumber : option Z.

Definition getFollowingRootBundle (currentRootBundle : ProposedRootBundle)
    : option ProposedRootBundle :=
  let index :=
    findLastIndex proposedRootBundles
      (fun bundle => blockNumber bundle =? blockNumber currentRootBundle) in
  if (index =? -1) || (index =? Z.of_nat (length proposedRootBundles) - 1)
  then None
  else at_index proposedRootBundles (index + 1).

Definition getExecutedLeavesForRootBundle
    (rootBundle : ProposedRootBundle) (latestMainnetBlockToSearch : Z)
    : list ExecutedRootBundle :=
  List.filter
    (fun executedLeaf =>
       (blockNumber executedLeaf <=? latestMainnetBlockToSearch)
       && (blockNumber rootBundle <? blockNumber executedLeaf))
    executedRootBundles.

Definition isRootBundleValid
    (rootBundle : ProposedRootBundle) (latestMainnetBlock : Z) : bool :=
  let nextRootBundle := getFollowingRootBundle rootBundle in
  let executedLeafCount :=
    getExecutedLeavesForRootBundle rootBundle
      (match nextRootBundle with
       | Some next => Z.min (blockNumber next) latestMainnetBlock
       | None => latestMainnetBlock
       end) in
  Z.of_nat (length executedLeafCount) =? poolRebalanceLeafCount rootBundle.

Definition getValidatedRootBundles (latestMainnetBlock : Z)
    : list ProposedRootBundle :=
  List.filter
    (fun rootBundle =>
       if latestMainnetBlock <? blockNumber rootBundle then false
       else isRootBundleValid rootBundle latestMainnetBlock)
    proposedRootBundles.

Definition getLatestFullyExecutedRootBundle (latestMainnetBlock : Z)
    : option ProposedRootBundle :=
  findLast proposedRootBundles
    (fun rootBundle =>
       if latestMainnetBlock <? blockNumber rootBundle then false
       else isRootBundleValid rootBundle latestMainnetBlock).

Definition getEarliestFullyExecutedRootBundle
    (latestMainnetBlock startBlock : Z) : option ProposedRootBundle :=
  List.find
    (fun rootBundle =>
       if latestMainnetBlock <? blockNumber rootBundle then false
       else if blockNumber rootBundle <? startBlock then false
       else isRootBundleValid rootBundle latestMainnetBlock)
    proposedRootBundles.

(** The state of the two loops of [getNthFullyExecutedRootBundle]:
    [bundleToReturn] and the block the next search is anchored at. *)
Definition WalkState : Type := (option ProposedRootBundle * Z)%type.

(** The body of the loop for [n < 0]. *)
Definition stepBackward (st : WalkState) : WalkState :=
  let nextLatestMainnetBlock := snd st in
  let bundleToReturn := getLatestFullyExecutedRootBundle nextLatestMainnetBlock in
  let bundleBlockNumber :=
    match bundleToReturn with Some b => blockNumber b | None => 0 end in
  (bundleToReturn, Z.max 0 (bundleBlockNumber - 1)).

(** The body of the loop for [n > 0]. *)
Definition stepForward (latest : Z) (st : WalkState) : WalkState :=
  let nextStartBlock := snd st in
  let bundleToReturn := getEarliestFullyExecutedRootBundle latest nextStartBlock in
  let bundleBlockNumber :=
    match bundleToReturn with Some b => blockNumber b | None => 0 end in
  (bundleToReturn, Z.min (bundleBlockNumber + 1) latest).

(** [for (let i = 0; i < count; i++) body]: the body does not read [i]. *)
Fixpoint repeatLoop (count : nat) (body : WalkState -> WalkState)
    (st : WalkState) : WalkState :=
  match count with
  | O => st
  | S count' => repeatLoop count' body (body st)
  end.

(** The state after [k] passes of the loop for [n < 0] anchored at
    [start]. *)
Definition walkBackward (start : Z) (k : nat) : WalkState :=
  repeatLoop k stepBackward (None, start).

Definition msg_n_zero : string := "n cannot be 0".
Definition msg_not_updated : string :=
  "HubPoolClient::getNthFullyExecutedRootBundle client not updated".

Definition getNthFullyExecutedRootBundle (n : Z) (startBlock : option Z)
    : Error + option ProposedRootBundle :=
  if n =? 0 then inl (MkError msg_n_zero)
  else
    match latestBlockNumber with
    | None => inl (MkError msg_not_updated)
    | Some latest =>
        if latest =? 0 then inl (MkError msg_not_updated)
        else if n <? 0 then
          let nextLatestMainnetBlock := default latest startBlock in
          inr (fst (repeatLoop (Z.to_nat (Z.abs n)) stepBackward
                      (None, nextLatestMainnetBlock)))
        else
          let nextStartBlock := default 0 startBlock in
          inr (fst (repeatLoop (Z.to_nat n) (stepForward latest)
                      (None, nextStartBlock)))
    end.

Definition msg_length_mismatch : string :=
  "runningBalances and L1 token of ExecutedRootBundle event are not same length".

Definition getRunningBalanceBeforeBlockForChain
    (block chain : Z) (l1Token : string) : Error + option Z :=
  let mostRecentExecutedRootBundleEvent :=
    List.find
      (fun executedLeaf =>
         (blockNumber executedLeaf <=? block)
         && (chainId executedLeaf =? chain)
         && includes (toLowerCase l1Token)
              (map toLowerCase (l1Tokens executedLeaf)))
      (sortEventsDescending executedRootBundles) in
  match mostRecentExecutedRootBundleEvent with
  | Some ev =>
      if negb (length (l1Tokens ev) =? length (runningBalances ev))%nat
      then inl (MkError msg_length_mismatch)
      else
        let indexOfL1Token :=
          indexOfString (toLowerCase l1Token)
            (map toLowerCase (l1Tokens ev)) in
        inr (at_index (runningBalances ev) indexOfL1Token)
  | None => inr (Some 0)
  end.

End Client.

(** Returns the end block for [chainId] in
    [bundleEvaluationBlockNumbers]: the entry at the index of [chainId] in
    [chainIdList], and 0 if [chainId] is not in [chainIdList] or the index
    does not exist in [bundleEvaluationBlockNumbers]. *)
Definition getBundleEndBlockForChain
    (proposeRootBundleEvent : ProposedRootBundle)
    (chainId : Z) (chainIdList : list Z) : Error + Z :=
  let bundleEvaluationBlockNumbers :=
    bundleEvaluationBlockNumbers proposeRootBundleEvent in
  let chainIdIndex := indexOf chainId chainIdList in
  if chainIdIndex =? -1 then inr 0
  else if Z.of_nat (length bundleEvaluationBlockNumbers) <=? chainIdIndex
  then inr 0
  else
    match at_index bundleEvaluationBlockNumbers chainIdIndex with
    | Some b => toNumber b
    | None => inl (MkError msg_undefined)
    end.

(** *** Token ingestion in [update] *)

(** [JSON.stringify(info)] for an [L1Token] whose strings need no
    escaping. *)
Definition dquote : string := String (ascii_of_nat 34) EmptyString.

Definition stringifyL1Token (info : L1Token) : string :=
  ("{" ++ dquote ++ "address" ++ dquote ++ ":" ++ dquote ++ address info ++ dquote
   ++ "," ++ dquote ++ "symbol" ++ dquote ++ ":" ++ dquote ++ symbol info ++ dquote
   ++ "," ++ dquote ++ "decimals" ++ dquote ++ ":" ++ pretty (decimals info)
   ++ "}")%string.

Definition unsupportedToken (info : L1Token) : Error :=
  MkError ("Unsupported HubPool token: " ++ stringifyL1Token info)%string.

(** [[...Array.from(new Set(addresses))]]: the first occurrence of every
    address, in order. *)
Fixpoint uniqueFrom (seen : list string) (addresses : list string) : list string :=
  match addresses with
  | [] => []
  | a :: rest =>
      if includes a seen then uniqueFrom seen rest
      else a :: uniqueFrom (a :: seen) rest
  end.

Definition unique (addresses : list string) : list string :=
  uniqueFrom [] addresses.

(** The body of [for (const info of tokenInfo)] on [this.l1Tokens]. *)
Definition ingestToken (knownTokens : list L1Token) (info : L1Token)
    : Error + list L1Token :=
  match List.find (fun token => String.eqb (symbol token) (symbol info))
                  knownTokens with
  | None =>
      if (0 <? decimals info) && (decimals info <=? 18)
      then inr (knownTokens ++ [info])
      else inl (unsupportedToken info)
  | Some _ => inr knownTokens
  end.

(** The loop: the tokens pushed before a throw stay in [this.l1Tokens]. *)
Fixpoint ingestTokens (knownTokens : list L1Token) (tokenInfo : list L1Token)
    : option Error * list L1Token :=
  match tokenInfo with
  | [] => (None, knownTokens)
  | info :: rest =>
      match ingestToken knownTokens info with
      | inl e => (Some e, knownTokens)
      | inr knownTokens' => ingestTokens knownTokens' rest
      end
  end.

(** The decimals that [update] accepts, and the symbols it has seen. *)
Definition supportedDecimals (info : L1Token) : Prop :=
  0 < decimals info <= 18.

Definition knownSymbol (knownTokens : list L1Token) (info : L1Token) : Prop :=
  exists token, token ∈ knownTokens /\ symbol token = symbol info.

Section TokenInfo.

(** [token.symbol()] and [token.decimals()] of the ERC20 at an address. *)
Variable tokenSymbol : string -> string.
Variable tokenDecimals : string -> Z.

Definition fetchTokenInfoFromContract (addr : string) : L1Token :=
  {| address := addr; symbol := tokenSymbol addr; decimals := tokenDecimals addr |}.

(** The part of [update] that ingests the [L1TokenEnabledForLiquidityProvision]
    events, given the [l1Token] of each event. *)
Definition updateL1Tokens (knownTokens : list L1Token)
    (l1TokensLpEvents : list string) : option Error * list L1Token :=
  let uniqueL1Tokens := unique l1TokensLpEvents in
  let tokenInfo := map fetchTokenInfoFromContract uniqueL1Tokens in
  ingestTokens knownTokens tokenInfo.

End TokenInfo.

(** *** A small ledger

    Three proposals, at blocks 10, 20 and 30, of one leaf each; the leaves
    are executed at blocks 15, 25 and 35. *)

Definition bundleAt (block leafCount : Z) (evaluationBlocks : list Z)
    : ProposedRootBundle :=
  {| proposedBlockNumber := block;
     proposedTransactionIndex := 0;
     proposedLogIndex := 0;
     poolRebalanceLeafCount := leafCount;
     bundleEvaluationBlockNumbers := evaluationBlocks;
     poolRebalanceRoot := EmptyString;
     relayerRefundRoot := EmptyString;
     slowRelayRoot := EmptyString;
     proposer := EmptyString;
     transactionHash := EmptyString |}.

Definition leafAt (block chain : Z) (tokens : list string) (balances : list Z)
    : ExecutedRootBundle :=
  {| executedBlockNumber := block;
     executedTransactionIndex := 0;
     executedLogIndex := 0;
     chainId := chain;
     l1Tokens := tokens;
     runningBalances := balances;
     groupIndex := 0;
     leafId := 0 |}.

Definition threeBundles : list ProposedRootBundle :=
  [bundleAt 10 1 [100; 200]; bundleAt 20 1 [110; 210]; bundleAt 30 1 [120; 220]].

Definition threeLeaves : list ExecutedRootBundle :=
  [leafAt 15 1 ["0xaa"%string] [7]; leafAt 25 1 ["0xaa"%string] [8];
   leafAt 35 1 ["0xaa"%string] [9]].

End HubPool.


(** * The UBA fee calculator *)

Module UBA.

Import JsArray.

(** A flow: a deposit carries [quoteTimestamp], a fill [isSlowRelay], a
    refund request [fillBlock]; a field that is absent is [None]. *)
Record UbaFlow : Type := mkUbaFlow {
  amount : Z;
  quoteTimestamp : option Z;
  isSlowRelay : option bool;
  fillBlock : option Z
}.

Definition isUbaInflow (flow : UbaFlow) : bool :=
  negb (bool_decide (quoteTimestamp flow = None)).

Definition outflowIsFill (outflow : UbaFlow) : bool :=
  negb (bool_decide (isSlowRelay outflow = None)).

Definition outflowIsRefund (outflow : UbaFlow) : bool :=
  negb (bool_decide (fillBlock outflow = None)).

Definition isUbaOutflow (flow : UbaFlow) : bool :=
  negb (isUbaInflow flow) && (outflowIsFill flow || outflowIsRefund flow).

Record UBAFlowRange : Type := mkUBAFlowRange {
  startIndex : Z;
  endIndex : Z
}.

Record UBASpokeBalanceType : Type := mkUBASpokeBalanceType {
  chainId : Z;
  recentRequestFlow : list UbaFlow;
  lastValidatedRunningBalance : option Z
}.

Inductive SpokeSide : Type :=
  | origin
  | refund.

(** The sum of the amounts of the flows of a list. *)
Definition sumAmounts (flows : list UbaFlow) : Z :=
  foldr Z.add 0 (map amount flows).

Definition inflowTotal (flows : list UbaFlow) : Z :=
  sumAmounts (List.filter isUbaInflow flows).

Definition outflowTotal (flows : list UbaFlow) : Z :=
  sumAmounts (List.filter isUbaOutflow flows).

Section Calculator.

Variables (originSpoke refundSpoke : UBASpokeBalanceType).

(** The local function [fn]: [flow.reduce(..., validatedRunningBalance ?? toBN(0))]. *)
Definition reduceFlow (flow : list UbaFlow) (validatedRunningBalance : option Z) : Z :=
  fold_left
    (fun acc flow =>
       if isUbaInflow flow then acc + amount flow
       else if isUbaOutflow flow then acc - amount flow
       else acc)
    flow (default 0 validatedRunningBalance).

Definition calculateRecentRunningBalance
    (type : SpokeSide) (flowRange : option UBAFlowRange) : Z :=
  let spoke := match type with origin => originSpoke | refund => refundSpoke end in
  let flow :=
    match flowRange with
    | Some range =>
        slice (recentRequestFlow spoke) (startIndex range) (endIndex range)
    | None => recentRequestFlow spoke
    end in
  reduceFlow flow (lastValidatedRunningBalance spoke).

End Calculator.

End UBA.

(** * The cost of a resolver call *)

Module ResolverCost.

Import Resolver.

(** From [s] to [s'] at most [passes] passes through the loop body and at
    most [requests] requests were added. *)
Definition within (passes requests : nat) (s s' : Env) : Prop :=
  (searchCount (trace s') <= searchCount (trace s) + passes)%nat
  /\ (length (ethCalls (trace s')) <= length (ethCalls (trace s)) + requests)%nat.

Definition costs {A} (passes requests : nat) (m : M A) : Prop :=
  forall s, within passes requests s (snd (m s)).

(** [m] removes no pass from the trace; [m] adds at least one. *)
Definition keepsPasses {A} (m : M A) : Prop :=
  forall s, (searchCount (trace s) <= searchCount (trace (snd (m s))))%nat.

Definition addsPass {A} (m : M A) : Prop :=
  forall s, (S (searchCount (trace s)) <= searchCount (trace (snd (m s))))%nat.

(** [m] adds at least one pass whenever it returns. *)
Definition addsPassOnReturn {A} (m : M A) : Prop :=
  forall s a, fst (m s) = inr a ->
    (S (searchCount (trace s)) <= searchCount (trace (snd (m s))))%nat.

End ResolverCost.

(** * Further queries of the hub-pool client *)

Module HubPoolQueries.

Import JsArray HubPool.

(** An entry of [crossChainContracts[l2ChainId]]. *)
Record CrossChainContractsSet : Type := mkCrossChainContractsSet {
  spokePool : string;
  contractsBlockNumber : Z;
  contractsTransactionIndex : Z;
  contractsLogIndex : Z
}.

(** An entry of [l1TokensToDestinationTokensWithBlock[l1Token][chainId]]. *)
Record DestinationTokenWithBlock : Type := mkDestinationTokenWithBlock {
  l2Token : string;
  mappingBlockNumber : Z;
  mappingTransactionIndex : Z;
  mappingLogIndex : Z
}.

#[global] Instance CrossChainContractsSet_sortable : SortableEvent CrossChainContractsSet :=
  {| blockNumber := contractsBlockNumber;
     transactionIndex := contractsTransactionIndex;
     logIndex := contractsLogIndex |}.

#[global] Instance DestinationTokenWithBlock_sortable : SortableEvent DestinationTokenWithBlock :=
  {| blockNumber := mappingBlockNumber;
     transactionIndex := mappingTransactionIndex;
     logIndex := mappingLogIndex |}.

(** An object keyed by token addresses, with its keys in insertion order
    ([Object.keys]); [obj[key]] is the value of the first entry with the
    key. *)
Definition JsObject (V : Type) : Type := list (string * V).

Definition keys {V} (obj : JsObject V) : list string := map fst obj.

Fixpoint get {V} (obj : JsObject V) (key : string) : option V :=
  match obj with
  | [] => None
  | (k, v) :: rest => if String.eqb k key then Some v else get rest key
  end.

Definition msg_undefined_property : string :=
  "Cannot read properties of undefined".

Section Client.

(** The fields of [HubPoolClient] that the queries below read. *)
Variable l1TokensToDestinationTokens : JsObject (gmap Z string).
Variable l1TokensToDestinationTokensWithBlock :
  JsObject (gmap Z (list DestinationTokenWithBlock)).
Variable crossChainContracts : gmap Z (list CrossChainContractsSet).
Variable knownL1Tokens : list L1Token.
Variable proposedRootBundles : list ProposedRootBundle.
Variable executedRootBundles : list ExecutedRootBundle.
Variable latestBlockNumber : option Z.

Definition noContractsSet (chain : Z) : Error :=
  MkError ("No cross chain contracts set for " ++ pretty chain)%string.

Definition noContractBefore (chain block : Z) : Error :=
  MkError ("No cross chain contract found before block " ++ pretty block
           ++ " for chain " ++ pretty chain)%string.

Definition getSpokePoolForBlock (chain block : Z) : Error + string :=
  match crossChainContracts !! chain with
  | None => inl (noContractsSet chain)
  | Some contracts =>
      let mostRecentSpokePoolUpdateBeforeBlock :=
        List.find (fun crossChainContract => blockNumber crossChainContract <=? block)
                  (sortEventsDescending contracts) in
      match mostRecentSpokePoolUpdateBeforeBlock with
      | None => inl (noContractBefore chain block)
      | Some contract => inr (spokePool contract)
      end
  end.

(** [this.crossChainContracts[chain].find(...)?.blockNumber]: the lookup
    of an unknown chain is [undefined], and [find] on it throws. *)
Definition getSpokePoolActivationBlock (chain : Z) (pool : string)
    : Error + option Z :=
  match crossChainContracts !! chain with
  | None => inl (MkError msg_undefined_property)
  | Some contracts =>
      inr (option_map blockNumber
             (List.find (fun crossChainContract =>
                           String.eqb (spokePool crossChainContract) pool)
                        contracts))
  end.

Definition getDestinationTokenForL1Token (l1Token : string) (destinationChainId : Z)
    : Error + option string :=
  match get l1TokensToDestinationTokens l1Token with
  | None => inl (MkError msg_undefined_property)
  | Some routes => inr (routes !! destinationChainId)
  end.

Definition l2TokenEnabledForL1Token (l1Token : string) (destinationChainId : Z)
    : Error + bool :=
  match get l1TokensToDestinationTokens l1Token with
  | None => inl (MkError msg_undefined_property)
  | Some routes => inr (negb (bool_decide (routes !! destinationChainId = None)))
  end.

Definition couldNotFindL1Token (originChainId : Z) (originToken : string) : Error :=
  MkError ("Could not find L1 Token for origin chain " ++ pretty originChainId
           ++ " and origin token " ++ originToken ++ "!")%string.

(** The callback of [find] reads [this.l1TokensToDestinationTokens[_l1Token]]
    for keys of that object only, so the lookup is defined.  A key that is
    the empty string is falsy and counts as not found. *)
Definition getL1TokenForDeposit (originChainId : Z) (originToken : string)
    : Error + string :=
  let l1Token :=
    List.find
      (fun _l1Token =>
         match get l1TokensToDestinationTokens _l1Token with
         | Some routes =>
             bool_decide (routes !! originChainId = Some originToken)
         | None => false
         end)
      (keys l1TokensToDestinationTokens) in
  match l1Token with
  | Some token =>
      if String.eqb token EmptyString
      then inl (couldNotFindL1Token originChainId originToken)
      else inr token
  | None => inl (couldNotFindL1Token originChainId originToken)
  end.

(** [getDestinationTokenForDeposit]; the error it logs for a missing
    destination token is not modelled, the value returned is. *)
Definition getDestinationTokenForDeposit
    (originChainId : Z) (originToken : string) (destinationChainId : Z)
    : Error + option string :=
  match getL1TokenForDeposit originChainId originToken with
  | inl e => inl e
  | inr l1Token => getDestinationTokenForL1Token l1Token destinationChainId
  end.

Definition couldNotFindMapping (l2ChainId : Z) (token : string) (block : Z) : Error :=
  MkError ("Could not find L1 token mapping for chain " ++ pretty l2ChainId
           ++ " and L2 token " ++ token
           ++ " equal to or earlier than block " ++ pretty block ++ "!")%string.

Definition getL1TokenCounterpartAtBlock (l2ChainId : Z) (token : string) (block : Z)
    : Error + string :=
  let l1Token :=
    List.find
      (fun _l1Token =>
         match get l1TokensToDestinationTokensWithBlock _l1Token with
         | Some routes =>
             match routes !! l2ChainId with
             | None => false
             | Some mappings =>
                 match List.find
                         (fun mapping =>
                            String.eqb (l2Token mapping) token
                            && (blockNumber mapping <=? block))
                         (sortEventsDescending mappings) with
                 | Some _ => true
                 | None => false
                 end
             end
         | None => false
         end)
      (keys l1TokensToDestinationTokensWithBlock) in
  match l1Token with
  | Some found =>
      if String.eqb found EmptyString
      then inl (couldNotFindMapping l2ChainId token block)
      else inr found
  | None => inl (couldNotFindMapping l2ChainId token block)
  end.

(** Whether [l1Token] has a mapping to [token] on [l2ChainId] published
    at or before [block]. *)
Definition mappedAtOrBefore (l1Token : string) (l2ChainId : Z) (token : string)
    (block : Z) : Prop :=
  exists routes mappings mapping,
    get l1TokensToDestinationTokensWithBlock l1Token = Some routes
    /\ routes !! l2ChainId = Some mappings
    /\ mapping ∈ mappings
    /\ l2Token mapping = token
    /\ blockNumber mapping <= block.

Definition getTokenInfoForL1Token (l1Token : string) : option L1Token :=
  List.find (fun token => String.eqb (address token) l1Token) knownL1Tokens.

(** [this.latestBlockNumber || 0]. *)
Definition latestOrZero : Z := default 0 latestBlockNumber.

Definition getL1TokenInfoForL2Token (token : string) (chain : Z)
    : Error + option L1Token :=
  match getL1TokenCounterpartAtBlock chain token latestOrZero with
  | inl e => inl e
  | inr l1TokenCounterpart => inr (getTokenInfoForL1Token l1TokenCounterpart)
  end.

Definition getTokenInfoForDeposit (originChainId : Z) (originToken : string)
    : Error + option L1Token :=
  match getL1TokenForDeposit originChainId originToken with
  | inl e => inl e
  | inr l1Token => inr (getTokenInfoForL1Token l1Token)
  end.

(** The state after [k] passes of the loop of
    [getNthFullyExecutedRootBundle] for [n > 0] started at [start]. *)
Definition walkForward (latest start : Z) (k : nat) : WalkState :=
  repeatLoop k (stepForward proposedRootBundles executedRootBundles latest)
    (None, start).

Definition getProposedRootBundlesInBlockRange (startingBlock endingBlock : Z)
    : list ProposedRootBundle :=
  List.filter
    (fun bundle =>
       (startingBlock <=? blockNumber bundle) && (blockNumber bundle <=? endingBlock))
    proposedRootBundles.

(** [this.proposedRootBundles[this.proposedRootBundles.length - 1]]. *)
Definition getLatestProposedRootBundle : option ProposedRootBundle :=
  at_index proposedRootBundles (Z.of_nat (length proposedRootBundles) - 1).

(** The loop of [getRootBundleEvalBlockNumberContainingBlock] over the
    proposals from the newest to the oldest; [bundles] holds the proposals
    not yet visited, newest first. *)
Fixpoint evalBlockLoop (latestMainnetBlock block chain : Z) (chainIdList : list Z)
    (bundles : list ProposedRootBundle) (endingBlockNumber : option Z)
    : Error + option Z :=
  match bundles with
  | [] => inr endingBlockNumber
  | rootBundle :: older =>
      let nextRootBundle := getFollowingRootBundle proposedRootBundles rootBundle in
      if negb (isRootBundleValid proposedRootBundles executedRootBundles rootBundle
                 (match nextRootBundle with
                  | Some next => blockNumber next
                  | None => latestMainnetBlock
                  end))
      then evalBlockLoop latestMainnetBlock block chain chainIdList older endingBlockNumber
      else
        match getBundleEndBlockForChain rootBundle chain chainIdList with
        | inl e => inl e
        | inr bundleEvalBlockNumber =>
            if bundleEvalBlockNumber <=? block then
              inr (if bundleEvalBlockNumber =? block
                   then Some bundleEvalBlockNumber
                   else endingBlockNumber)
            else
              evalBlockLoop latestMainnetBlock block chain chainIdList older
                (Some bundleEvalBlockNumber)
        end
  end.

Definition getRootBundleEvalBlockNumberContainingBlock
    (latestMainnetBlock block chain : Z) (chainIdList : list Z)
    : Error + option Z :=
  evalBlockLoop latestMainnetBlock block chain chainIdList
    (rev proposedRootBundles) None.

Definition getLatestBundleEndBlockForChain
    (chainIdList : list Z) (latestMainnetBlock chain : Z) : Error + Z :=
  match getLatestFullyExecutedRootBundle proposedRootBundles executedRootBundles
          latestMainnetBlock with
  | None => inr 0
  | Some latestFullyExecutedPoolRebalanceRoot =>
      getBundleEndBlockForChain latestFullyExecutedPoolRebalanceRoot chain chainIdList
  end.

Definition getNextBundleStartBlockNumber
    (chainIdList : list Z) (latestMainnetBlock chain : Z) : Error + Z :=
  match getLatestBundleEndBlockForChain chainIdList latestMainnetBlock chain with
  | inl e => inl e
  | inr endBlock => inr (if 0 <? endBlock then endBlock + 1 else 0)
  end.

End Client.

(** *** The pending root bundle in [update] *)

(** [hubPool.rootBundleProposal()]. *)
Record RootBundleProposal : Type := mkRootBundleProposal {
  proposalPoolRebalanceRoot : string;
  proposalRelayerRefundRoot : string;
  proposalSlowRelayRoot : string;
  proposalProposer : string;
  unclaimedPoolRebalanceLeafCount : Z;
  challengePeriodEndTimestamp : Z
}.

Record PendingRootBundle : Type := mkPendingRootBundle {
  pendingPoolRebalanceRoot : string;
  pendingRelayerRefundRoot : string;
  pendingSlowRelayRoot : string;
  pendingProposer : string;
  pendingUnclaimedPoolRebalanceLeafCount : Z;
  pendingChallengePeriodEndTimestamp : Z;
  pendingBundleEvaluationBlockNumbers : list Z;
  proposalBlockNumber : Z
}.

(** [try { return block.toNumber(); } catch { return 0; }]. *)
Definition toNumberOrZero (block : Z) : Z :=
  match toNumber block with
  | inr n => n
  | inl _ => 0
  end.

(** The value [update] assigns to [this.pendingRootBundle]; reading the
    most recent proposal of an empty [proposedRootBundles] throws. *)
Definition pendingRootBundleOf
    (proposedRootBundles : list ProposedRootBundle)
    (pendingRootBundleProposal : RootBundleProposal)
    : Error + option PendingRootBundle :=
  if 0 <? unclaimedPoolRebalanceLeafCount pendingRootBundleProposal then
    match at_index proposedRootBundles
            (Z.of_nat (length proposedRootBundles) - 1) with
    | None => inl (MkError msg_undefined_property)
    | Some mostRecentProposedRootBundle =>
        inr (Some
               {| pendingPoolRebalanceRoot :=
                    proposalPoolRebalanceRoot pendingRootBundleProposal;
                  pendingRelayerRefundRoot :=
                    proposalRelayerRefundRoot pendingRootBundleProposal;
                  pendingSlowRelayRoot :=
                    proposalSlowRelayRoot pendingRootBundleProposal;
                  pendingProposer := proposalProposer pendingRootBundleProposal;
                  pendingUnclaimedPoolRebalanceLeafCount :=
                    unclaimedPoolRebalanceLeafCount pendingRootBundleProposal;
                  pendingChallengePeriodEndTimestamp :=
                    challengePeriodEndTimestamp pendingRootBundleProposal;
                  pendingBundleEvaluationBlockNumbers :=
                    map toNumberOrZero
                        (bundleEvaluationBlockNumbers mostRecentProposedRootBundle);
                  proposalBlockNumber := blockNumber mostRecentProposedRootBundle |})
    end
  else inr None.

Definition hasPendingProposal (pendingRootBundle : option PendingRootBundle) : bool :=
  negb (bool_decide (pendingRootBundle = None)).

End HubPoolQueries.

(** * The blocks a resolver call requests *)

Module ResolverRange.

Import Resolver.

(** Every request of the trace of [s] is for a block that is not
    negative and lies between [initLow - 1] and [initHigh]. *)
Definition requestsWithin (initLow initHigh : Z) (s : Env) : Prop :=
  forall b, b ∈ ethCalls (trace s) -> 0 <= b /\ initLow - 1 <= b <= initHigh.

(** [m] keeps the property [P] of the state, and a value it returns has
    [Q]. *)
Definition yields {A} (P : Env -> Prop) (Q : A -> Prop) (m : M A) : Prop :=
  forall s, P s ->
    P (snd (m s)) /\ forall a, fst (m s) = inr a -> Q a.

End ResolverRange.

(** * The state of [HubPoolClient] across updates *)

Module HubPoolState.

Import JsArray HubPool HubPoolQueries.

(** [Array.prototype.map] with a callback that may throw: the first
    throw ends the loop. *)
Fixpoint mapThrowing {A B} (f : A -> Error + B) (l : list A) : Error + list B :=
  match l with
  | [] => inr []
  | x :: rest =>
      match f x with
      | inl e => inl e
      | inr y =>
          match mapThrowing f rest with
          | inl e => inl e
          | inr ys => inr (y :: ys)
          end
      end
  end.

(** [Object.fromEntries]: a later entry replaces an earlier one with the
    same key.  The order of the keys is not kept. *)
Definition fromEntries {V} (entries : list (string * V)) : gmap string V :=
  fold_left (fun obj entry => <[fst entry := snd entry]> obj) entries ∅.

Section Tokens.

Variable l1TokensToDestinationTokens : JsObject (gmap Z string).
Variable knownL1Tokens : list L1Token.

(** [getDestinationTokensToL1TokensForChainId]: [omap] is the
    [filter((entry) => entry[0] !== undefined)]. *)
Definition getDestinationTokensToL1TokensForChainId (chainId : Z)
    : Error + gmap string L1Token :=
  match mapThrowing
          (fun l1Token =>
             match getDestinationTokenForL1Token l1TokensToDestinationTokens
                     (address l1Token) chainId with
             | inl e => inl e
             | inr destinationToken => inr (destinationToken, l1Token)
             end)
          knownL1Tokens with
  | inl e => inl e
  | inr entries =>
      inr (fromEntries
             (omap (fun entry =>
                      match fst entry with
                      | Some destinationToken => Some (destinationToken, snd entry)
                      | None => None
                      end)
                   entries))
  end.

End Tokens.

Section Ranges.

(** The events of [canceledRootBundles] and [disputedRootBundles]; only
    their position in the chain is read. *)
Context {A : Type} `{SortableEvent A}.

Definition getCancelledRootBundlesInBlockRange
    (canceledRootBundles : list A) (startingBlock endingBlock : Z) : list A :=
  List.filter
    (fun bundle =>
       (startingBlock <=? blockNumber bundle) && (blockNumber bundle <=? endingBlock))
    (sortEventsDescending canceledRootBundles).

Definition getDisputedRootBundlesInBlockRange
    (disputedRootBundles : list A) (startingBlock endingBlock : Z) : list A :=
  List.filter
    (fun bundle =>
       (startingBlock <=? blockNumber bundle) && (blockNumber bundle <=? endingBlock))
    (sortEventsDescending disputedRootBundles).

End Ranges.

(** *** The search window of [update] *)

(** [eventSearchConfig]: [toBlock] is optional. *)
Record EventSearchConfig : Type := mkEventSearchConfig {
  fromBlock : Z;
  toBlock : option Z
}.

(** The fields of the client that decide which blocks [update]
    searches, and two logs of what [update] has stored, oldest first.
    The logs are not in the source; they are there so that what is stored
    can be told from what is searched.  [assignedWindows] holds the
    windows whose [CrossChainContractsSet] and [SetPoolRebalanceRoute]
    events went through the two [for] loops that call [assign];
    [pushedWindows] holds the windows whose events were pushed onto
    [proposedRootBundles], [canceledRootBundles], [disputedRootBundles]
    and [executedRootBundles]. *)
Record SearchState : Type := mkSearchState {
  firstBlockToSearch : Z;
  latestBlockNumber : option Z;
  isUpdated : bool;
  assignedWindows : list (Z * Z);
  pushedWindows : list (Z * Z)
}.

(** The constructor. *)
Definition construct (eventSearchConfig : EventSearchConfig) : SearchState :=
  {| firstBlockToSearch := fromBlock eventSearchConfig;
     latestBlockNumber := None;
     isUpdated := false;
     assignedWindows := [];
     pushedWindows := [] |}.

(** The two [throw] sites of [update]: the unsupported token, thrown
    after the loops that call [assign] and before the pushes; and the
    read of the most recent proposal of an empty [proposedRootBundles]
    for a pending proposal, thrown after the pushes. *)
Inductive ThrowSite : Type :=
  | TokenIngestion
  | PendingRootBundle.

(** What a call of [update] did: it returned before searching, it threw
    at a site after searching a window, or it searched a window and
    returned. *)
Inductive UpdateOutcome : Type :=
  | Skipped
  | Threw (site : ThrowSite) (searchedFrom searchedTo : Z)
  | Searched (searchedFrom searchedTo : Z).

(** [this.eventSearchConfig.toBlock || this.latestBlockNumber]. *)
Definition searchToBlock (eventSearchConfig : EventSearchConfig) (latest : Z) : Z :=
  match toBlock eventSearchConfig with
  | Some b => if b =? 0 then latest else b
  | None => latest
  end.

(** [update], as far as these fields and logs go.  [providerBlock] is
    the answer of [hubPool.provider.getBlockNumber()]; [throws] tells
    whether and where the call throws.  What was stored before a throw
    stays stored (as do the tokens that [ingestTokens] pushed before an
    unsupported one), and [isUpdated] and [firstBlockToSearch] are
    assigned only at the end. *)
Definition update (eventSearchConfig : EventSearchConfig)
    (providerBlock : Z) (throws : option ThrowSite) (st : SearchState)
    : UpdateOutcome * SearchState :=
  let searchFrom := firstBlockToSearch st in
  let searchTo := searchToBlock eventSearchConfig providerBlock in
  if searchTo <? searchFrom then
    (Skipped,
     {| firstBlockToSearch := firstBlockToSearch st;
        latestBlockNumber := Some providerBlock;
        isUpdated := isUpdated st;
        assignedWindows := assignedWindows st;
        pushedWindows := pushedWindows st |})
  else
    let assigned := assignedWindows st ++ [(searchFrom, searchTo)] in
    match throws with
    | Some TokenIngestion =>
        (Threw TokenIngestion searchFrom searchTo,
         {| firstBlockToSearch := firstBlockToSearch st;
            latestBlockNumber := Some providerBlock;
            isUpdated := isUpdated st;
            assignedWindows := assigned;
            pushedWindows := pushedWindows st |})
    | Some PendingRootBundle =>
        (Threw PendingRootBundle searchFrom searchTo,
         {| firstBlockToSearch := firstBlockToSearch st;
            latestBlockNumber := Some providerBlock;
            isUpdated := isUpdated st;
            assignedWindows := assigned;
            pushedWindows := pushedWindows st ++ [(searchFrom, searchTo)] |})
    | None =>
        (Searched searchFrom searchTo,
         {| firstBlockToSearch := searchTo + 1;
            latestBlockNumber := Some providerBlock;
            isUpdated := true;
            assignedWindows := assigned;
            pushedWindows := pushedWindows st ++ [(searchFrom, searchTo)] |})
    end.

(** A run of updates: the outcomes, oldest first, and the final state. *)
Fixpoint updates (eventSearchConfig : EventSearchConfig)
    (calls : list (Z * option ThrowSite)) (st : SearchState)
    : list UpdateOutcome * SearchState :=
  match calls with
  | [] => ([], st)
  | (providerBlock, throws) :: rest =>
      let '(outcome, st') := update eventSearchConfig providerBlock throws st in
      let '(outcomes, final) := updates eventSearchConfig rest st' in
      (outcome :: outcomes, final)
  end.

(** The windows of the updates that searched and returned. *)
Definition completedWindows (outcomes : list UpdateOutcome) : list (Z * Z) :=
  omap (fun outcome =>
          match outcome with
          | Searched searchedFrom searchedTo => Some (searchedFrom, searchedTo)
          | _ => None
          end)
       outcomes.

(** The windows of the updates that searched, whether they then
    returned or threw. *)
Definition searchedWindows (outcomes : list UpdateOutcome) : list (Z * Z) :=
  omap (fun outcome =>
          match outcome with
          | Skipped => None
          | Threw _ searchedFrom searchedTo
          | Searched searchedFrom searchedTo => Some (searchedFrom, searchedTo)
          end)
       outcomes.

(** The windows of the updates that got as far as the pushes. *)
Definition windowsPushedBy (outcomes : list UpdateOutcome) : list (Z * Z) :=
  omap (fun outcome =>
          match outcome with
          | Threw PendingRootBundle searchedFrom searchedTo
          | Searched searchedFrom searchedTo => Some (searchedFrom, searchedTo)
          | _ => None
          end)
       outcomes.

(** The block after the last window of [windows], or [start] when there
    is none. *)
Definition nextStart (start : Z) (windows : list (Z * Z)) : Z :=
  match last windows with
  | Some window => snd window + 1
  | None => start
  end.

End HubPoolState.

(** * The fees of the UBA fee calculator *)

Module UBAFees.

Import JsArray UBA.

Record UBAFeeResult : Type := mkUBAFeeResult {
  depositorFee : Z;
  refundFee : Z;
  totalUBAFee : Z
}.

(** A step that may throw, followed by the rest. *)
Definition andThen {A B} (m : Error + A) (k : A -> Error + B) : Error + B :=
  match m with
  | inl e => inl e
  | inr a => k a
  end.

(** [Promise.all] on promises that are all settled: the values in order,
    or the reason of the first rejected promise. *)
Fixpoint promiseAll {A} (promises : list (Error + A)) : Error + list A :=
  match promises with
  | [] => inr []
  | inl e :: _ => inl e
  | inr a :: rest =>
      match promiseAll rest with
      | inl e => inl e
      | inr values => inr (a :: values)
      end
  end.

Section Calculator.

(** The balancing fee tuples of [UBAConfig], and the methods of
    [UBAConfig] and functions of [UBAFeeUtility] that [getUBAFee] calls;
    each may throw. *)
Variable BalancingFeeTuples : Type.
Variable getBaselineFee : Z -> Z -> Error + Z.
Variable getUtilizationFee : Error + Z.
Variable getBalancingFeeTuples : Z -> Error + BalancingFeeTuples.
Variable getRefundBalancingFee : BalancingFeeTuples -> Z -> Z -> Error + Z.
Variable getDepositBalancingFee : BalancingFeeTuples -> Z -> Z -> Error + Z.

Variables (originSpoke refundSpoke : UBASpokeBalanceType).

Definition getUBAFee (amount : Z) (flowRange : option UBAFlowRange)
    : Error + UBAFeeResult :=
  let originChain := chainId originSpoke in
  let refundChain := chainId refundSpoke in
  let refundRunningBalance :=
    calculateRecentRunningBalance originSpoke refundSpoke refund flowRange in
  let originRunningBalance :=
    calculateRecentRunningBalance originSpoke refundSpoke origin flowRange in
  andThen (getBaselineFee originChain refundChain) (fun alphaFee =>
  let depositorFee := 0 + alphaFee in
  andThen getUtilizationFee (fun utilizationFee =>
  let refundFee := 0 + utilizationFee in
  andThen (getBalancingFeeTuples originChain) (fun originBalancingFeeTuples =>
  andThen (getBalancingFeeTuples refundChain) (fun refundBalancingFeeTuples =>
  andThen (getRefundBalancingFee refundBalancingFeeTuples refundRunningBalance amount)
    (fun refundBalancingFee =>
  let refundFee := refundFee + refundBalancingFee in
  andThen (getDepositBalancingFee originBalancingFeeTuples originRunningBalance amount)
    (fun depositBalancingFee =>
  let depositorFee := depositorFee + depositBalancingFee in
  inr {| depositorFee := depositorFee;
         refundFee := refundFee;
         totalUBAFee := depositorFee + refundFee |})))))).

(** [getHistoricalUBAFees]: [getUBAFee] has no [await], so every call of
    the [map] has settled when [Promise.all] looks at it. *)
Definition getHistoricalUBAFees (type : SpokeSide) : Error + list UBAFeeResult :=
  promiseAll
    (imap (fun idx flow =>
             getUBAFee (amount flow)
               (Some {| startIndex := 0; endIndex := Z.of_nat idx |}))
          (recentRequestFlow
             (match type with refund => refundSpoke | origin => originSpoke end))).

End Calculator.

(** The change a flow makes to the running balance. *)
Definition signedAmount (flow : UbaFlow) : Z :=
  if isUbaInflow flow then amount flow
  else if isUbaOutflow flow then - amount flow
  else 0.

End UBAFees.

(** * The deposit counter of the mock spoke-pool client *)

Module MockSpokePool.

Import JsArray.

Definition msg_deposit_id_order : string :=
  "deposit ID must be equal to or greater than previous".

(** The loop of [setDepositIds] from position [i] on: [rest] holds
    [_depositIds[i..]], and [depositIdAtBlock] has length [i], so that the
    assignment to [this.depositIdAtBlock[i]] appends. *)
Fixpoint setDepositIdsLoop (lastDepositId : Z) (rest : list Z)
    (depositIdAtBlock : list Z) : option Error * list Z :=
  match rest with
  | [] => (None, depositIdAtBlock)
  | depositId :: rest' =>
      if depositId <? lastDepositId
      then (Some (MkError msg_deposit_id_order), depositIdAtBlock)
      else setDepositIdsLoop depositId rest' (depositIdAtBlock ++ [depositId])
  end.

(** [setDepositIds]: the error thrown, if any, and the new
    [this.depositIdAtBlock]. *)
Definition setDepositIds (_depositIds : list Z) : option Error * list Z :=
  match _depositIds with
  | [] => (None, [])
  | first :: _ => setDepositIdsLoop first _depositIds []
  end.

(** [_getDepositIdAtBlock]: [this.depositIdAtBlock[blockTag]]. *)
Definition _getDepositIdAtBlock (depositIdAtBlock : list Z) (blockTag : Z)
    : option Z :=
  at_index depositIdAtBlock blockTag.

End MockSpokePool.

(** * Properties of the block-range resolver *)

Section ResolverProofs.

Import Resolver.
Local Open Scope resolver_scope.

Variable numberOfDeposits : Z -> Z.

(** ** Composition rules for state properties *)

Lemma preserves_ret {A} (P : Env -> Prop) (a : A) : preserves P (ret a).
Proof. intros s Hs. exact Hs. Qed.

Lemma preserves_throw {A} (P : Env -> Prop) (e : Error) :
  preserves P (@throw A e).
Proof. intros s Hs. exact Hs. Qed.

Lemma preserves_bind {A B} (P : Env -> Prop) (m : M A) (k : A -> M B) :
  preserves P m -> (forall a, preserves P (k a)) -> preserves P (bind m k).
Proof.
  intros Hm Hk s Hs. unfold bind.
  specialize (Hm s Hs). destruct (m s) as [[e | a] s']; simpl in *.
  - exact Hm.
  - apply Hk, Hm.
Qed.

(** ** The memo table and the requests *)

Lemma memoExact_empty : memoExact emptyEnv.
Proof.
  split; simpl.
  - constructor.
  - intros b. rewrite lookup_empty. split.
    + intros Hin. inversion Hin.
    + intros [v Hv]. discriminate.
Qed.

Lemma record_search_memoExact (mid : Z) : preserves memoExact (record (Search mid)).
Proof. intros s Hs. exact Hs. Qed.

Lemma getDepositIdAtBlock_hit (s : Env) (b v : Z) :
  queriedIds s !! b = Some v ->
  getDepositIdAtBlock numberOfDeposits b s = (inr v, s).
Proof. intros Hb. unfold getDepositIdAtBlock. rewrite Hb. reflexivity. Qed.

Lemma getDepositIdAtBlock_memoExact (b : Z) :
  preserves memoExact (getDepositIdAtBlock numberOfDeposits b).
Proof.
  intros s [Hnd Hdom]. unfold getDepositIdAtBlock.
  destruct (queriedIds s !! b) as [v |] eqn:Hb; simpl.
  - split; assumption.
  - split; simpl.
    + constructor; [| exact Hnd].
      intros Hin. apply Hdom in Hin. rewrite Hb in Hin.
      destruct Hin as [v Hv]. discriminate.
    + intros b'. rewrite elem_of_cons, lookup_insert.
      case_decide as Hbb'.
      * subst b'. split; [intros _; eauto | intros _; left; reflexivity].
      * rewrite <- Hdom. split; [intros [Heq | Hin] | intros Hin].
        -- congruence.
        -- exact Hin.
        -- right. exact Hin.
Qed.

Lemma narrow_memoExact (target lo hi : Z) :
  preserves memoExact (narrow numberOfDeposits target lo hi).
Proof.
  unfold narrow.
  apply preserves_bind; [apply record_search_memoExact | intros _].
  apply preserves_bind; [apply getDepositIdAtBlock_memoExact | intros midId].
  apply preserves_bind.
  - destruct (_ =? 0); [apply preserves_ret | apply getDepositIdAtBlock_memoExact].
  - intros prevId.
    destruct (target <? prevId); [apply preserves_ret |].
    destruct (midId - 1 <? target); apply preserves_ret.
Qed.

Lemma bisect_memoExact (target maxSearches : Z) (fuel : nat) :
  forall searches lo hi,
    preserves memoExact (bisect numberOfDeposits target maxSearches fuel searches lo hi).
Proof.
  induction fuel as [| fuel IH]; intros searches lo hi; simpl;
    (apply preserves_bind; [apply narrow_memoExact | intros [lo' hi']]);
    destruct ((searches + 1 <? maxSearches) && (lo' <? hi'));
    first [apply preserves_ret | apply IH].
Qed.

Lemma resolve_memoExact (target lo hi maxSearches : Z) :
  preserves memoExact (resolve numberOfDeposits target lo hi maxSearches).
Proof.
  unfold resolve.
  destruct (lo <? 0); [apply preserves_throw |].
  destruct (hi <? lo); [apply preserves_throw |].
  destruct (maxSearches <=? 0); [apply preserves_throw |].
  apply preserves_bind; [apply getDepositIdAtBlock_memoExact | intros highId].
  destruct (highId <? target); [apply preserves_throw |].
  apply preserves_bind; [apply getDepositIdAtBlock_memoExact | intros lowId].
  destruct (target <? lowId); [apply preserves_throw |].
  apply bisect_memoExact.
Qed.

(** C4. Within one call of [getBlockRangeForDepositId] the counter is
    requested at most once for a block number, whatever the arguments and
    the counter: the requests of the call are pairwise distinct, they are
    exactly the blocks held by the memo table at the end, and a lookup of
    a block that the table already holds returns the stored value without
    a request (the state, and so the trace, is unchanged). *)
Theorem counter_requested_at_most_once
    (targetDepositId initLow initHigh maxSearches : Z) :
  let s := snd (getBlockRangeForDepositId numberOfDeposits
                  targetDepositId initLow initHigh maxSearches) in
  NoDup (ethCalls (trace s))
  /\ (forall b, b ∈ ethCalls (trace s) <-> is_Some (queriedIds s !! b))
  /\ (forall s0 b v, queriedIds s0 !! b = Some v ->
        getDepositIdAtBlock numberOfDeposits b s0 = (inr v, s0)).
Proof.
  pose proof (resolve_memoExact targetDepositId initLow initHigh maxSearches
                emptyEnv memoExact_empty) as [Hnd Hdom].
  split; [exact Hnd |]. split; [exact Hdom |].
  intros s0 b v. apply getDepositIdAtBlock_hit.
Qed.

(** ** The memoised search computes the search on the counter *)

Lemma consistent_empty : consistent numberOfDeposits emptyEnv.
Proof. intros b v Hb. simpl in Hb. rewrite lookup_empty in Hb. discriminate. Qed.

Lemma computes_ret {A} (P : Env -> Prop) (a : A) : computes P (ret a) a.
Proof. intros s Hs. split; [reflexivity | exact Hs]. Qed.

Lemma computes_bind {A B} (P : Env -> Prop) (m : M A) (k : A -> M B) a b :
  computes P m a -> computes P (k a) b -> computes P (bind m k) b.
Proof.
  intros Hm Hk s Hs. unfold bind.
  destruct (Hm s Hs) as [Hv Hs']. destruct (m s) as [r s'].
  simpl in Hv, Hs'. subst r. apply Hk, Hs'.
Qed.

Lemma getDepositIdAtBlock_consistent (b : Z) :
  computes (consistent numberOfDeposits)
    (getDepositIdAtBlock numberOfDeposits b) (numberOfDeposits b).
Proof.
  intros s Hs. unfold getDepositIdAtBlock.
  destruct (queriedIds s !! b) as [v |] eqn:Hb; simpl.
  - split; [f_equal; apply Hs; exact Hb | exact Hs].
  - split; [reflexivity |].
    intros b' v'. simpl. rewrite lookup_insert.
    case_decide as Hbb'; [intros [= <-]; subst; reflexivity | apply Hs].
Qed.

Lemma narrow_pure (target lo hi : Z) :
  computes (consistent numberOfDeposits)
    (narrow numberOfDeposits target lo hi)
    (narrowPure numberOfDeposits target lo hi).
Proof.
  unfold narrow, narrowPure.
  eapply computes_bind with (a := tt).
  { intros s Hs. split; [reflexivity | exact Hs]. }
  eapply computes_bind; [apply getDepositIdAtBlock_consistent |].
  eapply computes_bind with
    (a := if (lo + hi) / 2 =? 0 then 0 else numberOfDeposits ((lo + hi) / 2 - 1)).
  { destruct (_ =? 0); [apply computes_ret | apply getDepositIdAtBlock_consistent]. }
  destruct (target <? _); [apply computes_ret |].
  destruct (_ <? target); apply computes_ret.
Qed.

Lemma bisect_pure (target maxSearches : Z) (fuel : nat) :
  forall searches lo hi,
    computes (consistent numberOfDeposits)
      (bisect numberOfDeposits target maxSearches fuel searches lo hi)
      (bisectPure numberOfDeposits target maxSearches fuel searches lo hi).
Proof.
  induction fuel as [| fuel IH]; intros searches lo hi; simpl;
    (eapply computes_bind; [apply narrow_pure |]);
    destruct (narrowPure numberOfDeposits target lo hi) as [lo' hi'];
    destruct ((searches + 1 <? maxSearches) && (lo' <? hi'));
    first [apply computes_ret | apply IH].
Qed.

(** With the checks passed, the call returns what the search on the
    counter returns. *)
Lemma getBlockRangeForDepositId_pure (target lo hi maxSearches : Z) :
  0 <= lo -> lo <= hi -> 0 < maxSearches ->
  numberOfDeposits lo <= target <= numberOfDeposits hi ->
  fst (getBlockRangeForDepositId numberOfDeposits target lo hi maxSearches)
    = inr (bisectPure numberOfDeposits target maxSearches
             (Z.to_nat maxSearches) 0 lo hi).
Proof.
  intros Hlo Hlh Hmax [Htl Hth].
  unfold getBlockRangeForDepositId.
  enough (Hc : computes (consistent numberOfDeposits)
                 (resolve numberOfDeposits target lo hi maxSearches)
                 (bisectPure numberOfDeposits target maxSearches
                    (Z.to_nat maxSearches) 0 lo hi))
    by exact (proj1 (Hc emptyEnv consistent_empty)).
  unfold resolve.
  destruct (Z.ltb_spec lo 0); [lia |].
  destruct (Z.ltb_spec hi lo); [lia |].
  destruct (Z.leb_spec maxSearches 0); [lia |].
  eapply computes_bind; [apply getDepositIdAtBlock_consistent |].
  destruct (Z.ltb_spec (numberOfDeposits hi) target); [lia |].
  eapply computes_bind; [apply getDepositIdAtBlock_consistent |].
  destruct (Z.ltb_spec target (numberOfDeposits lo)); [lia |].
  apply bisect_pure.
Qed.

(** ** The bracket kept by the search *)

Lemma midpoint_between (lo hi : Z) :
  lo < hi -> lo <= (lo + hi) / 2 < hi.
Proof. intros H. split; [apply Z.div_le_lower_bound | apply Z.div_lt_upper_bound]; lia. Qed.

Lemma narrowPure_bracketed (target initLow initHigh lo hi : Z) :
  0 <= target -> 0 <= initLow ->
  bracketed numberOfDeposits target initLow initHigh lo hi ->
  lo < hi ->
  let '(lo', hi') := narrowPure numberOfDeposits target lo hi in
  bracketed numberOfDeposits target initLow initHigh lo' hi' /\ lo' <= hi'.
Proof.
  intros HT Hinit (Hlo & Hhi & Hbelow & Hreach & Hpast) Hlt.
  unfold narrowPure.
  pose proof (midpoint_between lo hi Hlt) as [Hm1 Hm2].
  set (mid := (lo + hi) / 2) in *.
  assert (Hsucc : mid + 1 - 1 = mid) by lia.
  destruct (Z.eqb_spec mid 0) as [Hmid0 | Hmid0].
  - destruct (Z.ltb_spec target 0); [lia |].
    destruct (Z.ltb_spec (numberOfDeposits mid - 1) target);
      unfold bracketed; rewrite ?Hsucc; repeat split; intros; lia.
  - destruct (Z.ltb_spec target (numberOfDeposits (mid - 1))) as [Hbr | Hbr].
    + assert (lo < mid).
      { destruct (Z.eq_dec lo mid) as [Heq |]; [| lia].
        assert (Hpos : 0 < lo) by lia. specialize (Hbelow Hpos).
        rewrite Heq in Hbelow. lia. }
      unfold bracketed; repeat split; intros; first [lia | auto].
    + destruct (Z.ltb_spec (numberOfDeposits mid - 1) target);
        unfold bracketed; rewrite ?Hsucc; repeat split; intros; lia.
Qed.

(** The loop returns when it is given as much fuel as passes are left. *)
Lemma bisectPure_bracketed (target maxSearches initLow initHigh : Z) (fuel : nat) :
  0 <= target -> 0 <= initLow ->
  forall searches lo hi,
    maxSearches - searches - 1 <= Z.of_nat fuel ->
    bracketed numberOfDeposits target initLow initHigh lo hi ->
    lo < hi ->
    exists l h,
      bisectPure numberOfDeposits target maxSearches fuel searches lo hi
        = Some {| low := l; high := h |}
      /\ bracketed numberOfDeposits target initLow initHigh l h /\ l <= h.
Proof.
  intros HT Hinit.
  induction fuel as [| fuel IH]; intros searches lo hi Hfuel Hbr Hlt; simpl;
    pose proof (narrowPure_bracketed target initLow initHigh lo hi HT Hinit Hbr Hlt) as Hstep;
    destruct (narrowPure numberOfDeposits target lo hi) as [lo' hi'];
    destruct Hstep as [Hbr' Hle'];
    destruct (Z.ltb_spec (searches + 1) maxSearches) as [Hs | Hs]; simpl;
    try lia;
    try (destruct (Z.ltb_spec lo' hi') as [Hlt' | Hge']);
    eauto.
  apply IH; [lia | exact Hbr' | exact Hlt'].
Qed.

Lemma bisectPure_enough_fuel (target maxSearches : Z) (fuel : nat) :
  forall searches lo hi,
    maxSearches - searches - 1 <= Z.of_nat fuel ->
    bisectPure numberOfDeposits target maxSearches fuel searches lo hi <> None.
Proof.
  induction fuel as [| fuel IH]; intros searches lo hi Hfuel; simpl;
    destruct (narrowPure numberOfDeposits target lo hi) as [lo' hi'];
    destruct (Z.ltb_spec (searches + 1) maxSearches) as [Hs | Hs]; simpl;
    try lia; try discriminate;
    destruct (lo' <? hi'); try discriminate.
  apply IH. lia.
Qed.

Lemma initial_bracketed (target lo hi : Z) :
  monotone numberOfDeposits ->
  numberOfDeposits lo <= target <= numberOfDeposits hi ->
  bracketed numberOfDeposits target lo hi lo hi.
Proof.
  intros Hmono [Hl Hh]. unfold bracketed. repeat split; try lia.
  intros _. specialize (Hmono (lo - 1) lo ltac:(lia)). lia.
Qed.

(** Whenever the checks pass the call returns a bracket: the fuel does
    not run out, whatever the counter. *)
Lemma getBlockRangeForDepositId_returns (target lo hi maxSearches : Z) :
  0 <= lo -> lo <= hi -> 0 < maxSearches ->
  numberOfDeposits lo <= target <= numberOfDeposits hi ->
  exists l h,
    fst (getBlockRangeForDepositId numberOfDeposits target lo hi maxSearches)
      = inr (Some {| low := l; high := h |}).
Proof.
  intros Hlo Hlh Hmax Hin.
  rewrite getBlockRangeForDepositId_pure by assumption.
  pose proof (bisectPure_enough_fuel target maxSearches (Z.to_nat maxSearches)
                0 lo hi ltac:(lia)) as Hfuel.
  destruct (bisectPure _ _ _ _ _ _ _) as [[l h] |]; [| contradiction].
  exists l, h. reflexivity.
Qed.

(** ** The failures of the checks *)

Lemma failureKind_messages :
  failureKind (MkError msg_low_negative) = InvalidRange
  /\ failureKind (MkError msg_low_above_high) = InvalidRange
  /\ failureKind (MkError msg_max_searches) = InvalidRange
  /\ failureKind (MkError msg_not_found) = TargetUnreachable.
Proof. repeat split. Qed.

(** C3. [getBlockRangeForDepositId] fails on a violated precondition
    before the search loop is entered.  When [initLow < 0], [initLow >
    initHigh] or [maxSearches <= 0] it throws an error of kind
    InvalidRange, with a message of its own for each of the three checks
    (the first violated one, in this order), and no request has been sent.
    Otherwise, when [numberOfDeposits(initHigh) < targetDepositId] or
    [numberOfDeposits(initLow) > targetDepositId], it throws an error of
    kind TargetUnreachable after requesting the end points only.  In every
    case the result is the error, not a bracket, and the trace has no pass
    through the loop body. *)
Theorem resolver_precondition_failures
    (targetDepositId initLow initHigh maxSearches : Z) :
  let r := getBlockRangeForDepositId numberOfDeposits
             targetDepositId initLow initHigh maxSearches in
  (initLow < 0 \/ initLow > initHigh \/ maxSearches <= 0 ->
     exists e,
       r = (inl e, emptyEnv)
       /\ failureKind e = InvalidRange
       /\ message e =
            (if initLow <? 0 then msg_low_negative
             else if initHigh <? initLow then msg_low_above_high
             else msg_max_searches))
  /\ (0 <= initLow -> initLow <= initHigh -> 0 < maxSearches ->
      numberOfDeposits initHigh < targetDepositId
      \/ numberOfDeposits initLow > targetDepositId ->
      exists e s,
        r = (inl e, s)
        /\ failureKind e = TargetUnreachable
        /\ searchCount (trace s) = 0%nat
        /\ (trace s = [EthCall initHigh]
            \/ trace s = [EthCall initLow; EthCall initHigh]))
  /\ NoDup [msg_low_negative; msg_low_above_high; msg_max_searches; msg_not_found].
Proof.
  cbv zeta. unfold getBlockRangeForDepositId, resolve. split; [| split].
  - intros Hbad.
    destruct (Z.ltb_spec initLow 0).
    { eexists; repeat split. }
    destruct (Z.ltb_spec initHigh initLow).
    { eexists; repeat split. }
    destruct (Z.leb_spec maxSearches 0); [| lia].
    eexists; repeat split.
  - intros Hlo Hlh Hmax Hout.
    destruct (Z.ltb_spec initLow 0); [lia |].
    destruct (Z.ltb_spec initHigh initLow); [lia |].
    destruct (Z.leb_spec maxSearches 0); [lia |].
    unfold bind, getDepositIdAtBlock at 1. simpl. rewrite lookup_empty.
    destruct (Z.ltb_spec (numberOfDeposits initHigh) targetDepositId) as [Hh | Hh].
    { do 2 eexists. repeat split. left. reflexivity. }
    unfold getDepositIdAtBlock. simpl. rewrite lookup_insert.
    case_decide as Heq.
    + subst initHigh.
      destruct (Z.ltb_spec targetDepositId (numberOfDeposits initLow)); [| lia].
      do 2 eexists. repeat split. left. reflexivity.
    + rewrite lookup_empty.
      destruct (Z.ltb_spec targetDepositId (numberOfDeposits initLow)); [| lia].
      do 2 eexists. repeat split. right. reflexivity.
  - repeat constructor; rewrite ?elem_of_cons, ?elem_of_nil;
      unfold msg_low_negative, msg_low_above_high, msg_max_searches, msg_not_found;
      intuition discriminate.
Qed.

(** C2 (amended). For a counter that never decreases, a target that is
    not negative, and a bracket with [0 <= initLow < initHigh],
    [numberOfDeposits(initLow) <= target <= numberOfDeposits(initHigh)] and
    [maxSearches > 0], [getBlockRangeForDepositId] returns a pair [l, h]
    with [initLow <= l <= h <= initHigh] such that the counter has not
    passed the target before block [l] ([numberOfDeposits(l - 1) <= target]
    when [l > 0]) and has reached it at block [h] ([target <=
    numberOfDeposits(h)], strictly when [h < initHigh]); so a collapsed
    result [l = h] with [l > 0] satisfies [numberOfDeposits(l - 1) <=
    target <= numberOfDeposits(l)]. *)
Theorem resolver_bracket
    (targetDepositId initLow initHigh maxSearches : Z) :
  monotone numberOfDeposits ->
  0 <= targetDepositId ->
  numberOfDeposits initLow <= targetDepositId <= numberOfDeposits initHigh ->
  0 <= initLow -> initLow < initHigh -> 0 < maxSearches ->
  exists l h,
    fst (getBlockRangeForDepositId numberOfDeposits
           targetDepositId initLow initHigh maxSearches)
      = inr (Some {| low := l; high := h |})
    /\ initLow <= l /\ l <= h /\ h <= initHigh
    /\ (0 < l -> numberOfDeposits (l - 1) <= targetDepositId)
    /\ targetDepositId <= numberOfDeposits h
    /\ (h < initHigh -> targetDepositId < numberOfDeposits h)
    /\ (l = h -> 0 < l ->
        numberOfDeposits (l - 1) <= targetDepositId <= numberOfDeposits l).
Proof.
  intros Hmono HT Hin Hlo Hlt Hmax.
  rewrite getBlockRangeForDepositId_pure by (try lia; exact Hin).
  destruct (bisectPure_bracketed targetDepositId maxSearches initLow initHigh
              (Z.to_nat maxSearches) HT Hlo 0 initLow initHigh)
    as (l & h & Heq & (Hl & Hh & Hbelow & Hreach & Hpast) & Hle).
  - lia.
  - apply initial_bracketed; assumption.
  - exact Hlt.
  - exists l, h. rewrite Heq. repeat split; try assumption.
    + auto.
    + subst h. exact Hreach.
Qed.

End ResolverProofs.

Lemma resolver_precondition_failures_witness :
  (exists e,
     Resolver.getBlockRangeForDepositId (fun _ => 3) 5 (-1) 10 100
       = (inl e, Resolver.emptyEnv)
     /\ Resolver.failureKind e = Resolver.InvalidRange)
  /\ (exists e s,
        Resolver.getBlockRangeForDepositId (fun _ => 3) 5 0 10 100 = (inl e, s)
        /\ Resolver.failureKind e = Resolver.TargetUnreachable
        /\ Resolver.searchCount (Resolver.trace s) = 0%nat).
Proof.
  split.
  - destruct (proj1 (resolver_precondition_failures (fun _ => 3) 5 (-1) 10 100))
      as (e & He & Hk & _); [left; lia |].
    exists e. split; assumption.
  - destruct (proj1 (proj2 (resolver_precondition_failures (fun _ => 3) 5 0 10 100)))
      as (e & s & He & Hk & Hc & _); [lia | lia | lia | left; lia |].
    exists e, s. repeat split; assumption.
Defined.

Lemma resolver_bracket_witness :
  exists l h,
    fst (Resolver.getBlockRangeForDepositId (fun b => b) 5 0 10 100)
      = inr (Some {| Resolver.low := l; Resolver.high := h |})
    /\ 0 <= l /\ l <= h /\ h <= 10
    /\ (0 < l -> l - 1 <= 5)
    /\ 5 <= h
    /\ (h < 10 -> 5 < h)
    /\ (l = h -> 0 < l -> l - 1 <= 5 <= l).
Proof.
  apply (resolver_bracket (fun b => b) 5 0 10 100).
  - intros a b Hab. exact Hab.
  - lia.
  - lia.
  - lia.
  - lia.
  - lia.
Defined.

(** The bracket property the specification states fails on the counter
    that has one deposit per block: for target 5 in the bracket [0, 10]
    the search collapses on block 6, whose counter is above the target
    while the counter of block 5 is not below it; and for the bracket
    [10, 10] with target 10 the pair returned is [11, 10].  For a reader
    that answers -1 everywhere and the target -1, the bracket [0, 1] gives
    the pair [0, -1]. *)
Lemma resolver_bracket_counterexample :
  let counter := fun b : Z => b in
  let negative := fun _ : Z => -1 in
  Resolver.monotone counter
  /\ (counter 0 <= 5 <= counter 10 /\ 0 <= 0 /\ 0 <= 10 /\ 0 < 100)
  /\ fst (Resolver.getBlockRangeForDepositId counter 5 0 10 100)
       = inr (Some {| Resolver.low := 6; Resolver.high := 6 |})
  /\ ~ (counter 6 <= 5)
  /\ ~ (counter (6 - 1) < 5 <= counter 6)
  /\ (counter 10 <= 10 <= counter 10 /\ 0 <= 10 /\ 10 <= 10 /\ 0 < 1)
  /\ fst (Resolver.getBlockRangeForDepositId counter 10 10 10 1)
       = inr (Some {| Resolver.low := 11; Resolver.high := 10 |})
  /\ ~ (11 <= 10)
  /\ Resolver.monotone negative
  /\ (negative 0 <= -1 <= negative 1 /\ 0 <= 0 /\ 0 <= 1 /\ 0 < 100)
  /\ fst (Resolver.getBlockRangeForDepositId negative (-1) 0 1 100)
       = inr (Some {| Resolver.low := 0; Resolver.high := -1 |})
  /\ ~ (0 <= -1).
Proof.
  cbv zeta. split; [intros a b Hab; exact Hab |].
  split; [lia |]. split; [vm_compute; reflexivity |].
  split; [lia |]. split; [lia |]. split; [lia |].
  split; [vm_compute; reflexivity |]. split; [lia |].
  split; [intros a b Hab; lia |]. split; [lia |].
  split; [vm_compute; reflexivity | lia].
Qed.

(** * Properties of the hub-pool ledger *)

Section LedgerProofs.

Import JsArray HubPool.

Variable proposedRootBundles : list ProposedRootBundle.
Variable executedRootBundles : list ExecutedRootBundle.

(** ** Validity of a root bundle *)

Lemma at_index_of_nat {A} (l : list A) (k : nat) :
  at_index l (Z.of_nat k) = l !! k.
Proof.
  unfold at_index. destruct (Z.ltb_spec (Z.of_nat k) 0); [lia |].
  rewrite Nat2Z.id. reflexivity.
Qed.

Lemma length_filter_decide {A} (P : A -> Prop) `{!forall x, Decision (P x)}
    (p : A -> bool) (l : list A) :
  (forall x, p x = true <-> P x) ->
  length (List.filter p l) = length (filter P l).
Proof.
  intros Hp. induction l as [| x l IH]; [reflexivity |].
  simpl. rewrite filter_cons.
  destruct (p x) eqn:Hpx; destruct (decide (P x)) as [HP | HP]; simpl.
  - f_equal. exact IH.
  - apply Hp in Hpx. contradiction.
  - apply Hp in HP. congruence.
  - exact IH.
Qed.

(** [_.findLastIndex] returns the position of the last match. *)
Lemma findLastIndexFrom_none {A} (p : A -> bool) (l : list A) (i : Z) :
  (forall x, x ∈ l -> p x = false) -> findLastIndexFrom p l i = -1.
Proof.
  revert i. induction l as [| a l IH]; intros i Hall; [reflexivity |].
  simpl. rewrite IH by (intros x Hx; apply Hall; right; exact Hx).
  simpl. rewrite (Hall a) by left. reflexivity.
Qed.

Lemma findLastIndexFrom_last {A} (p : A -> bool) (pre : list A) (b : A)
    (post : list A) (i : Z) :
  0 <= i -> p b = true -> (forall x, x ∈ post -> p x = false) ->
  findLastIndexFrom p (pre ++ b :: post) i = i + Z.of_nat (length pre).
Proof.
  revert i. induction pre as [| a pre IH]; intros i Hi Hb Hpost.
  - simpl. rewrite findLastIndexFrom_none by exact Hpost. simpl.
    rewrite Hb. lia.
  - simpl. rewrite IH by (try lia; assumption).
    destruct (Z.eqb_spec (i + 1 + Z.of_nat (length pre)) (-1)); lia.
Qed.

Lemma findLastIndexFrom_split {A} (p : A -> bool) (l : list A) (i : Z) :
  0 <= i ->
  (findLastIndexFrom p l i = -1 /\ forall x, x ∈ l -> p x = false)
  \/ (exists pre b post,
        l = pre ++ b :: post /\ p b = true
        /\ (forall x, x ∈ post -> p x = false)
        /\ findLastIndexFrom p l i = i + Z.of_nat (length pre)).
Proof.
  revert i. induction l as [| a l IH]; intros i Hi.
  - left. split; [reflexivity | intros x Hx; inversion Hx].
  - destruct (IH (i + 1) ltac:(lia)) as [[Hnone Hall] | (pre & b & post & -> & Hb & Hpost & Hidx)].
    + destruct (p a) eqn:Hpa.
      * right. exists [], a, l. repeat split; try assumption.
        simpl. rewrite Hnone. simpl. rewrite Hpa. lia.
      * left. split.
        -- simpl. rewrite Hnone. simpl. rewrite Hpa. reflexivity.
        -- intros x Hx. apply elem_of_cons in Hx as [-> | Hx]; auto.
    + right. exists (a :: pre), b, post. repeat split; try assumption.
      change ((a :: pre) ++ b :: post) with (a :: (pre ++ b :: post)).
      simpl findLastIndexFrom. rewrite Hidx.
      destruct (Z.eqb_spec (i + 1 + Z.of_nat (length pre)) (-1)); simpl length; lia.
Qed.

(** The bundle that follows [rootBundle]: the one appended right after
    the last proposal that has the block number of [rootBundle]. *)
Lemma getFollowingRootBundle_Some (rootBundle next : ProposedRootBundle) :
  getFollowingRootBundle proposedRootBundles rootBundle = Some next
  <-> exists pre b post,
        proposedRootBundles = pre ++ b :: next :: post
        /\ blockNumber b = blockNumber rootBundle
        /\ forall x, x ∈ next :: post -> blockNumber x <> blockNumber rootBundle.
Proof.
  unfold getFollowingRootBundle, findLastIndex.
  set (p := fun bundle : ProposedRootBundle =>
              blockNumber bundle =? blockNumber rootBundle).
  assert (Hp : forall x, p x = false <-> blockNumber x <> blockNumber rootBundle).
  { intros x. unfold p. rewrite Z.eqb_neq. reflexivity. }
  split.
  - destruct (findLastIndexFrom_split p proposedRootBundles 0 ltac:(lia))
      as [[Hnone _] | (pre & b & post & Heq & Hb & Hpost & Hidx)].
    + rewrite Hnone. simpl. discriminate.
    + rewrite Hidx, Heq, Z.add_0_l.
      destruct (Z.eqb_spec (Z.of_nat (length pre)) (-1)); [lia |].
      rewrite length_app. simpl length.
      destruct (Z.eqb_spec (Z.of_nat (length pre))
                  (Z.of_nat (length pre + S (length post)) - 1)) as [Hlast | Hlast];
        simpl; [discriminate |].
      replace (Z.of_nat (length pre) + 1) with (Z.of_nat (S (length pre))) by lia.
      rewrite at_index_of_nat.
      replace (S (length pre)) with (length pre + 1)%nat by lia.
      rewrite lookup_app_r by lia.
      replace (length pre + 1 - length pre)%nat with 1%nat by lia.
      destruct post as [| next' post]; [simpl in Hlast; lia |].
      simpl. intros [= <-].
      exists pre, b, post. split; [reflexivity |].
      split; [apply Z.eqb_eq; exact Hb |].
      intros x Hx. apply Hp, Hpost, Hx.
  - intros (pre & b & post & Heq & Hb & Hpost).
    rewrite Heq.
    rewrite (findLastIndexFrom_last p pre b (next :: post) 0);
      [| lia | apply Z.eqb_eq; exact Hb | intros x Hx; apply Hp, Hpost, Hx].
    rewrite Z.add_0_l, length_app. simpl length.
    destruct (Z.eqb_spec (Z.of_nat (length pre)) (-1)); [lia |].
    destruct (Z.eqb_spec (Z.of_nat (length pre))
                (Z.of_nat (length pre + S (S (length post))) - 1)); [lia |].
    simpl.
    replace (Z.of_nat (length pre) + 1) with (Z.of_nat (S (length pre))) by lia.
    rewrite at_index_of_nat.
    replace (S (length pre)) with (length pre + 1)%nat by lia.
    rewrite lookup_app_r by lia.
    replace (length pre + 1 - length pre)%nat with 1%nat by lia.
    reflexivity.
Qed.

(** C1. [isRootBundleValid(rootBundle, latestMainnetBlock)] is true
    exactly when the number of [ExecutedRootBundle] events whose block
    number is greater than the block number of the bundle and at most
    [min(next.blockNumber, latestMainnetBlock)], where [next] is the
    bundle following it (at most [latestMainnetBlock] when no bundle
    follows), equals [rootBundle.poolRebalanceLeafCount].  The bundle
    following it is the proposal appended right after the last proposal
    that has its block number. *)
Theorem isRootBundleValid_iff
    (rootBundle : ProposedRootBundle) (latestMainnetBlock : Z) :
  let following := getFollowingRootBundle proposedRootBundles rootBundle in
  let bound :=
    match following with
    | Some next => Z.min (blockNumber next) latestMainnetBlock
    | None => latestMainnetBlock
    end in
  (isRootBundleValid proposedRootBundles executedRootBundles
     rootBundle latestMainnetBlock = true
   <->
   Z.of_nat
     (length
        (filter (fun leaf : ExecutedRootBundle =>
                   blockNumber rootBundle < blockNumber leaf
                   /\ blockNumber leaf <= bound)
                executedRootBundles))
   = poolRebalanceLeafCount rootBundle)
  /\ (forall next,
        following = Some next
        <-> exists pre b post,
              proposedRootBundles = pre ++ b :: next :: post
              /\ blockNumber b = blockNumber rootBundle
              /\ forall x, x ∈ next :: post ->
                    blockNumber x <> blockNumber rootBundle).
Proof.
  cbv zeta. split; [| intros next; apply getFollowingRootBundle_Some].
  unfold isRootBundleValid, getExecutedLeavesForRootBundle.
  rewrite Z.eqb_eq.
  erewrite length_filter_decide; [reflexivity |].
  intros leaf. rewrite andb_true_iff, Z.leb_le, Z.ltb_lt. tauto.
Qed.

(** A bundle of three leaves proposed at block 10 and followed by a
    proposal at block 20 is valid with three leaves executed in between,
    and not valid with two. *)
Example isRootBundleValid_three_leaves :
  let proposals := [bundleAt 10 3 [100]; bundleAt 20 1 [110]] in
  let leaf block := leafAt block 1 ["0xaa"%string] [0] in
  isRootBundleValid proposals [leaf 12; leaf 14; leaf 16] (bundleAt 10 3 [100]) 100
    = true
  /\ isRootBundleValid proposals [leaf 12; leaf 14] (bundleAt 10 3 [100]) 100
     = false
  /\ isRootBundleValid proposals [leaf 12; leaf 14; leaf 20; leaf 21]
       (bundleAt 10 3 [100]) 100
     = true.
Proof. repeat split. Qed.

(** ** The walk through the fully executed bundles *)

Lemma repeatLoop_S (k : nat) (body : WalkState -> WalkState) (st : WalkState) :
  repeatLoop (S k) body st = body (repeatLoop k body st).
Proof.
  revert st. induction k as [| k IH]; intros st; [reflexivity |].
  change (repeatLoop (S (S k)) body st) with (repeatLoop (S k) body (body st)).
  rewrite IH. reflexivity.
Qed.

Lemma findLast_Some {A} (l : list A) (p : A -> bool) (x : A) :
  findLast l p = Some x -> x ∈ l /\ p x = true.
Proof.
  unfold findLast. intros Hf. apply find_some in Hf as [Hin Hp].
  split; [| exact Hp]. apply list_elem_of_In, in_rev. exact Hin.
Qed.

Lemma getLatestFullyExecutedRootBundle_Some (latestMainnetBlock : Z) b :
  getLatestFullyExecutedRootBundle proposedRootBundles executedRootBundles
    latestMainnetBlock = Some b ->
  b ∈ proposedRootBundles
  /\ blockNumber b <= latestMainnetBlock
  /\ isRootBundleValid proposedRootBundles executedRootBundles
       b latestMainnetBlock = true.
Proof.
  unfold getLatestFullyExecutedRootBundle. intros Hf.
  apply findLast_Some in Hf as [Hin Hp]. split; [exact Hin |].
  destruct (Z.ltb_spec latestMainnetBlock (blockNumber b)); [discriminate |].
  split; [lia | exact Hp].
Qed.

Lemma stepBackward_snd (st : WalkState) :
  snd (stepBackward proposedRootBundles executedRootBundles st)
  = Z.max 0
      (match getLatestFullyExecutedRootBundle proposedRootBundles
               executedRootBundles (snd st) with
       | Some b => blockNumber b
       | None => 0
       end - 1).
Proof. reflexivity. Qed.

Section Backward.

Variable start : Z.

Local Notation "'walk' k" :=
  (walkBackward proposedRootBundles executedRootBundles start k)
  (at level 10, k at level 9, only parsing).

Lemma walk_step (k : nat) :
  fst (walk (S k))
    = getLatestFullyExecutedRootBundle proposedRootBundles executedRootBundles
        (snd (walk k)).
Proof. unfold walkBackward. rewrite repeatLoop_S. reflexivity. Qed.

Lemma walk_match (k : nat) b :
  fst (walk (S k)) = Some b ->
  b ∈ proposedRootBundles
  /\ blockNumber b <= snd (walk k)
  /\ isRootBundleValid proposedRootBundles executedRootBundles
       b (snd (walk k)) = true
  /\ snd (walk (S k)) = Z.max 0 (blockNumber b - 1)
  /\ (0 < blockNumber b ->
      snd (walk (S k)) = blockNumber b - 1
      /\ snd (walk (S k)) < snd (walk k)).
Proof.
  intros Hm. pose proof Hm as Hm'. rewrite walk_step in Hm'.
  apply getLatestFullyExecutedRootBundle_Some in Hm' as (Hin & Hle & Hval).
  assert (Hsnd : snd (walk (S k)) = Z.max 0 (blockNumber b - 1)).
  { rewrite walk_step in Hm. unfold walkBackward in *.
    rewrite repeatLoop_S, stepBackward_snd, Hm. reflexivity. }
  repeat split; try assumption; lia.
Qed.

Lemma walk_horizon_nonneg (k : nat) : 0 <= snd (walk (S k)).
Proof.
  unfold walkBackward. rewrite repeatLoop_S, stepBackward_snd. lia.
Qed.

Lemma walk_horizon_step (k : nat) : snd (walk (S (S k))) <= snd (walk (S k)).
Proof.
  pose proof (walk_horizon_nonneg k) as Hk.
  destruct (fst (walk (S (S k)))) as [b |] eqn:Hm.
  - apply walk_match in Hm. lia.
  - rewrite walk_step in Hm.
    unfold walkBackward in *. rewrite (repeatLoop_S (S k)), stepBackward_snd, Hm. lia.
Qed.

Lemma walk_horizon_mono (i d : nat) :
  snd (walk (S (i + d))) <= snd (walk (S i)).
Proof.
  induction d as [| d IH].
  - rewrite Nat.add_0_r. lia.
  - rewrite Nat.add_succ_r. pose proof (walk_horizon_step (i + d)). lia.
Qed.

Lemma walk_no_repeat (i j : nat) b b' :
  (1 <= i < j)%nat ->
  fst (walk i) = Some b -> 0 < blockNumber b ->
  fst (walk j) = Some b' ->
  blockNumber b' < blockNumber b.
Proof.
  intros [Hi Hij] Hb Hpos Hb'.
  destruct i as [| i]; [lia |]. destruct j as [| j]; [lia |].
  apply walk_match in Hb as (_ & _ & _ & _ & Hh).
  apply walk_match in Hb' as (_ & Hle & _).
  destruct j as [| j]; [lia |].
  replace (S j) with (S (i + (j - i))) in Hle by lia.
  pose proof (walk_horizon_mono i (j - i)). lia.
Qed.

End Backward.

Lemma getNth_zero (latestBlockNumber startBlock : option Z) :
  getNthFullyExecutedRootBundle proposedRootBundles executedRootBundles
    latestBlockNumber 0 startBlock = inl (MkError msg_n_zero).
Proof. reflexivity. Qed.

Lemma getNth_negative (latest n : Z) (startBlock : option Z) :
  latest <> 0 -> n < 0 ->
  getNthFullyExecutedRootBundle proposedRootBundles executedRootBundles
    (Some latest) n startBlock
  = inr (fst (walkBackward proposedRootBundles executedRootBundles
                (default latest startBlock) (Z.to_nat (- n)))).
Proof.
  intros Hl Hn. unfold getNthFullyExecutedRootBundle.
  destruct (Z.eqb_spec n 0); [lia |].
  destruct (Z.eqb_spec latest 0); [lia |].
  destruct (Z.ltb_spec n 0); [| lia].
  rewrite Z.abs_neq by lia. reflexivity.
Qed.

End LedgerProofs.

(** C5 (the code at the failing input). For [n = -2]
    [getNthFullyExecutedRootBundle] does not return the second latest
    fully executed bundle: it returns the latest bundle that is valid as
    of the block before the bundle found for [n = -1], and a bundle whose
    last leaf is executed in the block of the next proposal is not valid
    as of that block.  On the ledger with proposals at blocks 10, 20 and
    30, of one leaf each, and leaves executed at blocks 15, 30 and 35,
    all three proposals are fully executed as of the latest block 40:
    [getValidatedRootBundles(40)] returns the three, and the forward walk
    returns them for [n = 1, 2, 3].  Yet the backward walk returns the
    bundle at block 30 for [n = -1], the bundle at block 10 for [n = -2],
    skipping the bundle at block 20, and undefined for [n = -3]. *)
Theorem nth_fully_executed_backward_skips :
  let leaves :=
    [HubPool.leafAt 15 1 ["0xaa"%string] [7];
     HubPool.leafAt 30 1 ["0xaa"%string] [8];
     HubPool.leafAt 35 1 ["0xaa"%string] [9]] in
  let b10 := HubPool.bundleAt 10 1 [100; 200] in
  let b20 := HubPool.bundleAt 20 1 [110; 210] in
  let b30 := HubPool.bundleAt 30 1 [120; 220] in
  let nth n :=
    HubPool.getNthFullyExecutedRootBundle HubPool.threeBundles leaves
      (Some 40) n None in
  (forall proposed executed latest startBlock,
     latest <> 0 ->
     HubPool.getNthFullyExecutedRootBundle proposed executed
       (Some latest) (-2) startBlock
     = inr (HubPool.getLatestFullyExecutedRootBundle proposed executed
              (Z.max 0
                 (match HubPool.getLatestFullyExecutedRootBundle proposed executed
                          (default latest startBlock) with
                  | Some found => HubPool.blockNumber found
                  | None => 0
                  end - 1))))
  /\ HubPool.threeBundles = [b10; b20; b30]
  /\ HubPool.getValidatedRootBundles HubPool.threeBundles leaves 40 = [b10; b20; b30]
  /\ nth 1 = inr (Some b10)
  /\ nth 2 = inr (Some b20)
  /\ nth 3 = inr (Some b30)
  /\ nth (-1) = inr (Some b30)
  /\ nth (-2) = inr (Some b10)
  /\ nth (-3) = inr None
  /\ b10 <> b20
  /\ HubPool.isRootBundleValid HubPool.threeBundles leaves b20 40 = true
  /\ HubPool.isRootBundleValid HubPool.threeBundles leaves b20 29 = false.
Proof.
  cbv zeta. split.
  - intros proposed executed latest startBlock Hlatest.
    rewrite getNth_negative by lia. reflexivity.
  - repeat split. discriminate.
Qed.

(** C10. On a client that has never been updated, whose
    [latestBlockNumber] is undefined, [getNthFullyExecutedRootBundle]
    throws for every [n <> 0], and it returns neither a bundle nor
    undefined; for [n = 0] the error is "n cannot be 0", so that check
    comes first. *)
Theorem nth_fully_executed_requires_update
    (proposed : list HubPool.ProposedRootBundle)
    (executed : list HubPool.ExecutedRootBundle)
    (n : Z) (startBlock : option Z) :
  n <> 0 ->
  HubPool.getNthFullyExecutedRootBundle proposed executed None n startBlock
    = inl (MkError HubPool.msg_not_updated)
  /\ HubPool.getNthFullyExecutedRootBundle proposed executed None 0 startBlock
    = inl (MkError HubPool.msg_n_zero)
  /\ HubPool.msg_n_zero <> HubPool.msg_not_updated.
Proof.
  intros Hn. unfold HubPool.getNthFullyExecutedRootBundle.
  destruct (Z.eqb_spec n 0); [contradiction |].
  repeat split. discriminate.
Qed.

Lemma nth_fully_executed_requires_update_witness :
  HubPool.getNthFullyExecutedRootBundle HubPool.threeBundles HubPool.threeLeaves
    None (-1) None
  = inl (MkError HubPool.msg_not_updated).
Proof.
  apply (nth_fully_executed_requires_update
           HubPool.threeBundles HubPool.threeLeaves (-1) None).
  lia.
Defined.

(** ** The running balance before a block *)

Section RunningBalance.

Import JsArray HubPool.

#[local] Instance notOlder_refl {A} `{SortableEvent A} : Reflexive (@notOlder A _).
Proof. intros x. unfold notOlder. lia. Qed.

#[local] Instance notOlder_trans {A} `{SortableEvent A} : Transitive (@notOlder A _).
Proof. intros x y z. unfold notOlder. lia. Qed.

#[local] Instance notOlder_total {A} `{SortableEvent A} : Total (@notOlder A _).
Proof. intros x y. unfold notOlder. lia. Qed.

Lemma sortEventsDescending_elem_of {A} `{SortableEvent A} (events : list A) x :
  x ∈ sortEventsDescending events <-> x ∈ events.
Proof. unfold sortEventsDescending. rewrite merge_sort_Permutation. reflexivity. Qed.

Lemma sortEventsDescending_sorted {A} `{SortableEvent A} (events : list A) :
  StronglySorted notOlder (sortEventsDescending events).
Proof. apply StronglySorted_merge_sort; apply _. Qed.

(** [find] on a sorted array returns a match that comes before every
    other match in the order. *)
Lemma find_sorted_first {A} (R : relation A) `{!Reflexive R}
    (p : A -> bool) (l : list A) (x : A) :
  StronglySorted R l -> List.find p l = Some x ->
  x ∈ l /\ p x = true /\ forall y, y ∈ l -> p y = true -> R x y.
Proof.
  induction 1 as [| a l Hs IH Hall]; simpl; [discriminate |].
  destruct (p a) eqn:Hpa.
  - intros [= <-]. split; [left |]. split; [exact Hpa |].
    intros y Hy _. apply elem_of_cons in Hy as [-> | Hy]; [reflexivity |].
    rewrite Forall_forall in Hall. apply Hall. exact Hy.
  - intros Hf. destruct (IH Hf) as (Hin & Hpx & Hmax).
    split; [right; exact Hin |]. split; [exact Hpx |].
    intros y Hy Hpy. apply elem_of_cons in Hy as [-> | Hy]; [congruence |].
    apply Hmax; assumption.
Qed.

Lemma find_none_elem_of {A} (p : A -> bool) (l : list A) :
  List.find p l = None -> forall y, y ∈ l -> p y = false.
Proof.
  intros Hf y Hy. apply (find_none p l Hf). apply list_elem_of_In. exact Hy.
Qed.

Lemma includes_elem_of (x : string) (l : list string) :
  includes x l = true <-> x ∈ l.
Proof.
  unfold includes. rewrite existsb_exists. split.
  - intros (y & Hy & Heq). apply String.eqb_eq in Heq. subst y.
    apply list_elem_of_In. exact Hy.
  - intros Hx. exists x. split; [apply list_elem_of_In; exact Hx | apply String.eqb_refl].
Qed.

(** [indexOf] returns the first position of an element of the array. *)
Lemma indexOfStringFrom_elem_of (x : string) (l : list string) (i : Z) :
  x ∈ l ->
  exists k : nat,
    indexOfStringFrom x l i = i + Z.of_nat k
    /\ l !! k = Some x
    /\ forall j : nat, (j < k)%nat -> l !! j <> Some x.
Proof.
  revert i. induction l as [| y l IH]; intros i Hx; [inversion Hx |].
  simpl. destruct (String.eqb_spec y x) as [-> | Hne].
  - exists 0%nat. split; [lia |]. split; [reflexivity |]. intros j Hj. lia.
  - apply elem_of_cons in Hx as [-> | Hx]; [contradiction |].
    destruct (IH (i + 1) Hx) as (k & Hk & Hlk & Hfirst).
    exists (S k). split; [lia |]. split; [exact Hlk |].
    intros [| j] Hj; simpl; [congruence | apply Hfirst; lia].
Qed.



Variable executedRootBundles : list ExecutedRootBundle.

(** C6 (amended). [getRunningBalanceBeforeBlockForChain(block, chain,
    l1Token)] returns 0 when no [ExecutedRootBundle] event has a block
    number at most [block], the chain id [chain], and the token among its
    [l1Tokens], addresses being compared in lower case.  Otherwise it
    looks at a most recent such event (none of the others comes later in
    the order of block number, transaction index and log index): when the
    [l1Tokens] and [runningBalances] of that event have the same length
    it returns the entry of [runningBalances] at the first index where
    [l1Tokens] holds the token, and when they differ in length it throws. *)
Theorem running_balance_before_block (block chain : Z) (l1Token : string) :
  let tokensOf (e : ExecutedRootBundle) := map toLowerCase (l1Tokens e) in
  let matching (e : ExecutedRootBundle) :=
    blockNumber e <= block /\ chainId e = chain
    /\ toLowerCase l1Token ∈ tokensOf e in
  let r := getRunningBalanceBeforeBlockForChain executedRootBundles
             block chain l1Token in
  ((forall e, e ∈ executedRootBundles -> ~ matching e) -> r = inr (Some 0))
  /\ (forall e0, e0 ∈ executedRootBundles -> matching e0 ->
      exists e (i : nat),
        e ∈ executedRootBundles /\ matching e
        /\ (forall e', e' ∈ executedRootBundles -> matching e' -> notOlder e e')
        /\ tokensOf e !! i = Some (toLowerCase l1Token)
        /\ (forall j : nat, (j < i)%nat -> tokensOf e !! j <> Some (toLowerCase l1Token))
        /\ (length (l1Tokens e) = length (runningBalances e) ->
            exists v, runningBalances e !! i = Some v /\ r = inr (Some v))
        /\ (length (l1Tokens e) <> length (runningBalances e) ->
            r = inl (MkError msg_length_mismatch))).
Proof.
  cbv zeta. unfold getRunningBalanceBeforeBlockForChain.
  set (p := fun executedLeaf : ExecutedRootBundle =>
         (blockNumber executedLeaf <=? block) && (chainId executedLeaf =? chain)
         && includes (toLowerCase l1Token) (map toLowerCase (l1Tokens executedLeaf))).
  assert (Hp : forall e, p e = true <->
            blockNumber e <= block /\ chainId e = chain
            /\ toLowerCase l1Token ∈ map toLowerCase (l1Tokens e)).
  { intros e. unfold p.
    rewrite !andb_true_iff, Z.leb_le, Z.eqb_eq, includes_elem_of. tauto. }
  destruct (List.find p (sortEventsDescending executedRootBundles)) as [ev |] eqn:Hfind.
  - apply (find_sorted_first notOlder) in Hfind
      as (Hin & Hpev & Hfirst); [| apply sortEventsDescending_sorted].
    apply (proj1 (sortEventsDescending_elem_of _ _)) in Hin.
    split.
    { intros Hnone. exfalso. apply (Hnone ev Hin). apply Hp. exact Hpev. }
    intros e0 _ _.
    pose proof (proj1 (Hp ev) Hpev) as (Hb & Hc & Htok).
    destruct (indexOfStringFrom_elem_of _ _ 0 Htok) as (i & Hi & Hlook & Hleast).
    exists ev, i. split; [exact Hin |]. split; [tauto |].
    split.
    { intros e' He' Hm. apply Hfirst.
      - apply sortEventsDescending_elem_of. exact He'.
      - apply Hp. exact Hm. }
    split; [exact Hlook |]. split; [exact Hleast |].
    unfold indexOfString. rewrite Hi, Z.add_0_l, at_index_of_nat.
    split.
    + intros Hlen. apply Nat.eqb_eq in Hlen as Hlen'. rewrite Hlen'. simpl.
      assert (Hlt : (i < length (runningBalances ev))%nat).
      { rewrite <- Hlen. apply lookup_lt_Some in Hlook.
        rewrite length_map in Hlook. exact Hlook. }
      apply lookup_lt_is_Some in Hlt as [v Hv].
      exists v. rewrite Hv. split; reflexivity.
    + intros Hlen. apply Nat.eqb_neq in Hlen. rewrite Hlen. reflexivity.
  - split; [reflexivity |].
    intros e0 He0 Hm. exfalso.
    apply (proj2 (sortEventsDescending_elem_of _ _)) in He0.
    pose proof (find_none_elem_of p _ Hfind e0 He0) as Hf.
    apply Hp in Hm. congruence.
Qed.

End RunningBalance.

Lemma running_balance_before_block_witness :
  HubPool.getRunningBalanceBeforeBlockForChain HubPool.threeLeaves
    30 2 "0xaa" = inr (Some 0)
  /\ exists v,
       HubPool.getRunningBalanceBeforeBlockForChain HubPool.threeLeaves
         30 1 "0xAA" = inr (Some v).
Proof.
  split.
  - apply (proj1 (running_balance_before_block HubPool.threeLeaves 30 2 "0xaa")).
    intros e He (_ & Hc & _).
    unfold HubPool.threeLeaves in He.
    rewrite !elem_of_cons, elem_of_nil in He.
    destruct He as [-> | [-> | [-> | []]]]; discriminate Hc.
  - destruct (proj2 (running_balance_before_block HubPool.threeLeaves 30 1 "0xAA")
                (HubPool.leafAt 25 1 ["0xaa"%string] [8]))
      as (e & i & He & _ & _ & _ & _ & Hsame & _).
    + unfold HubPool.threeLeaves. rewrite !elem_of_cons. right. left. reflexivity.
    + split; [simpl; lia |]. split; [reflexivity |].
      simpl. rewrite elem_of_cons. left. reflexivity.
    + unfold HubPool.threeLeaves in He.
      rewrite !elem_of_cons, elem_of_nil in He.
      destruct He as [-> | [-> | [-> | []]]];
        destruct (Hsame eq_refl) as (v & _ & Hr); exists v; exact Hr.
Defined.

(** The statement of the specification fails on two ledgers of one
    event.  When the event lists one token and two running balances the
    call throws, although the event is the most recent one with the token
    and its running balance at the index of the token is 5.  When the
    event lists the token in upper case and the query is in lower case,
    the event does not contain the queried string, yet the call returns
    its running balance and not 0. *)
Lemma running_balance_before_block_counterexample :
  let uneven := HubPool.leafAt 5 1 ["0xaa"%string] [5; 7] in
  let upper := HubPool.leafAt 5 1 ["0xAA"%string] [5] in
  (HubPool.blockNumber uneven <= 10 /\ HubPool.chainId uneven = 1
   /\ HubPool.l1Tokens uneven !! 0%nat = Some "0xaa"%string
   /\ HubPool.runningBalances uneven !! 0%nat = Some 5
   /\ HubPool.getRunningBalanceBeforeBlockForChain [uneven] 10 1 "0xaa"
      = inl (MkError HubPool.msg_length_mismatch))
  /\ (("0xaa"%string ∉ HubPool.l1Tokens upper)
      /\ HubPool.getRunningBalanceBeforeBlockForChain [upper] 10 1 "0xaa"
         = inr (Some 5)).
Proof.
  cbv zeta. split.
  - repeat split; try reflexivity. simpl. lia.
  - split; [| reflexivity].
    simpl. rewrite elem_of_cons, elem_of_nil. intros [H | []]. discriminate H.
Qed.

(** ** The end block of a bundle for a chain *)

Lemma indexOfFrom_elem_of (x : Z) (l : list Z) (i : Z) :
  x ∈ l ->
  exists k : nat,
    JsArray.indexOfFrom x l i = i + Z.of_nat k
    /\ l !! k = Some x
    /\ forall j : nat, (j < k)%nat -> l !! j <> Some x.
Proof.
  revert i. induction l as [| y l IH]; intros i Hx; [inversion Hx |].
  simpl. destruct (Z.eqb_spec y x) as [-> | Hne].
  - exists 0%nat. split; [lia |]. split; [reflexivity |]. intros j Hj. lia.
  - apply elem_of_cons in Hx as [-> | Hx]; [contradiction |].
    destruct (IH (i + 1) Hx) as (k & Hk & Hlk & Hfirst).
    exists (S k). split; [lia |]. split; [exact Hlk |].
    intros [| j] Hj; simpl; [congruence | apply Hfirst; lia].
Qed.

Lemma indexOfFrom_not_elem_of (x : Z) (l : list Z) (i : Z) :
  x ∉ l -> JsArray.indexOfFrom x l i = -1.
Proof.
  revert i. induction l as [| y l IH]; intros i Hx; [reflexivity |].
  simpl. rewrite not_elem_of_cons in Hx. destruct Hx as [Hne Hx].
  destruct (Z.eqb_spec y x); [congruence | apply IH; exact Hx].
Qed.

(** What [getBundleEndBlockForChain] does: 0 for a chain that is not in
    [chainIdList] or whose index is past the end of
    [bundleEvaluationBlockNumbers]; otherwise the block number at the
    index of the chain when it fits 53 bits, and the overflow error of
    [toNumber] when it does not. *)
Lemma getBundleEndBlockForChain_cases
    (ev : HubPool.ProposedRootBundle) (chainId : Z) (chainIdList : list Z) :
  (chainId ∉ chainIdList ->
     HubPool.getBundleEndBlockForChain ev chainId chainIdList = inr 0)
  /\ (forall k : nat,
        chainIdList !! k = Some chainId ->
        (forall j : nat, (j < k)%nat -> chainIdList !! j <> Some chainId) ->
        match HubPool.bundleEvaluationBlockNumbers ev !! k with
        | None => HubPool.getBundleEndBlockForChain ev chainId chainIdList = inr 0
        | Some b =>
            HubPool.getBundleEndBlockForChain ev chainId chainIdList
            = if Z.abs b <? 2 ^ 53 then inr b
              else inl (MkError HubPool.msg_overflow)
        end).
Proof.
  unfold HubPool.getBundleEndBlockForChain, JsArray.indexOf. split.
  - intros Hnot. rewrite indexOfFrom_not_elem_of by exact Hnot. reflexivity.
  - intros k Hk Hfirst.
    assert (Hin : chainId ∈ chainIdList) by (eapply list_elem_of_lookup_2; exact Hk).
    destruct (indexOfFrom_elem_of chainId chainIdList 0 Hin) as (k' & Hidx & Hk' & Hfirst').
    assert (k' = k).
    { destruct (Nat.lt_trichotomy k' k) as [Hlt | [Heq | Hgt]]; [| exact Heq |].
      - exfalso. exact (Hfirst k' Hlt Hk').
      - exfalso. exact (Hfirst' k Hgt Hk). }
    subst k'. rewrite Hidx, Z.add_0_l.
    destruct (Z.eqb_spec (Z.of_nat k) (-1)); [lia |].
    destruct (HubPool.bundleEvaluationBlockNumbers ev !! k) as [b |] eqn:Hb.
    + apply lookup_lt_Some in Hb as Hlt.
      destruct (Z.leb_spec (Z.of_nat (length (HubPool.bundleEvaluationBlockNumbers ev)))
                  (Z.of_nat k)); [lia |].
      rewrite at_index_of_nat, Hb. reflexivity.
    + apply lookup_ge_None in Hb.
      destruct (Z.leb_spec (Z.of_nat (length (HubPool.bundleEvaluationBlockNumbers ev)))
                  (Z.of_nat k)); [reflexivity | lia].
Qed.

(** C8 (the code at the failing input). For a bundle whose evaluation
    block number for the chain is [2^53], [getBundleEndBlockForChain]
    does not return that element: the conversion [toNumber] throws. *)
Theorem bundle_end_block_overflow :
  let bundle := HubPool.bundleAt 10 1 [2 ^ 53] in
  JsArray.indexOf 1 [1] = 0
  /\ HubPool.bundleEvaluationBlockNumbers bundle !! 0%nat = Some (2 ^ 53)
  /\ HubPool.getBundleEndBlockForChain bundle 1 [1]
     = inl (MkError HubPool.msg_overflow).
Proof. cbv zeta. repeat split. Qed.

(** ** Ingestion of the enabled tokens *)

Section TokenIngestion.

Import HubPool.

Lemma find_symbol_None (knownTokens : list L1Token) (info : L1Token) :
  List.find (fun token => String.eqb (symbol token) (symbol info)) knownTokens = None
  <-> ~ knownSymbol knownTokens info.
Proof.
  split.
  - intros Hf (token & Hin & Hsym).
    pose proof (find_none _ _ Hf token (proj1 (list_elem_of_In _ _) Hin)) as Hne.
    simpl in Hne. rewrite Hsym, String.eqb_refl in Hne. discriminate.
  - intros Hnot.
    destruct (List.find _ knownTokens) as [token |] eqn:Hf; [| reflexivity].
    exfalso. apply find_some in Hf as [Hin Heq]. apply Hnot.
    exists token. split; [apply list_elem_of_In; exact Hin |].
    apply String.eqb_eq. exact Heq.
Qed.

Lemma knownSymbol_cases (knownTokens : list L1Token) (info : L1Token) :
  knownSymbol knownTokens info \/ ~ knownSymbol knownTokens info.
Proof.
  destruct (List.find (fun token => String.eqb (symbol token) (symbol info))
              knownTokens) as [token |] eqn:Hf.
  - left. apply find_some in Hf as [Hin Heq]. exists token.
    split; [apply list_elem_of_In; exact Hin | apply String.eqb_eq; exact Heq].
  - right. apply find_symbol_None. exact Hf.
Qed.

Lemma ingestToken_cases (knownTokens : list L1Token) (info : L1Token) :
  (~ knownSymbol knownTokens info -> supportedDecimals info ->
     ingestToken knownTokens info = inr (knownTokens ++ [info]))
  /\ (~ knownSymbol knownTokens info -> ~ supportedDecimals info ->
     ingestToken knownTokens info = inl (unsupportedToken info))
  /\ (knownSymbol knownTokens info ->
     ingestToken knownTokens info = inr knownTokens).
Proof.
  unfold ingestToken, supportedDecimals.
  destruct (List.find _ knownTokens) as [token |] eqn:Hf.
  - assert (Hk : knownSymbol knownTokens info).
    { apply find_some in Hf as [Hin Heq]. exists token.
      split; [apply list_elem_of_In; exact Hin | apply String.eqb_eq; exact Heq]. }
    repeat split; intros; try reflexivity; contradiction.
  - apply find_symbol_None in Hf.
    destruct (Z.ltb_spec 0 (decimals info)); destruct (Z.leb_spec (decimals info) 18);
      simpl; repeat split; intros; try reflexivity; try contradiction; lia.
Qed.

Lemma ingestTokens_spec (tokenInfo : list L1Token) :
  forall knownTokens,
    let r := ingestTokens knownTokens tokenInfo in
    (exists added,
       snd r = knownTokens ++ added
       /\ forall token, token ∈ added -> token ∈ tokenInfo /\ supportedDecimals token)
    /\ (fst r = None -> forall info, info ∈ tokenInfo -> knownSymbol (snd r) info)
    /\ (forall e, fst r = Some e ->
        exists info,
          info ∈ tokenInfo /\ e = unsupportedToken info
          /\ ~ supportedDecimals info /\ ~ knownSymbol (snd r) info)
    /\ ((forall info, info ∈ tokenInfo -> supportedDecimals info) -> fst r = None).
Proof.
  induction tokenInfo as [| info rest IH]; intros knownTokens; cbv zeta.
  - simpl. split; [exists []; split; [symmetry; apply app_nil_r | intros t Ht; inversion Ht] |].
    split; [intros _ i Hi; inversion Hi |].
    split; [intros e He; discriminate | reflexivity].
  - simpl.
    destruct (ingestToken_cases knownTokens info) as (Hadd & Hrej & Hskip).
    destruct (knownSymbol_cases knownTokens info) as [Hk | Hk].
    + rewrite (Hskip Hk).
      destruct (IH knownTokens) as ((added & Hsnd & Hadded) & Hok & Herr & Hall).
      split; [exists added; split; [exact Hsnd |] |].
      { intros t Ht. destruct (Hadded t Ht). split; [right |]; assumption. }
      split.
      { intros Hnone i Hi. apply elem_of_cons in Hi as [-> | Hi]; [| auto].
        destruct Hk as (t & Ht & Hsym). exists t. split; [| exact Hsym].
        rewrite Hsnd. apply elem_of_app. left. exact Ht. }
      split.
      { intros e He. destruct (Herr e He) as (i & Hi & Hrest).
        exists i. split; [right; exact Hi | exact Hrest]. }
      intros Hsup. apply Hall. intros i Hi. apply Hsup. right. exact Hi.
    + destruct (decide (0 < decimals info <= 18)) as [Hs | Hs].
      * rewrite (Hadd Hk Hs).
        destruct (IH (knownTokens ++ [info])) as ((added & Hsnd & Hadded) & Hok & Herr & Hall).
        split; [exists (info :: added); split |].
        { rewrite Hsnd, <- app_assoc. reflexivity. }
        { intros t Ht. apply elem_of_cons in Ht as [-> | Ht].
          - split; [left | exact Hs].
          - destruct (Hadded t Ht). split; [right |]; assumption. }
        split.
        { intros Hnone i Hi. apply elem_of_cons in Hi as [-> | Hi]; [| auto].
          exists info. split; [| reflexivity].
          rewrite Hsnd. apply elem_of_app. left. apply elem_of_app. right. left. }
        split.
        { intros e He. destruct (Herr e He) as (i & Hi & Hrest).
          exists i. split; [right; exact Hi | exact Hrest]. }
        intros Hsup. apply Hall. intros i Hi. apply Hsup. right. exact Hi.
      * rewrite (Hrej Hk Hs). simpl.
        split; [exists []; split; [symmetry; apply app_nil_r | intros t Ht; inversion Ht] |].
        split; [discriminate |].
        split.
        { intros e [= <-]. exists info. split; [left |]. repeat split; assumption. }
        intros Hsup. exfalso. apply Hs, Hsup. left.
Qed.

End TokenIngestion.

(** C9 (amended). While [update] ingests the newly enabled tokens, a
    token whose symbol is not yet in the token list and whose fetched
    decimals are outside (0, 18] makes it throw "Unsupported HubPool
    token" and is not added; a token whose symbol is not yet in the list
    and whose decimals are in (0, 18] is appended as fetched; a token
    whose symbol is already in the list is skipped, whatever its decimals.
    For the whole batch: the list only grows, by tokens of the batch with
    decimals in (0, 18] and unchanged; when the batch ends without an
    error every token of the batch has its symbol in the list; an error
    names a token of the batch with decimals outside (0, 18] whose symbol
    is not in the list; and no error occurs when all decimals of the
    batch are in (0, 18]. *)
Theorem token_ingestion_decimals
    (tokenSymbol : string -> string) (tokenDecimals : string -> Z) :
  (forall knownTokens info,
     (~ HubPool.knownSymbol knownTokens info -> HubPool.supportedDecimals info ->
        HubPool.ingestToken knownTokens info = inr (knownTokens ++ [info]))
     /\ (~ HubPool.knownSymbol knownTokens info -> ~ HubPool.supportedDecimals info ->
        HubPool.ingestToken knownTokens info = inl (HubPool.unsupportedToken info))
     /\ (HubPool.knownSymbol knownTokens info ->
        HubPool.ingestToken knownTokens info = inr knownTokens))
  /\ (forall knownTokens l1TokensLpEvents,
        let tokenInfo :=
          map (HubPool.fetchTokenInfoFromContract tokenSymbol tokenDecimals)
              (HubPool.unique l1TokensLpEvents) in
        let r := HubPool.updateL1Tokens tokenSymbol tokenDecimals
                   knownTokens l1TokensLpEvents in
        (exists added,
           snd r = knownTokens ++ added
           /\ forall token, token ∈ added ->
                token ∈ tokenInfo /\ HubPool.supportedDecimals token)
        /\ (fst r = None ->
            forall info, info ∈ tokenInfo -> HubPool.knownSymbol (snd r) info)
        /\ (forall e, fst r = Some e ->
            exists info,
              info ∈ tokenInfo /\ e = HubPool.unsupportedToken info
              /\ ~ HubPool.supportedDecimals info
              /\ ~ HubPool.knownSymbol (snd r) info)
        /\ ((forall info, info ∈ tokenInfo -> HubPool.supportedDecimals info) ->
            fst r = None)).
Proof.
  split.
  - apply ingestToken_cases.
  - intros knownTokens l1TokensLpEvents. cbv zeta.
    unfold HubPool.updateL1Tokens. apply ingestTokens_spec.
Qed.

Lemma token_ingestion_decimals_witness :
  let bad := {| HubPool.address := "0xbad"; HubPool.symbol := "BAD";
                HubPool.decimals := 19 |} in
  let dai := {| HubPool.address := "0xda1"; HubPool.symbol := "DAI";
                HubPool.decimals := 18 |} in
  HubPool.ingestToken [dai] bad = inl (HubPool.unsupportedToken bad)
  /\ HubPool.ingestToken [] dai = inr [dai]
  /\ HubPool.ingestToken [dai] dai = inr [dai].
Proof.
  cbv zeta. split; [| split].
  - apply (proj1 (token_ingestion_decimals (fun _ => "BAD"%string) (fun _ => 19))).
    + intros (token & Hin & Hsym).
      rewrite elem_of_cons, elem_of_nil in Hin. destruct Hin as [-> | []].
      discriminate Hsym.
    + unfold HubPool.supportedDecimals. simpl. lia.
  - apply (proj1 (token_ingestion_decimals (fun _ => "DAI"%string) (fun _ => 18))
             [] {| HubPool.address := "0xda1"; HubPool.symbol := "DAI";
                   HubPool.decimals := 18 |}).
    + intros (token & Hin & _). rewrite elem_of_nil in Hin. exact Hin.
    + unfold HubPool.supportedDecimals. simpl. lia.
  - apply (proj1 (token_ingestion_decimals (fun _ => "DAI"%string) (fun _ => 18))).
    eexists. split; [left | reflexivity].
Defined.

(** A token with 0 decimals is ingested without an error when its symbol
    is already in the token list: it is skipped, not rejected. *)
Lemma token_ingestion_decimals_counterexample :
  let usdc := {| HubPool.address := "0xa0b8"; HubPool.symbol := "USDC";
                 HubPool.decimals := 6 |} in
  let other := {| HubPool.address := "0xffff"; HubPool.symbol := "USDC";
                  HubPool.decimals := 0 |} in
  HubPool.fetchTokenInfoFromContract (fun _ => "USDC"%string) (fun _ => 0) "0xffff"
    = other
  /\ ~ (0 < HubPool.decimals other <= 18)
  /\ HubPool.updateL1Tokens (fun _ => "USDC"%string) (fun _ => 0) [usdc] ["0xffff"%string]
     = (None, [usdc]).
Proof. cbv zeta. split; [reflexivity |]. split; [simpl; lia | reflexivity]. Qed.

(** * Properties of the UBA fee calculator *)

Section FeeProofs.

Import JsArray UBA.

Lemma isUbaInflow_iff (flow : UbaFlow) :
  isUbaInflow flow = true <-> quoteTimestamp flow <> None.
Proof.
  unfold isUbaInflow. rewrite negb_true_iff, bool_decide_eq_false. reflexivity.
Qed.

Lemma isUbaOutflow_iff (flow : UbaFlow) :
  isUbaOutflow flow = true
  <-> quoteTimestamp flow = None
      /\ (isSlowRelay flow <> None \/ fillBlock flow <> None).
Proof.
  unfold isUbaOutflow, isUbaInflow, outflowIsFill, outflowIsRefund.
  rewrite andb_true_iff, orb_true_iff, negb_involutive,
    !negb_true_iff, !bool_decide_eq_false, bool_decide_eq_true.
  reflexivity.
Qed.

Lemma inflow_not_outflow (flow : UbaFlow) :
  ~ (isUbaInflow flow = true /\ isUbaOutflow flow = true).
Proof.
  intros [Hin Hout]. unfold isUbaOutflow in Hout. rewrite Hin in Hout.
  discriminate.
Qed.

(** The reduction adds the inflows and subtracts the outflows. *)
Lemma reduceFlow_totals (flows : list UbaFlow) (validated : option Z) :
  reduceFlow flows validated
  = default 0 validated + inflowTotal flows - outflowTotal flows.
Proof.
  unfold reduceFlow, inflowTotal, outflowTotal, sumAmounts.
  generalize (default 0 validated) as acc.
  induction flows as [| flow flows IH]; intros acc; simpl; [lia |].
  rewrite IH.
  destruct (isUbaInflow flow) eqn:Hin.
  - assert (Hout : isUbaOutflow flow = false).
    { unfold isUbaOutflow. rewrite Hin. reflexivity. }
    rewrite Hout. simpl. lia.
  - destruct (isUbaOutflow flow); simpl; lia.
Qed.

(** [slice] keeps the positions from [start] up to, not including,
    [finish], a negative index counting from the end. *)
Lemma slice_lookup {A} (l : list A) (start finish : Z) (i : nat) :
  let len := Z.of_nat (length l) in
  slice l start finish !! i
  = if fromEnd len start + Z.of_nat i <? fromEnd len finish
    then l !! Z.to_nat (fromEnd len start + Z.of_nat i)
    else None.
Proof.
  cbv zeta. unfold slice, clampIndex, fromEnd.
  set (len := Z.of_nat (length l)).
  assert (Hlen : 0 <= len) by (unfold len; lia).
  set (s := if start <? 0 then Z.max (len + start) 0 else start).
  set (e := if finish <? 0 then Z.max (len + finish) 0 else finish).
  assert (Hs : 0 <= s) by (unfold s; destruct (Z.ltb_spec start 0); lia).
  assert (He : 0 <= e) by (unfold e; destruct (Z.ltb_spec finish 0); lia).
  replace (if start <? 0 then Z.max (len + start) 0 else Z.min start len)
    with (Z.min s len) by (unfold s; destruct (Z.ltb_spec start 0); lia).
  replace (if finish <? 0 then Z.max (len + finish) 0 else Z.min finish len)
    with (Z.min e len) by (unfold e; destruct (Z.ltb_spec finish 0); lia).
  destruct (Z.ltb_spec (s + Z.of_nat i) e) as [Hin | Hout].
  - destruct (Z_lt_le_dec (s + Z.of_nat i) len) as [Hlt | Hge].
    + rewrite lookup_take_lt by lia.
      rewrite lookup_drop. f_equal. lia.
    + transitivity (@None A); [| symmetry; apply lookup_ge_None; unfold len in Hge; lia].
      apply lookup_ge_None. rewrite length_take, length_drop.
      unfold len in *. lia.
  - apply lookup_ge_None. rewrite length_take, length_drop.
    unfold len in *. lia.
Qed.

Lemma fromEnd_nonneg (len i : Z) : 0 <= i -> fromEnd len i = i.
Proof. intros Hi. unfold fromEnd. destruct (Z.ltb_spec i 0); [lia | reflexivity]. Qed.

End FeeProofs.

(** C7. [calculateRecentRunningBalance] for a side is the last validated
    running balance of that spoke (0 when there is none) plus the amounts
    of the inflows minus the amounts of the outflows of its
    [recentRequestFlow], restricted, when a flow range is given, to the
    positions from [startIndex] up to, not including, [endIndex] (a
    negative index counts from the end, as in [Array.prototype.slice]).  A
    flow is an inflow when it has a quote timestamp, an outflow when it
    has none and has a slow-relay flag or a fill block; no flow is both,
    and a flow that is neither changes nothing.  The flows inflow 100,
    outflow 30, inflow 5 over a validated balance of 0 give 75. *)
Theorem running_balance_is_fold
    (originSpoke refundSpoke : UBA.UBASpokeBalanceType) (side : UBA.SpokeSide) :
  let spoke := match side with UBA.origin => originSpoke | UBA.refund => refundSpoke end in
  let flows := UBA.recentRequestFlow spoke in
  let len := Z.of_nat (length flows) in
  let base := default 0 (UBA.lastValidatedRunningBalance spoke) in
  UBA.calculateRecentRunningBalance originSpoke refundSpoke side None
    = base + UBA.inflowTotal flows - UBA.outflowTotal flows
  /\ (forall range,
        let first := JsArray.fromEnd len (UBA.startIndex range) in
        let bound := JsArray.fromEnd len (UBA.endIndex range) in
        exists window,
          (forall i : nat,
             window !! i
             = if first + Z.of_nat i <? bound
               then flows !! Z.to_nat (first + Z.of_nat i)
               else None)
          /\ UBA.calculateRecentRunningBalance originSpoke refundSpoke side (Some range)
             = base + UBA.inflowTotal window - UBA.outflowTotal window)
  /\ (forall i, 0 <= i -> JsArray.fromEnd len i = i)
  /\ (forall flow,
        (UBA.isUbaInflow flow = true <-> UBA.quoteTimestamp flow <> None)
        /\ (UBA.isUbaOutflow flow = true
            <-> UBA.quoteTimestamp flow = None
                /\ (UBA.isSlowRelay flow <> None \/ UBA.fillBlock flow <> None))
        /\ ~ (UBA.isUbaInflow flow = true /\ UBA.isUbaOutflow flow = true))
  /\ (forall acc flow,
        UBA.isUbaInflow flow = false -> UBA.isUbaOutflow flow = false ->
        UBA.reduceFlow [flow] (Some acc) = acc)
  /\ (forall deposit fill deposit',
        UBA.isUbaInflow deposit = true -> UBA.amount deposit = 100 ->
        UBA.isUbaOutflow fill = true -> UBA.amount fill = 30 ->
        UBA.isUbaInflow deposit' = true -> UBA.amount deposit' = 5 ->
        flows = [deposit; fill; deposit'] -> base = 0 ->
        UBA.calculateRecentRunningBalance originSpoke refundSpoke side None = 75).
Proof.
  cbv zeta. unfold UBA.calculateRecentRunningBalance.
  split; [apply reduceFlow_totals |].
  split.
  { intros range. eexists. split; [| apply reduceFlow_totals].
    intros i. apply slice_lookup. }
  split; [intros i; apply fromEnd_nonneg |].
  split.
  { intros flow. split; [apply isUbaInflow_iff |].
    split; [apply isUbaOutflow_iff | apply inflow_not_outflow]. }
  split.
  { intros acc flow Hin Hout. unfold UBA.reduceFlow. simpl.
    rewrite Hin, Hout. reflexivity. }
  intros deposit fill deposit' Hd Hda Hf Hfa Hd' Hda' Hflows Hbase.
  unfold UBA.reduceFlow. rewrite Hflows, Hbase. simpl.
  assert (Hnf : UBA.isUbaInflow fill = false).
  { destruct (UBA.isUbaInflow fill) eqn:E; [| reflexivity].
    exfalso. exact (inflow_not_outflow fill (conj E Hf)). }
  rewrite Hd, Hnf, Hf, Hd', Hda, Hfa, Hda'. reflexivity.
Qed.

Lemma running_balance_is_fold_witness :
  let deposit a := {| UBA.amount := a; UBA.quoteTimestamp := Some 1700000000;
                      UBA.isSlowRelay := None; UBA.fillBlock := None |} in
  let fill a := {| UBA.amount := a; UBA.quoteTimestamp := None;
                   UBA.isSlowRelay := Some false; UBA.fillBlock := None |} in
  let spoke := {| UBA.chainId := 1;
                  UBA.recentRequestFlow := [deposit 100; fill 30; deposit 5];
                  UBA.lastValidatedRunningBalance := Some 0 |} in
  UBA.calculateRecentRunningBalance spoke spoke UBA.origin None = 75
  /\ UBA.reduceFlow [{| UBA.amount := 9; UBA.quoteTimestamp := None;
                        UBA.isSlowRelay := None; UBA.fillBlock := None |}]
       (Some 4) = 4.
Proof.
  cbv zeta. split.
  - apply (proj2 (proj2 (proj2 (proj2 (proj2 (running_balance_is_fold _ _ UBA.origin)))))
             {| UBA.amount := 100; UBA.quoteTimestamp := Some 1700000000;
                UBA.isSlowRelay := None; UBA.fillBlock := None |}
             {| UBA.amount := 30; UBA.quoteTimestamp := None;
                UBA.isSlowRelay := Some false; UBA.fillBlock := None |}
             {| UBA.amount := 5; UBA.quoteTimestamp := Some 1700000000;
                UBA.isSlowRelay := None; UBA.fillBlock := None |});
      reflexivity.
  - apply (proj1 (proj2 (proj2 (proj2 (proj2
             (running_balance_is_fold
                {| UBA.chainId := 1; UBA.recentRequestFlow := [];
                   UBA.lastValidatedRunningBalance := None |}
                {| UBA.chainId := 1; UBA.recentRequestFlow := [];
                   UBA.lastValidatedRunningBalance := None |}
                UBA.origin))))));
      reflexivity.
Defined.

(** * More on the block-range resolver *)

Section ResolverExact.

Import Resolver.

Variable numberOfDeposits : Z -> Z.

(** A pass that does not collapse the bracket leaves less than half of
    it. *)
Lemma narrowPure_halves (target lo hi : Z) :
  lo < hi ->
  let '(lo', hi') := narrowPure numberOfDeposits target lo hi in
  lo' = hi' \/ 2 * (hi' - lo') + 1 <= hi - lo.
Proof.
  intros Hlt. unfold narrowPure.
  pose proof (midpoint_between lo hi Hlt) as [Hm1 Hm2].
  assert (Hdiv : 2 * ((lo + hi) / 2) <= lo + hi < 2 * ((lo + hi) / 2) + 2).
  { pose proof (Z.div_mod (lo + hi) 2 ltac:(lia)).
    pose proof (Z.mod_pos_bound (lo + hi) 2 ltac:(lia)). lia. }
  set (mid := (lo + hi) / 2) in *.
  destruct (target <? _); [right; lia |].
  destruct (_ <? target); [right; lia | left; reflexivity].
Qed.

Lemma bisectPure_collapses (target maxSearches initLow initHigh : Z) (fuel : nat) :
  0 <= target -> 0 <= initLow ->
  forall searches lo hi,
    maxSearches - searches - 1 <= Z.of_nat fuel ->
    0 <= searches < maxSearches ->
    bracketed numberOfDeposits target initLow initHigh lo hi ->
    lo < hi ->
    hi - lo + 2 <= 2 ^ (maxSearches - searches + 1) ->
    exists m,
      bisectPure numberOfDeposits target maxSearches fuel searches lo hi
        = Some {| low := m; high := m |}
      /\ bracketed numberOfDeposits target initLow initHigh m m.
Proof.
  intros HT Hinit.
  induction fuel as [| fuel IH]; intros searches lo hi Hfuel Hs Hbr Hlt Hpow; simpl;
    pose proof (narrowPure_bracketed numberOfDeposits target initLow initHigh
                  lo hi HT Hinit Hbr Hlt) as Hstep;
    pose proof (narrowPure_halves target lo hi Hlt) as Hhalf;
    destruct (narrowPure numberOfDeposits target lo hi) as [lo' hi'];
    destruct Hstep as [Hbr' Hle'].
  - assert (maxSearches - searches = 1) as Hr by lia.
    destruct (Z.ltb_spec (searches + 1) maxSearches); [lia |]. simpl.
    rewrite Hr in Hpow. change (2 ^ (1 + 1)) with 4 in Hpow.
    assert (lo' = hi') by lia. subst hi'. eauto.
  - destruct (Z.ltb_spec (searches + 1) maxSearches) as [Hmore | Hlast]; simpl.
    + destruct (Z.ltb_spec lo' hi') as [Hlt' | Hge'].
      * apply IH; try assumption; try lia.
        replace (maxSearches - searches + 1)
          with (Z.succ (maxSearches - (searches + 1) + 1)) in Hpow by lia.
        rewrite Z.pow_succ_r in Hpow by lia. lia.
      * assert (lo' = hi') by lia. subst hi'. eauto.
    + assert (maxSearches - searches = 1) as Hr by lia.
      rewrite Hr in Hpow. change (2 ^ (1 + 1)) with 4 in Hpow.
      assert (lo' = hi') by lia. subst hi'. eauto.
Qed.

(** X1. With a counter that never decreases, a target that is not
    negative and that the counter has not passed at [initLow] but has
    passed at [initHigh], and enough searches for the width of the bracket
    ([initHigh - initLow + 2 <= 2^(maxSearches + 1)]),
    [getBlockRangeForDepositId] returns the collapsed bracket [{m, m}] of
    the one block in which the counter passes the target: the counter is
    at most the target at every block before [m] and above it from [m]
    on. *)
Theorem resolver_finds_block
    (targetDepositId initLow initHigh maxSearches : Z) :
  monotone numberOfDeposits ->
  0 <= targetDepositId ->
  numberOfDeposits initLow <= targetDepositId < numberOfDeposits initHigh ->
  0 <= initLow -> initLow < initHigh -> 0 < maxSearches ->
  initHigh - initLow + 2 <= 2 ^ (maxSearches + 1) ->
  exists m,
    fst (getBlockRangeForDepositId numberOfDeposits
           targetDepositId initLow initHigh maxSearches)
      = inr (Some {| low := m; high := m |})
    /\ initLow < m <= initHigh
    /\ numberOfDeposits (m - 1) <= targetDepositId < numberOfDeposits m
    /\ (forall b, b < m -> numberOfDeposits b <= targetDepositId)
    /\ (forall b, m <= b -> targetDepositId < numberOfDeposits b).
Proof.
  intros Hmono HT [Hlow Hhigh] Hlo Hlt Hmax Hwidth.
  rewrite getBlockRangeForDepositId_pure by lia.
  destruct (bisectPure_collapses targetDepositId maxSearches initLow initHigh
              (Z.to_nat maxSearches) HT Hlo 0 initLow initHigh)
    as (m & Heq & (Hl & Hh & Hbelow & Hreach & Hpast)).
  - lia.
  - lia.
  - apply initial_bracketed; [exact Hmono | lia].
  - exact Hlt.
  - rewrite Z.sub_0_r. exact Hwidth.
  - exists m. rewrite Heq. split; [reflexivity |].
    assert (Habove : targetDepositId < numberOfDeposits m).
    { destruct (Z.eq_dec m initHigh) as [-> | Hne]; [exact Hhigh | apply Hpast; lia]. }
    assert (Hm : initLow < m).
    { destruct (Z.eq_dec m initLow) as [-> | Hne]; lia. }
    assert (Hprev : numberOfDeposits (m - 1) <= targetDepositId) by (apply Hbelow; lia).
    repeat split; try lia.
    + intros b Hb. specialize (Hmono b (m - 1) ltac:(lia)). lia.
    + intros b Hb. specialize (Hmono m b Hb). lia.
Qed.

End ResolverExact.

Lemma resolver_finds_block_witness :
  exists m,
    fst (Resolver.getBlockRangeForDepositId (fun b => b) 5 0 10 4)
      = inr (Some {| Resolver.low := m; Resolver.high := m |})
    /\ 0 < m <= 10
    /\ m - 1 <= 5 < m
    /\ (forall b, b < m -> b <= 5)
    /\ (forall b, m <= b -> 5 < b).
Proof.
  apply (resolver_finds_block (fun b => b) 5 0 10 4).
  - intros a b Hab. exact Hab.
  - lia.
  - lia.
  - lia.
  - lia.
  - lia.
  - vm_compute. discriminate.
Defined.

Section ResolverBounds.

Import Resolver ResolverCost.

Variable numberOfDeposits : Z -> Z.

Lemma within_weaken (p c p' c' : nat) (s s' : Env) :
  (p <= p')%nat -> (c <= c')%nat -> within p c s s' -> within p' c' s s'.
Proof. unfold within. lia. Qed.

Lemma costs_weaken {A} (p c p' c' : nat) (m : M A) :
  (p <= p')%nat -> (c <= c')%nat -> costs p c m -> costs p' c' m.
Proof. intros Hp Hc Hm s. eapply within_weaken; [exact Hp | exact Hc | apply Hm]. Qed.

Lemma costs_ret {A} (a : A) : costs 0 0 (ret a).
Proof. intros s. unfold within. simpl. lia. Qed.

Lemma costs_throw {A} (e : Error) : costs 0 0 (@throw A e).
Proof. intros s. unfold within. simpl. lia. Qed.

Lemma costs_bind {A B} (p1 c1 p2 c2 : nat) (m : M A) (k : A -> M B) :
  costs p1 c1 m -> (forall a, costs p2 c2 (k a)) ->
  costs (p1 + p2) (c1 + c2) (bind m k).
Proof.
  intros Hm Hk s. unfold bind.
  specialize (Hm s). destruct (m s) as [[e | a] s']; simpl in *.
  - eapply within_weaken; [| | exact Hm]; lia.
  - specialize (Hk a s'). unfold within in *. lia.
Qed.

Lemma costs_record_search (mid : Z) : costs 1 0 (record (Search mid)).
Proof. intros s. unfold within, searchCount, ethCalls. simpl. lia. Qed.

Lemma costs_getDepositIdAtBlock (b : Z) :
  costs 0 1 (getDepositIdAtBlock numberOfDeposits b).
Proof.
  intros s. unfold within, getDepositIdAtBlock, searchCount, ethCalls.
  destruct (queriedIds s !! b); simpl; lia.
Qed.

Lemma costs_narrow (target lo hi : Z) :
  costs 1 2 (narrow numberOfDeposits target lo hi).
Proof.
  unfold narrow.
  apply (costs_bind 1 0 0 2); [apply costs_record_search | intros _].
  apply (costs_bind 0 1 0 1); [apply costs_getDepositIdAtBlock | intros midId].
  apply (costs_bind 0 1 0 0).
  - destruct (_ =? 0);
      [eapply costs_weaken; [| | apply costs_ret]; lia
      | apply costs_getDepositIdAtBlock].
  - intros prevId.
    destruct (target <? prevId); [apply costs_ret |].
    destruct (midId - 1 <? target); apply costs_ret.
Qed.

(** The loop makes at most as many passes as searches are left, and one
    when none is left. *)
Lemma costs_bisect (target maxSearches : Z) (fuel : nat) :
  forall searches lo hi,
    let passes := Z.to_nat (Z.max 1 (maxSearches - searches)) in
    costs passes (2 * passes)
      (bisect numberOfDeposits target maxSearches fuel searches lo hi).
Proof.
  induction fuel as [| fuel IH]; intros searches lo hi passes; simpl.
  - eapply costs_weaken with (p := (1 + 0)%nat) (c := (2 + 0)%nat);
      [unfold passes; lia | unfold passes; lia |].
    apply costs_bind; [apply costs_narrow | intros [lo' hi']].
    destruct (_ && _); apply costs_ret.
  - destruct (Z.ltb_spec (searches + 1) maxSearches) as [Hmore | Hlast].
    + set (rest := Z.to_nat (Z.max 1 (maxSearches - (searches + 1)))).
      eapply costs_weaken with (p := (1 + rest)%nat) (c := (2 + 2 * rest)%nat);
        [unfold passes, rest; lia | unfold passes, rest; lia |].
      apply costs_bind; [apply costs_narrow | intros [lo' hi']].
      destruct (Z.ltb_spec (searches + 1) maxSearches); [| lia]. simpl.
      destruct (lo' <? hi').
      * apply IH.
      * eapply costs_weaken; [| | apply costs_ret]; lia.
    + eapply costs_weaken with (p := (1 + 0)%nat) (c := (2 + 0)%nat);
        [unfold passes; lia | unfold passes; lia |].
      apply costs_bind; [apply costs_narrow | intros [lo' hi']].
      destruct (Z.ltb_spec (searches + 1) maxSearches); [lia |]. simpl.
      apply costs_ret.
Qed.

Lemma keepsPasses_ret {A} (a : A) : keepsPasses (ret a).
Proof. intros s. simpl. lia. Qed.

Lemma keepsPasses_bind {A B} (m : M A) (k : A -> M B) :
  keepsPasses m -> (forall a, keepsPasses (k a)) -> keepsPasses (bind m k).
Proof.
  intros Hm Hk s. unfold bind. specialize (Hm s).
  destruct (m s) as [[e | a] s']; simpl in *; [exact Hm |].
  specialize (Hk a s'). lia.
Qed.

Lemma keepsPasses_getDepositIdAtBlock (b : Z) :
  keepsPasses (getDepositIdAtBlock numberOfDeposits b).
Proof.
  intros s. unfold getDepositIdAtBlock, searchCount.
  destruct (queriedIds s !! b); simpl; lia.
Qed.

Lemma addsPass_bind {A B} (m : M A) (k : A -> M B) :
  addsPass m -> (forall a, keepsPasses (k a)) -> addsPass (bind m k).
Proof.
  intros Hm Hk s. unfold bind. specialize (Hm s).
  destruct (m s) as [[e | a] s']; simpl in *; [exact Hm |].
  specialize (Hk a s'). lia.
Qed.

Lemma addsPass_keeps {A} (m : M A) : addsPass m -> keepsPasses m.
Proof. intros Hm s. specialize (Hm s). lia. Qed.

Lemma addsPass_narrow (target lo hi : Z) :
  addsPass (narrow numberOfDeposits target lo hi).
Proof.
  unfold narrow. apply addsPass_bind.
  - intros s. unfold searchCount. simpl. lia.
  - intros _.
    apply keepsPasses_bind; [apply keepsPasses_getDepositIdAtBlock | intros midId].
    apply keepsPasses_bind.
    + destruct (_ =? 0); [apply keepsPasses_ret | apply keepsPasses_getDepositIdAtBlock].
    + intros prevId. destruct (target <? prevId); [apply keepsPasses_ret |].
      destruct (midId - 1 <? target); apply keepsPasses_ret.
Qed.

Lemma addsPass_bisect (target maxSearches : Z) (fuel : nat) :
  forall searches lo hi,
    addsPass (bisect numberOfDeposits target maxSearches fuel searches lo hi).
Proof.
  induction fuel as [| fuel IH]; intros searches lo hi; simpl;
    (apply addsPass_bind; [apply addsPass_narrow | intros [lo' hi']]);
    destruct (_ && _); first [apply keepsPasses_ret | apply addsPass_keeps, IH].
Qed.

Lemma addsPassOnReturn_throw {A} (e : Error) : addsPassOnReturn (@throw A e).
Proof. intros s a Hr. discriminate Hr. Qed.

Lemma addsPassOnReturn_bind {A B} (m : M A) (k : A -> M B) :
  keepsPasses m -> (forall a, addsPassOnReturn (k a)) ->
  addsPassOnReturn (bind m k).
Proof.
  intros Hm Hk s b. unfold bind. specialize (Hm s).
  destruct (m s) as [[e | a] s']; simpl in *; [discriminate |].
  intros Hr. specialize (Hk a s' b Hr). lia.
Qed.

Lemma addsPassOnReturn_resolve (target lo hi maxSearches : Z) :
  addsPassOnReturn (resolve numberOfDeposits target lo hi maxSearches).
Proof.
  unfold resolve.
  destruct (lo <? 0); [apply addsPassOnReturn_throw |].
  destruct (hi <? lo); [apply addsPassOnReturn_throw |].
  destruct (maxSearches <=? 0); [apply addsPassOnReturn_throw |].
  apply addsPassOnReturn_bind; [apply keepsPasses_getDepositIdAtBlock | intros highId].
  destruct (highId <? target); [apply addsPassOnReturn_throw |].
  apply addsPassOnReturn_bind; [apply keepsPasses_getDepositIdAtBlock | intros lowId].
  destruct (target <? lowId); [apply addsPassOnReturn_throw |].
  intros s a _. apply addsPass_bisect.
Qed.

(** X2. A call of [getBlockRangeForDepositId] passes through the body of
    the search loop at most [maxSearches] times and sends at most
    [2 * maxSearches + 2] requests to the spoke pool, whatever the counter
    answers and whether the call returns or throws; a call that returns a
    bracket has passed through the body at least once. *)
Theorem resolver_cost_bounds
    (targetDepositId initLow initHigh maxSearches : Z) :
  let r := getBlockRangeForDepositId numberOfDeposits
             targetDepositId initLow initHigh maxSearches in
  (searchCount (trace (snd r)) <= Z.to_nat maxSearches)%nat
  /\ (length (ethCalls (trace (snd r))) <= 2 * Z.to_nat maxSearches + 2)%nat
  /\ (forall range, fst r = inr (Some range) ->
        (1 <= searchCount (trace (snd r)))%nat).
Proof.
  cbv zeta. unfold getBlockRangeForDepositId.
  assert (Hcost : costs (Z.to_nat maxSearches) (2 * Z.to_nat maxSearches + 2)
                    (resolve numberOfDeposits targetDepositId initLow initHigh
                       maxSearches)).
  { unfold resolve.
    destruct (initLow <? 0);
      [eapply costs_weaken; [| | apply costs_throw]; lia |].
    destruct (initHigh <? initLow);
      [eapply costs_weaken; [| | apply costs_throw]; lia |].
    destruct (Z.leb_spec maxSearches 0);
      [eapply costs_weaken; [| | apply costs_throw]; lia |].
    eapply costs_weaken
      with (p := (0 + (0 + Z.to_nat maxSearches))%nat)
           (c := (1 + (1 + 2 * Z.to_nat maxSearches))%nat); [lia | lia |].
    apply costs_bind; [apply costs_getDepositIdAtBlock | intros highId].
    destruct (highId <? targetDepositId);
      [eapply costs_weaken; [| | apply costs_throw]; lia |].
    apply costs_bind; [apply costs_getDepositIdAtBlock | intros lowId].
    destruct (targetDepositId <? lowId);
      [eapply costs_weaken; [| | apply costs_throw]; lia |].
    pose proof (costs_bisect targetDepositId maxSearches (Z.to_nat maxSearches)
                  0 initLow initHigh) as Hb.
    cbv zeta in Hb. rewrite Z.sub_0_r in Hb.
    replace (Z.to_nat (Z.max 1 maxSearches)) with (Z.to_nat maxSearches) in Hb by lia.
    exact Hb. }
  destruct (Hcost emptyEnv) as [Hp Hc]. simpl in Hp, Hc.
  split; [lia |]. split; [lia |].
  intros range Hr. exact (addsPassOnReturn_resolve _ _ _ _ emptyEnv _ Hr).
Qed.

End ResolverBounds.

Section ResolverRequests.

Import Resolver ResolverRange.

Variable numberOfDeposits : Z -> Z.

Lemma yields_ret {A} (P : Env -> Prop) (Q : A -> Prop) (a : A) :
  Q a -> yields P Q (ret a).
Proof. intros Ha s Hs. split; [exact Hs |]. intros a' [= <-]. exact Ha. Qed.

Lemma yields_throw {A} (P : Env -> Prop) (Q : A -> Prop) (e : Error) :
  yields P Q (@throw A e).
Proof. intros s Hs. split; [exact Hs |]. intros a Ha. discriminate Ha. Qed.

Lemma yields_bind {A B} (P : Env -> Prop) (Q : A -> Prop) (R : B -> Prop)
    (m : M A) (k : A -> M B) :
  yields P Q m -> (forall a, Q a -> yields P R (k a)) -> yields P R (bind m k).
Proof.
  intros Hm Hk s Hs. unfold bind.
  destruct (Hm s Hs) as [Hs' Hq]. destruct (m s) as [[e | a] s']; simpl in *.
  - split; [exact Hs' |]. intros b Hb. discriminate Hb.
  - apply (Hk a (Hq a eq_refl) s' Hs').
Qed.

Lemma yields_record (initLow initHigh mid : Z) :
  yields (requestsWithin initLow initHigh) (fun _ => True) (record (Search mid)).
Proof. intros s Hs. split; [exact Hs | trivial]. Qed.

Lemma yields_getDepositIdAtBlock (initLow initHigh b : Z) :
  0 <= b -> initLow - 1 <= b <= initHigh ->
  yields (requestsWithin initLow initHigh) (fun _ => True)
    (getDepositIdAtBlock numberOfDeposits b).
Proof.
  intros Hb Hrange s Hs. unfold getDepositIdAtBlock.
  destruct (queriedIds s !! b); simpl; (split; [| trivial]); [exact Hs |].
  intros b' Hb'. unfold requestsWithin, ethCalls in *. simpl in Hb'.
  apply elem_of_cons in Hb' as [-> | Hb']; [lia | apply Hs; exact Hb'].
Qed.

Lemma yields_narrow (target initLow initHigh lo hi : Z) :
  0 <= initLow -> initLow <= lo -> lo <= hi -> hi <= initHigh ->
  yields (requestsWithin initLow initHigh)
    (fun lh => lo <= fst lh /\ snd lh <= hi)
    (narrow numberOfDeposits target lo hi).
Proof.
  intros Hinit Hlo Hle Hhi. unfold narrow.
  assert (Hmid : lo <= (lo + hi) / 2 <= hi).
  { split; [apply Z.div_le_lower_bound | apply Z.div_le_upper_bound]; lia. }
  set (mid := (lo + hi) / 2) in *.
  eapply yields_bind; [apply yields_record | intros _ _].
  eapply yields_bind; [apply yields_getDepositIdAtBlock; lia | intros midId _].
  eapply yields_bind with (Q := fun _ => True).
  - destruct (Z.eqb_spec mid 0); [apply yields_ret; trivial |].
    apply yields_getDepositIdAtBlock; lia.
  - intros prevId _.
    destruct (target <? prevId); [apply yields_ret; simpl; lia |].
    destruct (midId - 1 <? target); apply yields_ret; simpl; lia.
Qed.

Lemma yields_bisect (target maxSearches initLow initHigh : Z) (fuel : nat) :
  0 <= initLow ->
  forall searches lo hi,
    initLow <= lo -> lo <= hi -> hi <= initHigh ->
    yields (requestsWithin initLow initHigh)
      (fun r => forall l h, r = Some {| low := l; high := h |} ->
                            initLow <= l /\ h <= initHigh)
      (bisect numberOfDeposits target maxSearches fuel searches lo hi).
Proof.
  intros Hinit.
  induction fuel as [| fuel IH]; intros searches lo hi Hlo Hle Hhi; simpl;
    (eapply yields_bind; [apply yields_narrow; eassumption |]);
    intros [lo' hi'] [Hlo' Hhi']; simpl in Hlo', Hhi';
    destruct (searches + 1 <? maxSearches); simpl;
    try destruct (Z.ltb_spec lo' hi');
    try (apply yields_ret; intros l h [= <- <-]; lia);
    try (apply yields_ret; intros l h Hr; discriminate Hr).
  apply IH; lia.
Qed.

(** X15. Whatever the counter and the arguments, a call of
    [getBlockRangeForDepositId] requests the counter only at blocks that
    are not negative and lie between [initLow - 1] and [initHigh], and a
    bracket it returns has its [low] at or after [initLow] and its [high]
    at or before [initHigh]. *)
Theorem resolver_requests_in_range
    (targetDepositId initLow initHigh maxSearches : Z) :
  let call := getBlockRangeForDepositId numberOfDeposits
                targetDepositId initLow initHigh maxSearches in
  (forall b, b ∈ ethCalls (trace (snd call)) ->
     0 <= b /\ initLow - 1 <= b <= initHigh)
  /\ (forall l h, fst call = inr (Some {| low := l; high := h |}) ->
        initLow <= l /\ h <= initHigh).
Proof.
  cbv zeta. unfold getBlockRangeForDepositId.
  enough (Hy : yields (requestsWithin initLow initHigh)
                 (fun r => forall l h, r = Some {| low := l; high := h |} ->
                                       initLow <= l /\ h <= initHigh)
                 (resolve numberOfDeposits targetDepositId initLow initHigh
                    maxSearches)).
  { destruct (Hy emptyEnv) as [Hreq Hres].
    - intros b Hb. inversion Hb.
    - split; [exact Hreq |]. intros l h Hr. exact (Hres _ Hr l h eq_refl). }
  unfold resolve.
  destruct (Z.ltb_spec initLow 0); [apply yields_throw |].
  destruct (Z.ltb_spec initHigh initLow); [apply yields_throw |].
  destruct (maxSearches <=? 0); [apply yields_throw |].
  eapply yields_bind; [apply yields_getDepositIdAtBlock; lia | intros highId _].
  destruct (highId <? targetDepositId); [apply yields_throw |].
  eapply yields_bind; [apply yields_getDepositIdAtBlock; lia | intros lowId _].
  destruct (targetDepositId <? lowId); [apply yields_throw |].
  apply yields_bisect; lia.
Qed.

End ResolverRequests.

(** * More on the root-bundle queries *)

Section BundleQueries.

Import JsArray HubPool HubPoolQueries.

Variable proposedRootBundles : list ProposedRootBundle.
Variable executedRootBundles : list ExecutedRootBundle.

Lemma find_head_filter {A} (p : A -> bool) (l : list A) :
  List.find p l = head (List.filter p l).
Proof.
  induction l as [| x l IH]; [reflexivity |].
  simpl. destruct (p x); [reflexivity | exact IH].
Qed.

Lemma filter_snoc {A} (p : A -> bool) (l : list A) (x : A) :
  List.filter p (l ++ [x])
  = if p x then List.filter p l ++ [x] else List.filter p l.
Proof.
  rewrite List.filter_app. simpl.
  destruct (p x); [reflexivity | apply app_nil_r].
Qed.

Lemma findLast_last_filter {A} (p : A -> bool) (l : list A) :
  findLast l p = last (List.filter p l).
Proof.
  unfold findLast.
  induction l as [| x l IH] using rev_ind; [reflexivity |].
  rewrite rev_app_distr, filter_snoc. simpl.
  destruct (p x).
  - rewrite last_snoc. reflexivity.
  - exact IH.
Qed.

Lemma elem_of_List_filter {A} (p : A -> bool) (l : list A) (x : A) :
  x ∈ List.filter p l <-> x ∈ l /\ p x = true.
Proof. rewrite !list_elem_of_In. apply filter_In. Qed.

Lemma List_filter_sublist {A} (p : A -> bool) (l : list A) :
  sublist (List.filter p l) l.
Proof.
  induction l as [| x l IH]; [constructor |].
  simpl. destruct (p x); [apply sublist_skip | apply sublist_cons]; exact IH.
Qed.

Lemma List_filter_filter {A} (p q : A -> bool) (l : list A) :
  List.filter p (List.filter q l) = List.filter (fun x => q x && p x) l.
Proof.
  induction l as [| x l IH]; [reflexivity |].
  simpl. destruct (q x); simpl; [destruct (p x) |]; rewrite ?IH; reflexivity.
Qed.

Lemma List_filter_none {A} (p : A -> bool) (l : list A) :
  (forall x, x ∈ l -> p x = false) -> List.filter p l = [].
Proof.
  induction l as [| x l IH]; intros Hall; [reflexivity |].
  simpl. rewrite (Hall x) by left. apply IH. intros y Hy. apply Hall. right. exact Hy.
Qed.

(** X3. [getValidatedRootBundles(latestMainnetBlock)] keeps, in ledger
    order, exactly the proposals at blocks up to [latestMainnetBlock] that
    are valid as of that block; [getLatestFullyExecutedRootBundle] returns
    the last of them, and [getEarliestFullyExecutedRootBundle] the first
    of them at or after [startBlock]; both return undefined exactly when
    there is none. *)
Theorem validated_bundles_first_and_last (latestMainnetBlock startBlock : Z) :
  let validated :=
    getValidatedRootBundles proposedRootBundles executedRootBundles
      latestMainnetBlock in
  sublist validated proposedRootBundles
  /\ (forall b,
        b ∈ validated
        <-> b ∈ proposedRootBundles
            /\ blockNumber b <= latestMainnetBlock
            /\ isRootBundleValid proposedRootBundles executedRootBundles
                 b latestMainnetBlock = true)
  /\ getLatestFullyExecutedRootBundle proposedRootBundles executedRootBundles
       latestMainnetBlock
     = last validated
  /\ getEarliestFullyExecutedRootBundle proposedRootBundles executedRootBundles
       latestMainnetBlock startBlock
     = head (List.filter (fun b => startBlock <=? blockNumber b) validated).
Proof.
  cbv zeta. unfold getValidatedRootBundles, getLatestFullyExecutedRootBundle,
    getEarliestFullyExecutedRootBundle.
  split; [apply List_filter_sublist |].
  split.
  { intros b. rewrite elem_of_List_filter.
    destruct (Z.ltb_spec latestMainnetBlock (blockNumber b)).
    - split; [intros [_ H0]; discriminate | intros (_ & Hle & _); lia].
    - split; [intros [Hin Hv]; repeat split; [assumption | lia | assumption]
             | intros (Hin & _ & Hv); split; assumption]. }
  split; [apply findLast_last_filter |].
  rewrite find_head_filter, List_filter_filter. f_equal.
  apply filter_ext. intros b.
  destruct (latestMainnetBlock <? blockNumber b); [reflexivity |].
  destruct (Z.ltb_spec (blockNumber b) startBlock);
    destruct (Z.leb_spec startBlock (blockNumber b)); try lia;
    rewrite ?andb_true_r, ?andb_false_r; reflexivity.
Qed.

(** A bundle valid as of a block that is not after its proposal has no
    leaves. *)
Lemma isRootBundleValid_at_own_block (b : ProposedRootBundle) (horizon : Z) :
  isRootBundleValid proposedRootBundles executedRootBundles b horizon = true ->
  horizon <= blockNumber b ->
  poolRebalanceLeafCount b = 0.
Proof.
  unfold isRootBundleValid, getExecutedLeavesForRootBundle.
  intros Hv Hle. apply Z.eqb_eq in Hv. rewrite <- Hv.
  match goal with
  | |- Z.of_nat (length (List.filter ?p ?l)) = 0 =>
      assert (Hnil : List.filter p l = [])
  end.
  { apply List_filter_none. intros leaf _.
    destruct (Z.ltb_spec (blockNumber b) (blockNumber leaf)) as [Hafter |];
      [| apply andb_false_r].
    rewrite andb_true_r. apply Z.leb_gt.
    destruct (getFollowingRootBundle proposedRootBundles b); lia. }
  rewrite Hnil. reflexivity.
Qed.

(** ** The forward walk *)

Lemma getEarliestFullyExecutedRootBundle_Some (latest startBlock : Z) b :
  getEarliestFullyExecutedRootBundle proposedRootBundles executedRootBundles
    latest startBlock = Some b ->
  b ∈ proposedRootBundles
  /\ startBlock <= blockNumber b <= latest
  /\ isRootBundleValid proposedRootBundles executedRootBundles b latest = true.
Proof.
  unfold getEarliestFullyExecutedRootBundle. intros Hf.
  apply find_some in Hf as [Hin Hp]. split; [apply list_elem_of_In; exact Hin |].
  destruct (Z.ltb_spec latest (blockNumber b)); [discriminate |].
  destruct (Z.ltb_spec (blockNumber b) startBlock); [discriminate |].
  split; [lia | exact Hp].
Qed.

Lemma stepForward_fst (latest : Z) (st : WalkState) :
  fst (stepForward proposedRootBundles executedRootBundles latest st)
  = getEarliestFullyExecutedRootBundle proposedRootBundles executedRootBundles
      latest (snd st).
Proof. reflexivity. Qed.

Lemma stepForward_snd (latest : Z) (st : WalkState) :
  snd (stepForward proposedRootBundles executedRootBundles latest st)
  = Z.min
      (match getEarliestFullyExecutedRootBundle proposedRootBundles
               executedRootBundles latest (snd st) with
       | Some b => blockNumber b
       | None => 0
       end + 1) latest.
Proof. reflexivity. Qed.

Lemma getNth_positive (latest n : Z) (startBlock : option Z) :
  latest <> 0 -> 0 < n ->
  getNthFullyExecutedRootBundle proposedRootBundles executedRootBundles
    (Some latest) n startBlock
  = inr (fst (walkForward proposedRootBundles executedRootBundles latest
                (default 0 startBlock) (Z.to_nat n))).
Proof.
  intros Hl Hn. unfold getNthFullyExecutedRootBundle.
  destruct (Z.eqb_spec n 0); [lia |].
  destruct (Z.eqb_spec latest 0); [lia |].
  destruct (Z.ltb_spec n 0); [lia |]. reflexivity.
Qed.

(** X4. For [n > 0], on an updated client, [getNthFullyExecutedRootBundle]
    returns what the last of [n] forward steps finds.  Every step looks
    for the earliest bundle at or after its start block that is valid as
    of [latestBlockNumber]; the first start block is [startBlock], or 0.
    After a bundle with leaves is found the next start block is its block
    number plus 1, so the next bundle found is at a greater block.  After a
    step that finds nothing the next step starts again from block 1: the
    walk does not stay at undefined once the bundles are exhausted. *)
Theorem nth_fully_executed_forward
    (latest n : Z) (startBlock : option Z) :
  latest <> 0 -> 0 < n ->
  let walk := walkForward proposedRootBundles executedRootBundles latest
                (default 0 startBlock) in
  getNthFullyExecutedRootBundle proposedRootBundles executedRootBundles
    (Some latest) n startBlock
  = inr (fst (walk (Z.to_nat n)))
  /\ walk 0%nat = (None, default 0 startBlock)
  /\ (forall k,
        fst (walk (S k))
        = getEarliestFullyExecutedRootBundle proposedRootBundles
            executedRootBundles latest (snd (walk k)))
  /\ (forall k b,
        fst (walk (S k)) = Some b ->
        b ∈ proposedRootBundles
        /\ snd (walk k) <= blockNumber b <= latest
        /\ isRootBundleValid proposedRootBundles executedRootBundles b latest = true
        /\ snd (walk (S k)) = Z.min (blockNumber b + 1) latest
        /\ (poolRebalanceLeafCount b <> 0 ->
            snd (walk (S k)) = blockNumber b + 1
            /\ forall b', fst (walk (S (S k))) = Some b' ->
                  blockNumber b < blockNumber b'))
  /\ (forall k,
        fst (walk (S k)) = None ->
        snd (walk (S k)) = Z.min 1 latest
        /\ (0 < latest ->
            fst (walk (S (S k)))
            = getEarliestFullyExecutedRootBundle proposedRootBundles
                executedRootBundles latest 1)).
Proof.
  intros Hl Hn. cbv zeta.
  set (start := default 0 startBlock).
  assert (Hstep : forall k,
    walkForward proposedRootBundles executedRootBundles latest start (S k)
    = stepForward proposedRootBundles executedRootBundles latest
        (walkForward proposedRootBundles executedRootBundles latest start k)).
  { intros k. unfold walkForward. apply repeatLoop_S. }
  split; [apply getNth_positive; assumption |].
  split; [reflexivity |].
  split; [intros k; rewrite Hstep; apply stepForward_fst |].
  split.
  - intros k b Hb. rewrite Hstep, stepForward_fst in Hb.
    pose proof (getEarliestFullyExecutedRootBundle_Some _ _ _ Hb) as (Hin & Hrange & Hv).
    assert (Hsnd : snd (walkForward proposedRootBundles executedRootBundles
                          latest start (S k))
                   = Z.min (blockNumber b + 1) latest).
    { rewrite Hstep, stepForward_snd, Hb. reflexivity. }
    split; [exact Hin |]. split; [lia |]. split; [exact Hv |].
    split; [exact Hsnd |].
    intros Hleaves.
    assert (blockNumber b < latest).
    { destruct (Z_lt_le_dec (blockNumber b) latest) as [| Hge]; [assumption |].
      exfalso. apply Hleaves.
      exact (isRootBundleValid_at_own_block b latest Hv Hge). }
    split; [lia |].
    intros b' Hb'.
    rewrite Hstep, stepForward_fst, Hsnd in Hb'.
    apply getEarliestFullyExecutedRootBundle_Some in Hb' as (_ & Hr' & _). lia.
  - intros k Hnone. rewrite Hstep, stepForward_fst in Hnone.
    assert (Hsnd : snd (walkForward proposedRootBundles executedRootBundles
                          latest start (S k)) = Z.min 1 latest).
    { rewrite Hstep, stepForward_snd, Hnone. reflexivity. }
    split; [exact Hsnd |].
    intros Hpos. rewrite (Hstep (S k)), stepForward_fst, Hsnd.
    f_equal. lia.
Qed.

(** ** The following bundle *)

Lemma getFollowingRootBundle_absent (rootBundle : ProposedRootBundle) :
  (forall b, b ∈ proposedRootBundles -> blockNumber b <> blockNumber rootBundle) ->
  getFollowingRootBundle proposedRootBundles rootBundle = None.
Proof.
  intros Habs. unfold getFollowingRootBundle, findLastIndex.
  rewrite findLastIndexFrom_none; [reflexivity |].
  intros b Hb. apply Z.eqb_neq. apply Habs. exact Hb.
Qed.

Lemma getLatestProposedRootBundle_last :
  getLatestProposedRootBundle proposedRootBundles = last proposedRootBundles.
Proof.
  unfold getLatestProposedRootBundle.
  destruct proposedRootBundles as [| b l] using rev_ind; [reflexivity |].
  rewrite length_app, last_snoc. simpl length.
  replace (Z.of_nat (length l + 1) - 1) with (Z.of_nat (length l)) by lia.
  rewrite at_index_of_nat. rewrite lookup_app_r by lia.
  rewrite Nat.sub_diag. reflexivity.
Qed.

(** X5. [getFollowingRootBundle] returns undefined for a bundle whose
    block number no proposal of the ledger has, and for the latest
    proposal.  In a ledger whose proposals are at strictly increasing
    block numbers, the bundle following the proposal at a position is the
    proposal at the next position, at a greater block number. *)
Theorem following_bundle_in_ledger :
  (forall rootBundle,
     (forall b, b ∈ proposedRootBundles -> blockNumber b <> blockNumber rootBundle) ->
     getFollowingRootBundle proposedRootBundles rootBundle = None)
  /\ (forall latestProposed,
        getLatestProposedRootBundle proposedRootBundles = Some latestProposed ->
        getFollowingRootBundle proposedRootBundles latestProposed = None)
  /\ (StronglySorted (fun x y : ProposedRootBundle => blockNumber x < blockNumber y)
        proposedRootBundles ->
      forall (i : nat) b next,
        proposedRootBundles !! i = Some b ->
        proposedRootBundles !! S i = Some next ->
        getFollowingRootBundle proposedRootBundles b = Some next
        /\ blockNumber b < blockNumber next).
Proof.
  split; [apply getFollowingRootBundle_absent |]. split.
  - intros latestProposed Hlast. rewrite getLatestProposedRootBundle_last in Hlast.
    destruct (getFollowingRootBundle proposedRootBundles latestProposed)
      as [next |] eqn:Hf; [| reflexivity].
    exfalso. apply getFollowingRootBundle_Some in Hf
      as (pre & b & post & Heq & Hb & Hpost).
    rewrite Heq in Hlast.
    change (pre ++ b :: next :: post) with (pre ++ [b] ++ (next :: post)) in Hlast.
    rewrite !app_assoc in Hlast.
    rewrite last_app_cons in Hlast.
    assert (Hin : latestProposed ∈ next :: post).
    { destruct post as [| p post] using rev_ind.
      - simpl in Hlast. injection Hlast as <-. left.
      - rewrite app_comm_cons, last_snoc in Hlast. injection Hlast as <-.
        rewrite app_comm_cons. apply elem_of_app. right. left. }
    exact (Hpost latestProposed Hin eq_refl).
  - intros Hsorted i b next Hi Hnext.
    apply take_drop_middle in Hi as Hsplit.
    assert (Hdrop : drop (S i) proposedRootBundles
                    = next :: drop (S (S i)) proposedRootBundles).
    { apply drop_S. exact Hnext. }
    rewrite Hdrop in Hsplit.
    rewrite <- Hsplit in Hsorted.
    apply StronglySorted_app_1_r in Hsorted.
    apply StronglySorted_cons in Hsorted as [Hall _].
    rewrite Forall_forall in Hall.
    split.
    + apply getFollowingRootBundle_Some.
      exists (take i proposedRootBundles), b, (drop (S (S i)) proposedRootBundles).
      split; [symmetry; exact Hsplit |]. split; [reflexivity |].
      intros x Hx. specialize (Hall x Hx). lia.
    + apply Hall. left.
Qed.

(** X6. Leaves executed after the horizon, or not after the proposal of
    the bundle, do not change whether the bundle is valid as of the
    horizon: the answer for a past block stays the same while the ledger
    grows by later leaves. *)
Theorem validity_ignores_other_leaves
    (rootBundle : ProposedRootBundle) (horizon : Z)
    (more : list ExecutedRootBundle) :
  (forall leaf, leaf ∈ more ->
     horizon < blockNumber leaf \/ blockNumber leaf <= blockNumber rootBundle) ->
  isRootBundleValid proposedRootBundles (executedRootBundles ++ more)
    rootBundle horizon
  = isRootBundleValid proposedRootBundles executedRootBundles rootBundle horizon.
Proof.
  intros Hmore. unfold isRootBundleValid, getExecutedLeavesForRootBundle.
  rewrite List.filter_app.
  match goal with
  | |- context [List.filter ?p more] => rewrite (List_filter_none p more)
  end; [rewrite app_nil_r; reflexivity |].
  intros leaf Hleaf. specialize (Hmore leaf Hleaf).
  destruct (Z.ltb_spec (blockNumber rootBundle) (blockNumber leaf)) as [Hafter |];
    [| apply andb_false_r].
  rewrite andb_true_r. apply Z.leb_gt.
  destruct (getFollowingRootBundle proposedRootBundles rootBundle); lia.
Qed.

End BundleQueries.

Lemma nth_fully_executed_forward_witness :
  HubPool.getNthFullyExecutedRootBundle HubPool.threeBundles HubPool.threeLeaves
    (Some 40) 5 None
  = inr (fst (HubPoolQueries.walkForward HubPool.threeBundles HubPool.threeLeaves
                40 0 5))
  /\ fst (HubPoolQueries.walkForward HubPool.threeBundles HubPool.threeLeaves 40 0 3)
     = Some (HubPool.bundleAt 30 1 [120; 220])
  /\ fst (HubPoolQueries.walkForward HubPool.threeBundles HubPool.threeLeaves 40 0 4)
     = None
  /\ fst (HubPoolQueries.walkForward HubPool.threeBundles HubPool.threeLeaves 40 0 5)
     = Some (HubPool.bundleAt 10 1 [100; 200]).
Proof.
  split; [| repeat split].
  refine (proj1 (nth_fully_executed_forward HubPool.threeBundles HubPool.threeLeaves
                   40 5 None _ _)); lia.
Defined.

Lemma following_bundle_in_ledger_witness :
  HubPool.getFollowingRootBundle HubPool.threeBundles (HubPool.bundleAt 10 1 [100; 200])
  = Some (HubPool.bundleAt 20 1 [110; 210])
  /\ HubPool.blockNumber (HubPool.bundleAt 10 1 [100; 200])
     < HubPool.blockNumber (HubPool.bundleAt 20 1 [110; 210]).
Proof.
  refine (proj2 (proj2 (following_bundle_in_ledger HubPool.threeBundles)) _
            0%nat _ _ eq_refl eq_refl).
  unfold HubPool.threeBundles.
  repeat (constructor; try (simpl; lia)).
Defined.

Lemma validity_ignores_other_leaves_witness :
  HubPool.isRootBundleValid HubPool.threeBundles
    (HubPool.threeLeaves ++ [HubPool.leafAt 50 1 ["0xaa"%string] [3]])
    (HubPool.bundleAt 10 1 [100; 200]) 19
  = HubPool.isRootBundleValid HubPool.threeBundles HubPool.threeLeaves
      (HubPool.bundleAt 10 1 [100; 200]) 19.
Proof.
  apply validity_ignores_other_leaves.
  intros leaf Hleaf. rewrite elem_of_cons, elem_of_nil in Hleaf.
  destruct Hleaf as [-> | []]. left. simpl. lia.
Defined.

Section EvaluationBlocks.

Import JsArray HubPool HubPoolQueries.

Variable proposedRootBundles : list ProposedRootBundle.
Variable executedRootBundles : list ExecutedRootBundle.

(** The horizon at which [getRootBundleEvalBlockNumberContainingBlock]
    checks a bundle. *)
Local Notation "'closing' latest b" :=
  (match getFollowingRootBundle proposedRootBundles b with
   | Some next => blockNumber next
   | None => latest
   end) (at level 10, latest at level 9, b at level 9, only parsing).

Lemma evalBlockLoop_bound (latest block chain : Z) (chainIdList : list Z)
    (bundles : list ProposedRootBundle) :
  forall endingBlockNumber r,
    (forall b, b ∈ bundles -> b ∈ proposedRootBundles) ->
    (forall e, endingBlockNumber = Some e ->
       block < e
       /\ exists b, b ∈ proposedRootBundles
            /\ isRootBundleValid proposedRootBundles executedRootBundles
                 b (closing latest b) = true
            /\ getBundleEndBlockForChain b chain chainIdList = inr e) ->
    evalBlockLoop proposedRootBundles executedRootBundles latest block chain
      chainIdList bundles endingBlockNumber = inr (Some r) ->
    block <= r
    /\ exists b, b ∈ proposedRootBundles
         /\ isRootBundleValid proposedRootBundles executedRootBundles
              b (closing latest b) = true
         /\ getBundleEndBlockForChain b chain chainIdList = inr r.
Proof.
  induction bundles as [| rootBundle older IH]; intros ending r Hsub Hacc; simpl.
  - intros [= ->]. destruct (Hacc r eq_refl) as [Hlt Hex]. split; [lia | exact Hex].
  - destruct (isRootBundleValid proposedRootBundles executedRootBundles rootBundle _)
      eqn:Hvalid; simpl.
    + destruct (getBundleEndBlockForChain rootBundle chain chainIdList)
        as [err | ev] eqn:Hend; [discriminate |].
      assert (Hhere : exists b, b ∈ proposedRootBundles
                /\ isRootBundleValid proposedRootBundles executedRootBundles
                     b (closing latest b) = true
                /\ getBundleEndBlockForChain b chain chainIdList = inr ev).
      { exists rootBundle. split; [apply Hsub; left |]. split; assumption. }
      destruct (Z.leb_spec ev block) as [Hle | Hgt].
      * destruct (Z.eqb_spec ev block) as [Heq | Hne].
        -- intros [= <-]. split; [lia | exact Hhere].
        -- intros Hr. injection Hr as ->.
           destruct (Hacc r eq_refl) as [Hlt Hex]. split; [lia | exact Hex].
      * apply IH.
        -- intros b Hb. apply Hsub. right. exact Hb.
        -- intros e [= <-]. split; [lia | exact Hhere].
    + apply IH; [| exact Hacc].
      intros b Hb. apply Hsub. right. exact Hb.
Qed.

(** X7. A block number returned by
    [getRootBundleEvalBlockNumberContainingBlock] is never smaller than
    the block asked for, and it is the end block for the chain of a
    proposal of the ledger that is valid as of the block of the proposal
    following it (as of [latestMainnetBlock] for the newest proposal).
    With no proposal in the ledger the result is undefined. *)
Theorem eval_block_not_below_block
    (latestMainnetBlock block chain : Z) (chainIdList : list Z) (r : Z) :
  getRootBundleEvalBlockNumberContainingBlock proposedRootBundles
    executedRootBundles latestMainnetBlock block chain chainIdList
  = inr (Some r) ->
  block <= r
  /\ exists b,
       b ∈ proposedRootBundles
       /\ isRootBundleValid proposedRootBundles executedRootBundles b
            (closing latestMainnetBlock b) = true
       /\ getBundleEndBlockForChain b chain chainIdList = inr r.
Proof.
  unfold getRootBundleEvalBlockNumberContainingBlock.
  apply evalBlockLoop_bound.
  - intros b Hb. apply list_elem_of_In, in_rev, list_elem_of_In in Hb. exact Hb.
  - intros e He. discriminate He.
Qed.

Lemma getLatestFullyExecutedRootBundle_None (latestMainnetBlock : Z) :
  getLatestFullyExecutedRootBundle proposedRootBundles executedRootBundles
    latestMainnetBlock = None
  <-> forall b, b ∈ proposedRootBundles ->
        blockNumber b <= latestMainnetBlock ->
        isRootBundleValid proposedRootBundles executedRootBundles
          b latestMainnetBlock = false.
Proof.
  unfold getLatestFullyExecutedRootBundle, findLast. split.
  - intros Hnone b Hb Hle.
    pose proof (find_none _ _ Hnone b) as Hp. cbv beta in Hp.
    assert (Hf : (latestMainnetBlock <? blockNumber b) = false)
      by (apply Z.ltb_ge; lia).
    rewrite Hf in Hp.
    apply Hp. apply in_rev. rewrite rev_involutive. apply list_elem_of_In. exact Hb.
  - intros Hall.
    destruct (List.find _ (rev proposedRootBundles)) as [b |] eqn:Hf; [| reflexivity].
    apply find_some in Hf as [Hin Hp]. cbv beta in Hp.
    destruct (Z.ltb_spec latestMainnetBlock (blockNumber b)) as [Hlt | Hge];
      [discriminate |].
    rewrite Hall in Hp; [discriminate | | lia].
    apply list_elem_of_In, in_rev. exact Hin.
Qed.

(** X8. [getNextBundleStartBlockNumber] is 0 when no proposal is fully
    executed as of [latestMainnetBlock], and when the end block of the
    latest fully executed bundle for the chain is 0 (the chain is not in
    [chainIdList], or the bundle has no entry for it); otherwise it is
    that end block plus 1.  It fails only when
    [getLatestBundleEndBlockForChain] does, and it never returns 1 or a
    negative number. *)
Theorem next_bundle_start_block
    (chainIdList : list Z) (latestMainnetBlock chain : Z) :
  let latestEnd :=
    getLatestBundleEndBlockForChain proposedRootBundles executedRootBundles
      chainIdList latestMainnetBlock chain in
  let nextStart :=
    getNextBundleStartBlockNumber proposedRootBundles executedRootBundles
      chainIdList latestMainnetBlock chain in
  ((forall b, b ∈ proposedRootBundles ->
      blockNumber b <= latestMainnetBlock ->
      isRootBundleValid proposedRootBundles executedRootBundles
        b latestMainnetBlock = false) ->
   latestEnd = inr 0 /\ nextStart = inr 0)
  /\ (chain ∉ chainIdList -> latestEnd = inr 0 /\ nextStart = inr 0)
  /\ (forall e, latestEnd = inl e <-> nextStart = inl e)
  /\ (forall endBlock, latestEnd = inr endBlock ->
        nextStart = inr (if 0 <? endBlock then endBlock + 1 else 0))
  /\ (forall s, nextStart = inr s -> s = 0 \/ 2 <= s).
Proof.
  cbv zeta. unfold getNextBundleStartBlockNumber.
  split; [| split; [| split; [| split]]].
  - intros Hnone. apply getLatestFullyExecutedRootBundle_None in Hnone.
    unfold getLatestBundleEndBlockForChain. rewrite Hnone. split; reflexivity.
  - intros Hnot. unfold getLatestBundleEndBlockForChain.
    destruct (getLatestFullyExecutedRootBundle _ _ _) as [b |];
      [| split; reflexivity].
    rewrite (proj1 (getBundleEndBlockForChain_cases b chain chainIdList) Hnot).
    split; reflexivity.
  - intros e. destruct (getLatestBundleEndBlockForChain _ _ _ _ _) as [e' | v].
    + split; intros [= ->]; reflexivity.
    + split; intros H; discriminate H.
  - intros endBlock ->. reflexivity.
  - intros s. destruct (getLatestBundleEndBlockForChain _ _ _ _ _) as [e' | v];
      [discriminate |].
    intros [= <-]. destruct (Z.ltb_spec 0 v); lia.
Qed.

End EvaluationBlocks.

Lemma eval_block_not_below_block_witness :
  105 <= 110
  /\ exists b,
       b ∈ HubPool.threeBundles
       /\ HubPool.isRootBundleValid HubPool.threeBundles HubPool.threeLeaves b
            (match HubPool.getFollowingRootBundle HubPool.threeBundles b with
             | Some next => HubPool.blockNumber next
             | None => 40
             end) = true
       /\ HubPool.getBundleEndBlockForChain b 1 [1; 10] = inr 110.
Proof.
  apply (eval_block_not_below_block HubPool.threeBundles HubPool.threeLeaves
           40 105 1 [1; 10] 110).
  reflexivity.
Defined.

Section ValidityOverTime.

Import JsArray HubPool HubPoolQueries.

Variable proposedRootBundles : list ProposedRootBundle.
Variable executedRootBundles : list ExecutedRootBundle.

Lemma List_filter_implies_sublist {A} (p q : A -> bool) (l : list A) :
  (forall x, p x = true -> q x = true) ->
  sublist (List.filter p l) (List.filter q l).
Proof.
  intros Hpq. induction l as [| x l IH]; simpl; [constructor |].
  destruct (p x) eqn:Hp.
  - rewrite (Hpq x Hp). apply sublist_skip. exact IH.
  - destruct (q x); [apply sublist_cons |]; exact IH.
Qed.

(** X25. The executed leaves counted for a bundle only grow with the
    block searched up to.  Once that block has reached the proposal that
    follows the bundle, the answer of [isRootBundleValid] no longer
    depends on it: the validity of a bundle that has a successor is
    decided by the leaves executed up to the successor's block. *)
Theorem validity_final_after_next_proposal
    (rootBundle : ProposedRootBundle) (earlier later : Z) :
  earlier <= later ->
  sublist (getExecutedLeavesForRootBundle executedRootBundles rootBundle earlier)
          (getExecutedLeavesForRootBundle executedRootBundles rootBundle later)
  /\ (forall next,
        getFollowingRootBundle proposedRootBundles rootBundle = Some next ->
        blockNumber next <= earlier ->
        isRootBundleValid proposedRootBundles executedRootBundles rootBundle earlier
        = isRootBundleValid proposedRootBundles executedRootBundles rootBundle later
        /\ isRootBundleValid proposedRootBundles executedRootBundles rootBundle later
           = (Z.of_nat (length (getExecutedLeavesForRootBundle executedRootBundles
                                  rootBundle (blockNumber next)))
              =? poolRebalanceLeafCount rootBundle)).
Proof.
  intros Hle. split.
  - unfold getExecutedLeavesForRootBundle. apply List_filter_implies_sublist.
    intros leaf Hp. apply andb_prop in Hp as [Hb Ha].
    apply Z.leb_le in Hb. rewrite Ha, andb_true_r. apply Z.leb_le. lia.
  - intros next Hnext Hreached. unfold isRootBundleValid. rewrite Hnext.
    rewrite !Z.min_l by lia. split; reflexivity.
Qed.

End ValidityOverTime.

Lemma validity_final_after_next_proposal_witness :
  HubPool.isRootBundleValid HubPool.threeBundles HubPool.threeLeaves
    (HubPool.bundleAt 10 1 [100; 200]) 20
  = HubPool.isRootBundleValid HubPool.threeBundles HubPool.threeLeaves
      (HubPool.bundleAt 10 1 [100; 200]) 40.
Proof.
  refine (proj1 (proj2 (validity_final_after_next_proposal HubPool.threeBundles
                          HubPool.threeLeaves (HubPool.bundleAt 10 1 [100; 200])
                          20 40 _)
                   (HubPool.bundleAt 20 1 [110; 210]) eq_refl _)).
  - lia.
  - simpl. lia.
Defined.

(** * Spoke pools and token routes *)

Section SpokePools.

Import JsArray HubPool HubPoolQueries.

Variable crossChainContracts : gmap Z (list CrossChainContractsSet).

Lemma find_first_match {A} (p : A -> bool) (l : list A) (x : A) :
  List.find p l = Some x ->
  exists pre post,
    l = pre ++ x :: post /\ p x = true /\ forall y, y ∈ pre -> p y = false.
Proof.
  induction l as [| a l IH]; simpl; [discriminate |].
  destruct (p a) eqn:Hpa.
  - intros [= <-]. exists [], l. split; [reflexivity |]. split; [exact Hpa |].
    intros y Hy. inversion Hy.
  - intros Hf. destruct (IH Hf) as (pre & post & -> & Hpx & Hpre).
    exists (a :: pre), post. split; [reflexivity |]. split; [exact Hpx |].
    intros y Hy. apply elem_of_cons in Hy as [-> | Hy]; [exact Hpa | auto].
Qed.

Lemma find_is_Some {A} (p : A -> bool) (l : list A) (x : A) :
  x ∈ l -> p x = true -> exists y, List.find p l = Some y.
Proof.
  intros Hx Hp. destruct (List.find p l) as [y |] eqn:Hf; [exists y; reflexivity |].
  rewrite (find_none_elem_of p l Hf x Hx) in Hp. discriminate.
Qed.

Lemma getSpokePoolForBlock_inr (chain block : Z) (pool : string) :
  getSpokePoolForBlock crossChainContracts chain block = inr pool ->
  exists contracts c,
    crossChainContracts !! chain = Some contracts
    /\ c ∈ contracts /\ spokePool c = pool /\ blockNumber c <= block
    /\ forall c', c' ∈ contracts -> blockNumber c' <= block -> notOlder c c'.
Proof.
  unfold getSpokePoolForBlock.
  destruct (crossChainContracts !! chain) as [contracts |]; [| discriminate].
  destruct (List.find _ (sortEventsDescending contracts)) as [c |] eqn:Hf;
    [| discriminate].
  intros [= <-]. exists contracts, c. split; [reflexivity |].
  destruct (@find_sorted_first _ notOlder notOlder_refl _ _ _
              (sortEventsDescending_sorted contracts) Hf) as (Hin & Hle & Hmax).
  apply (proj1 (sortEventsDescending_elem_of _ _)) in Hin. apply Z.leb_le in Hle.
  split; [exact Hin |]. split; [reflexivity |]. split; [exact Hle |].
  intros c' Hc' Hle'. apply Hmax.
  - apply sortEventsDescending_elem_of. exact Hc'.
  - apply Z.leb_le. exact Hle'.
Qed.

(** X9. [getSpokePoolForBlock(chain, block)] throws "No cross chain
    contracts set" for a chain without an entry, and "No cross chain
    contract found before block" when every registration of the chain is
    later than [block].  Otherwise it returns the spoke pool of a
    registration at or before [block] that no other such registration of
    the chain follows in the order of block number, transaction index and
    log index; it succeeds as soon as one registration is at or before
    [block]. *)
Theorem spoke_pool_for_block (chain block : Z) :
  let result := getSpokePoolForBlock crossChainContracts chain block in
  (crossChainContracts !! chain = None -> result = inl (noContractsSet chain))
  /\ (forall contracts,
        crossChainContracts !! chain = Some contracts ->
        (forall c, c ∈ contracts -> block < blockNumber c) ->
        result = inl (noContractBefore chain block))
  /\ (forall pool,
        result = inr pool ->
        exists contracts c,
          crossChainContracts !! chain = Some contracts
          /\ c ∈ contracts /\ spokePool c = pool /\ blockNumber c <= block
          /\ forall c', c' ∈ contracts -> blockNumber c' <= block -> notOlder c c')
  /\ (forall contracts c,
        crossChainContracts !! chain = Some contracts ->
        c ∈ contracts -> blockNumber c <= block ->
        exists pool, result = inr pool).
Proof.
  cbv zeta. unfold getSpokePoolForBlock.
  split; [intros ->; reflexivity |].
  split.
  { intros contracts -> Hlate.
    destruct (List.find _ (sortEventsDescending contracts)) as [c |] eqn:Hf;
      [| reflexivity].
    apply find_some in Hf as [Hin Hle]. apply list_elem_of_In in Hin.
    apply (proj1 (sortEventsDescending_elem_of _ _)) in Hin. apply Hlate in Hin.
    apply Z.leb_le in Hle. lia. }
  split; [intros pool; apply getSpokePoolForBlock_inr |].
  intros contracts c -> Hc Hle.
  destruct (find_is_Some (fun crossChainContract => blockNumber crossChainContract <=? block)
              (sortEventsDescending contracts) c) as [y Hy].
  - apply sortEventsDescending_elem_of. exact Hc.
  - apply Z.leb_le. exact Hle.
  - rewrite Hy. eexists. reflexivity.
Qed.

(** X10. When [getSpokePoolForBlock(chain, block)] returns a spoke pool,
    [getSpokePoolActivationBlock] of the chain and that pool is defined:
    it is the block of the first registration of the pool in the order
    the registrations are stored.  When the registrations are stored by
    ascending block number, the activation block is at most [block]. *)
Theorem spoke_pool_activation_defined (chain block : Z) (pool : string) :
  getSpokePoolForBlock crossChainContracts chain block = inr pool ->
  exists contracts before first after,
    crossChainContracts !! chain = Some contracts
    /\ contracts = before ++ first :: after
    /\ spokePool first = pool
    /\ (forall c, c ∈ before -> spokePool c <> pool)
    /\ getSpokePoolActivationBlock crossChainContracts chain pool
       = inr (Some (blockNumber first))
    /\ (StronglySorted (fun x y => blockNumber x <= blockNumber y) contracts ->
        blockNumber first <= block).
Proof.
  intros Hres.
  destruct (getSpokePoolForBlock_inr chain block pool Hres)
    as (contracts & c & Hlook & Hc & Hpool & Hle & _).
  destruct (find_is_Some (fun crossChainContract =>
                            String.eqb (spokePool crossChainContract) pool)
              contracts c Hc) as [first Hfirst].
  { apply String.eqb_eq. exact Hpool. }
  destruct (find_first_match _ _ _ Hfirst) as (before & after & Hsplit & Hp & Hpre).
  exists contracts, before, first, after.
  split; [exact Hlook |]. split; [exact Hsplit |].
  apply String.eqb_eq in Hp. split; [exact Hp |].
  split.
  { intros c' Hc' Heq. apply Hpre in Hc'. apply String.eqb_neq in Hc'. contradiction. }
  split.
  { unfold getSpokePoolActivationBlock. rewrite Hlook, Hfirst. reflexivity. }
  intros Hsorted. rewrite Hsplit in Hsorted, Hc.
  apply StronglySorted_app_1_r in Hsorted.
  apply StronglySorted_cons in Hsorted as [Hall _].
  rewrite Forall_forall in Hall.
  apply elem_of_app in Hc as [Hc | Hc].
  - exfalso. apply Hpre in Hc. apply String.eqb_neq in Hc. contradiction.
  - apply elem_of_cons in Hc as [-> | Hc]; [exact Hle |].
    specialize (Hall c Hc). lia.
Qed.

End SpokePools.

Lemma spoke_pool_for_block_witness :
  let contracts :=
    [ {| HubPoolQueries.spokePool := "0xa"; HubPoolQueries.contractsBlockNumber := 100;
         HubPoolQueries.contractsTransactionIndex := 0;
         HubPoolQueries.contractsLogIndex := 0 |};
      {| HubPoolQueries.spokePool := "0xb"; HubPoolQueries.contractsBlockNumber := 200;
         HubPoolQueries.contractsTransactionIndex := 0;
         HubPoolQueries.contractsLogIndex := 0 |} ] in
  (exists pool,
     HubPoolQueries.getSpokePoolForBlock {[ 10 := contracts ]} 10 150 = inr pool)
  /\ HubPoolQueries.getSpokePoolForBlock {[ 10 := contracts ]} 10 150 = inr "0xa"%string
  /\ HubPoolQueries.getSpokePoolForBlock {[ 10 := contracts ]} 10 99
     = inl (HubPoolQueries.noContractBefore 10 99).
Proof.
  cbv zeta. split; [| split].
  - refine (proj2 (proj2 (proj2 (spoke_pool_for_block _ 10 150))) _ _ _ _ _).
    + reflexivity.
    + left.
    + simpl. lia.
  - vm_compute. reflexivity.
  - refine (proj1 (proj2 (spoke_pool_for_block _ 10 99)) _ _ _).
    + reflexivity.
    + intros c Hc. rewrite !elem_of_cons, elem_of_nil in Hc.
      destruct Hc as [-> | [-> | []]]; simpl; lia.
Defined.

Lemma spoke_pool_activation_defined_witness :
  let reg pool block :=
    {| HubPoolQueries.spokePool := pool; HubPoolQueries.contractsBlockNumber := block;
       HubPoolQueries.contractsTransactionIndex := 0;
       HubPoolQueries.contractsLogIndex := 0 |} in
  let contracts := [reg "0xa"%string 100; reg "0xb"%string 200; reg "0xa"%string 300] in
  HubPoolQueries.getSpokePoolForBlock {[ 10 := contracts ]} 10 350 = inr "0xa"%string
  /\ exists contracts' before first after,
       ({[ 10 := contracts ]} : gmap Z _) !! 10 = Some contracts'
       /\ contracts' = before ++ first :: after
       /\ HubPoolQueries.spokePool first = "0xa"%string
       /\ (forall c, c ∈ before -> HubPoolQueries.spokePool c <> "0xa"%string)
       /\ HubPoolQueries.getSpokePoolActivationBlock {[ 10 := contracts ]} 10 "0xa"
          = inr (Some (HubPool.blockNumber first))
       /\ (StronglySorted (fun x y => HubPool.blockNumber x <= HubPool.blockNumber y)
             contracts' ->
           HubPool.blockNumber first <= 350).
Proof.
  cbv zeta. split; [vm_compute; reflexivity |].
  apply spoke_pool_activation_defined. vm_compute. reflexivity.
Defined.

Section TokenRoutes.

Import JsArray HubPool HubPoolQueries.

Variable l1TokensToDestinationTokens : JsObject (gmap Z string).
Variable l1TokensToDestinationTokensWithBlock :
  JsObject (gmap Z (list DestinationTokenWithBlock)).
Variable knownL1Tokens : list L1Token.

Lemma get_Some_keys {V} (obj : JsObject V) (key : string) (v : V) :
  get obj key = Some v -> key ∈ keys obj.
Proof.
  induction obj as [| [k w] rest IH]; simpl; [discriminate |].
  destruct (String.eqb_spec k key) as [-> | Hne].
  - intros _. left.
  - intros Hg. right. apply IH. exact Hg.
Qed.

Lemma keys_get_Some {V} (obj : JsObject V) (key : string) :
  key ∈ keys obj -> exists v, get obj key = Some v.
Proof.
  induction obj as [| [k w] rest IH]; simpl; intros Hk; [inversion Hk |].
  destruct (String.eqb_spec k key) as [-> | Hne]; [eexists; reflexivity |].
  apply elem_of_cons in Hk as [-> | Hk]; [contradiction | auto].
Qed.

Lemma getL1TokenForDeposit_inr (originChainId : Z) (originToken l1Token : string) :
  getL1TokenForDeposit l1TokensToDestinationTokens originChainId originToken
  = inr l1Token ->
  l1Token <> EmptyString
  /\ l1Token ∈ keys l1TokensToDestinationTokens
  /\ exists routes,
       get l1TokensToDestinationTokens l1Token = Some routes
       /\ routes !! originChainId = Some originToken.
Proof.
  unfold getL1TokenForDeposit.
  destruct (List.find _ (keys l1TokensToDestinationTokens)) as [token |] eqn:Hf;
    [| discriminate].
  destruct (String.eqb_spec token EmptyString) as [-> | Hne]; [discriminate |].
  intros [= <-]. apply find_some in Hf as [Hin Hp].
  split; [exact Hne |]. split; [apply list_elem_of_In; exact Hin |].
  destruct (get l1TokensToDestinationTokens token) as [routes |]; [| discriminate].
  exists routes. split; [reflexivity |].
  apply bool_decide_eq_true in Hp. exact Hp.
Qed.

(** X11. A deposit route resolves back to itself: when
    [getL1TokenForDeposit] returns an L1 token for an origin chain and an
    origin token, the token is a non-empty key of
    [l1TokensToDestinationTokens], [getDestinationTokenForL1Token] of it
    and the origin chain is the origin token,
    [l2TokenEnabledForL1Token] is true there, and
    [getDestinationTokenForDeposit] with the origin chain as destination
    returns the origin token. *)
Theorem deposit_route_round_trip
    (originChainId : Z) (originToken l1Token : string) :
  getL1TokenForDeposit l1TokensToDestinationTokens originChainId originToken
  = inr l1Token ->
  l1Token <> EmptyString
  /\ l1Token ∈ keys l1TokensToDestinationTokens
  /\ getDestinationTokenForL1Token l1TokensToDestinationTokens l1Token originChainId
     = inr (Some originToken)
  /\ l2TokenEnabledForL1Token l1TokensToDestinationTokens l1Token originChainId
     = inr true
  /\ getDestinationTokenForDeposit l1TokensToDestinationTokens
       originChainId originToken originChainId
     = inr (Some originToken).
Proof.
  intros Hres.
  destruct (getL1TokenForDeposit_inr _ _ _ Hres) as (Hne & Hkey & routes & Hget & Hroute).
  split; [exact Hne |]. split; [exact Hkey |].
  unfold getDestinationTokenForDeposit, getDestinationTokenForL1Token,
    l2TokenEnabledForL1Token.
  rewrite Hres, Hget, Hroute.
  split; [reflexivity |]. split; [| reflexivity].
  rewrite bool_decide_eq_false_2; [reflexivity | discriminate].
Qed.

(** X12. [getL1TokenForDeposit] finds every route that was set: when no
    key of [l1TokensToDestinationTokens] is the empty string and some L1
    token has [originToken] as its destination token on [originChainId],
    the call returns an L1 token; and when at most one L1 token has that
    destination token on that chain, it returns that one. *)
Theorem deposit_route_found
    (originChainId : Z) (originToken l1Token : string) :
  EmptyString ∉ keys l1TokensToDestinationTokens ->
  getDestinationTokenForL1Token l1TokensToDestinationTokens l1Token originChainId
  = inr (Some originToken) ->
  (exists found,
     getL1TokenForDeposit l1TokensToDestinationTokens originChainId originToken
     = inr found)
  /\ ((forall other,
         getDestinationTokenForL1Token l1TokensToDestinationTokens other originChainId
         = inr (Some originToken) -> other = l1Token) ->
      getL1TokenForDeposit l1TokensToDestinationTokens originChainId originToken
      = inr l1Token).
Proof.
  intros Hnonempty Hdest.
  assert (Hfound : exists found,
    getL1TokenForDeposit l1TokensToDestinationTokens originChainId originToken
    = inr found).
  { unfold getDestinationTokenForL1Token in Hdest.
    destruct (get l1TokensToDestinationTokens l1Token) as [routes |] eqn:Hget;
      [| discriminate].
    injection Hdest as Hroute.
    unfold getL1TokenForDeposit.
    destruct (find_is_Some
                (fun _l1Token =>
                   match get l1TokensToDestinationTokens _l1Token with
                   | Some routes =>
                       bool_decide (routes !! originChainId = Some originToken)
                   | None => false
                   end)
                (keys l1TokensToDestinationTokens) l1Token) as [found Hf].
    - eapply get_Some_keys. exact Hget.
    - rewrite Hget. apply bool_decide_eq_true. exact Hroute.
    - rewrite Hf. destruct (String.eqb_spec found EmptyString) as [-> | Hne].
      + exfalso. apply Hnonempty. apply find_some in Hf as [Hin _].
        apply list_elem_of_In. exact Hin.
      + exists found. reflexivity. }
  split; [exact Hfound |].
  intros Hunique. destruct Hfound as [found Hf]. rewrite Hf. f_equal.
  apply Hunique.
  destruct (getL1TokenForDeposit_inr _ _ _ Hf) as (_ & _ & routes & Hget & Hroute).
  unfold getDestinationTokenForL1Token. rewrite Hget, Hroute. reflexivity.
Qed.

(** X13. The token information returned for a deposit is an entry of the
    token list whose address routes to the origin token on the origin
    chain. *)
Theorem token_info_for_deposit_routes
    (originChainId : Z) (originToken : string) (info : L1Token) :
  getTokenInfoForDeposit l1TokensToDestinationTokens knownL1Tokens
    originChainId originToken = inr (Some info) ->
  info ∈ knownL1Tokens
  /\ getTokenInfoForL1Token knownL1Tokens (address info) = Some info
  /\ getL1TokenForDeposit l1TokensToDestinationTokens originChainId originToken
     = inr (address info)
  /\ getDestinationTokenForL1Token l1TokensToDestinationTokens
       (address info) originChainId = inr (Some originToken).
Proof.
  unfold getTokenInfoForDeposit.
  destruct (getL1TokenForDeposit l1TokensToDestinationTokens originChainId originToken)
    as [e | l1Token] eqn:Hres; [discriminate |].
  intros [= Hinfo]. unfold getTokenInfoForL1Token in *.
  pose proof Hinfo as Hfind.
  apply find_some in Hinfo as [Hin Haddr]. apply String.eqb_eq in Haddr. subst l1Token.
  split; [apply list_elem_of_In; exact Hin |]. split; [exact Hfind |].
  split; [reflexivity |].
  destruct (getL1TokenForDeposit_inr _ _ _ Hres) as (_ & _ & routes & Hget & Hroute).
  unfold getDestinationTokenForL1Token. rewrite Hget, Hroute. reflexivity.
Qed.

Local Notation "'mapped'" :=
  (mappedAtOrBefore l1TokensToDestinationTokensWithBlock) (only parsing).

Lemma counterpart_callback (l2ChainId : Z) (token : string) (block : Z)
    (_l1Token : string) :
  match get l1TokensToDestinationTokensWithBlock _l1Token with
  | Some routes =>
      match routes !! l2ChainId with
      | None => false
      | Some mappings =>
          match List.find
                  (fun mapping =>
                     String.eqb (l2Token mapping) token
                     && (blockNumber mapping <=? block))
                  (sortEventsDescending mappings) with
          | Some _ => true
          | None => false
          end
      end
  | None => false
  end = true
  <-> mapped _l1Token l2ChainId token block.
Proof.
  unfold mappedAtOrBefore.
  destruct (get l1TokensToDestinationTokensWithBlock _l1Token) as [routes |].
  2: { split; [discriminate | intros (? & ? & ? & H & _); discriminate H]. }
  destruct (routes !! l2ChainId) as [mappings |] eqn:Hroute.
  2: { split; [discriminate |].
       intros (r & ms & m & [= <-] & H & _). congruence. }
  destruct (List.find _ (sortEventsDescending mappings)) as [m |] eqn:Hf.
  - split; [intros _ | reflexivity].
    apply find_some in Hf as [Hin Hp]. apply list_elem_of_In in Hin.
    apply (proj1 (sortEventsDescending_elem_of _ _)) in Hin.
    apply andb_prop in Hp as [Ht Hb].
    apply String.eqb_eq in Ht. apply Z.leb_le in Hb.
    exists routes, mappings, m. repeat split; assumption.
  - split; [discriminate |].
    intros (r & ms & m & [= <-] & Hms & Hin & Ht & Hb).
    assert (ms = mappings) as -> by congruence.
    apply (proj2 (sortEventsDescending_elem_of _ _)) in Hin.
    pose proof (find_none_elem_of _ _ Hf m Hin) as Hp. cbv beta in Hp.
    rewrite (proj2 (String.eqb_eq _ _) Ht), (proj2 (Z.leb_le _ _) Hb) in Hp.
    discriminate.
Qed.

Lemma l1_counterpart_sound (l2ChainId : Z) (token : string) (block : Z) :
  (forall l1Token,
     getL1TokenCounterpartAtBlock l1TokensToDestinationTokensWithBlock
       l2ChainId token block = inr l1Token ->
     l1Token <> EmptyString
     /\ mapped l1Token l2ChainId token block
     /\ exists before after,
          keys l1TokensToDestinationTokensWithBlock = before ++ l1Token :: after
          /\ forall key, key ∈ before -> ~ mapped key l2ChainId token block)
  /\ (EmptyString ∉ keys l1TokensToDestinationTokensWithBlock ->
      forall l1Token,
        mapped l1Token l2ChainId token block ->
        exists found,
          getL1TokenCounterpartAtBlock l1TokensToDestinationTokensWithBlock
            l2ChainId token block = inr found).
Proof.
  split.
  - intros l1Token. unfold getL1TokenCounterpartAtBlock.
    destruct (List.find _ (keys l1TokensToDestinationTokensWithBlock))
      as [found |] eqn:Hf; [| discriminate].
    destruct (String.eqb_spec found EmptyString) as [-> | Hne]; [discriminate |].
    intros [= <-].
    destruct (find_first_match _ _ _ Hf) as (before & after & Hsplit & Hp & Hpre).
    split; [exact Hne |].
    split; [apply counterpart_callback; exact Hp |].
    exists before, after. split; [exact Hsplit |].
    intros key Hkey Hmapped. apply counterpart_callback in Hmapped.
    rewrite (Hpre key Hkey) in Hmapped. discriminate.
  - intros Hnonempty l1Token Hmapped.
    assert (Hkey : l1Token ∈ keys l1TokensToDestinationTokensWithBlock).
    { destruct Hmapped as (routes & _ & _ & Hget & _).
      eapply get_Some_keys. exact Hget. }
    apply counterpart_callback in Hmapped.
    unfold getL1TokenCounterpartAtBlock.
    destruct (List.find _ (keys l1TokensToDestinationTokensWithBlock))
      as [found |] eqn:Hf.
    + destruct (String.eqb_spec found EmptyString) as [-> | Hne].
      * exfalso. apply Hnonempty. apply find_some in Hf as [Hin _].
        apply list_elem_of_In. exact Hin.
      * exists found. reflexivity.
    + exfalso. pose proof (find_none_elem_of _ _ Hf l1Token Hkey) as Hp.
      cbv beta in Hp. rewrite Hmapped in Hp. discriminate.
Qed.

(** X14. [getL1TokenCounterpartAtBlock] returns a non-empty key of
    [l1TokensToDestinationTokensWithBlock] that has, for the chain, a
    mapping to the L2 token published at or before [block], which need
    not be the latest mapping of the key at that block; no key stored
    before it has one.  When no key is the empty string the call succeeds
    as soon as some key has such a mapping, and a call that succeeds for
    [block] succeeds for every later block. *)
Theorem l1_counterpart_at_block (l2ChainId : Z) (token : string) (block : Z) :
  let result :=
    getL1TokenCounterpartAtBlock l1TokensToDestinationTokensWithBlock
      l2ChainId token block in
  (forall l1Token,
     result = inr l1Token ->
     l1Token <> EmptyString
     /\ mapped l1Token l2ChainId token block
     /\ exists before after,
          keys l1TokensToDestinationTokensWithBlock = before ++ l1Token :: after
          /\ forall key, key ∈ before ->
               ~ mapped key l2ChainId token block)
  /\ (EmptyString ∉ keys l1TokensToDestinationTokensWithBlock ->
      forall l1Token,
        mapped l1Token l2ChainId token block ->
        exists found, result = inr found)
  /\ (EmptyString ∉ keys l1TokensToDestinationTokensWithBlock ->
      forall l1Token later,
        result = inr l1Token -> block <= later ->
        exists found,
          getL1TokenCounterpartAtBlock l1TokensToDestinationTokensWithBlock
            l2ChainId token later = inr found).
Proof.
  cbv zeta.
  split; [apply l1_counterpart_sound |]. split; [apply l1_counterpart_sound |].
  intros Hnonempty l1Token later Hres Hle.
  destruct (proj1 (l1_counterpart_sound l2ChainId token block) _ Hres)
    as (_ & (routes & mappings & m & Hget & Hr & Hin & Ht & Hb) & _).
  apply (proj2 (l1_counterpart_sound l2ChainId token later) Hnonempty l1Token).
  exists routes, mappings, m. repeat split; try assumption. lia.
Qed.

End TokenRoutes.

Lemma deposit_route_round_trip_witness :
  let routes : HubPoolQueries.JsObject (gmap Z string) :=
    [ ("0xdai"%string, {[ 1 := "0xdai"%string; 10 := "0xda10"%string ]});
      ("0xweth"%string, {[ 10 := "0xweth10"%string ]}) ] in
  "0xdai"%string <> EmptyString
  /\ "0xdai"%string ∈ HubPoolQueries.keys routes
  /\ HubPoolQueries.getDestinationTokenForL1Token routes "0xdai" 10
     = inr (Some "0xda10"%string)
  /\ HubPoolQueries.l2TokenEnabledForL1Token routes "0xdai" 10 = inr true
  /\ HubPoolQueries.getDestinationTokenForDeposit routes 10 "0xda10" 10
     = inr (Some "0xda10"%string).
Proof.
  cbv zeta. apply deposit_route_round_trip. vm_compute. reflexivity.
Defined.

Lemma deposit_route_found_witness :
  let routes : HubPoolQueries.JsObject (gmap Z string) :=
    [ ("0xdai"%string, {[ 1 := "0xdai"%string; 10 := "0xda10"%string ]});
      ("0xweth"%string, {[ 10 := "0xweth10"%string ]}) ] in
  exists found,
    HubPoolQueries.getL1TokenForDeposit routes 10 "0xweth10" = inr found.
Proof.
  cbv zeta.
  refine (proj1 (deposit_route_found _ 10 "0xweth10" "0xweth" _ _)).
  - intros Hin. unfold HubPoolQueries.keys in Hin. simpl in Hin.
    rewrite !elem_of_cons, elem_of_nil in Hin.
    destruct Hin as [H | [H | []]]; discriminate H.
  - vm_compute. reflexivity.
Defined.

Lemma token_info_for_deposit_routes_witness :
  let routes : HubPoolQueries.JsObject (gmap Z string) :=
    [ ("0xdai"%string, {[ 1 := "0xdai"%string; 10 := "0xda10"%string ]});
      ("0xweth"%string, {[ 10 := "0xweth10"%string ]}) ] in
  let weth := {| HubPool.address := "0xweth"; HubPool.symbol := "WETH";
                 HubPool.decimals := 18 |} in
  let dai := {| HubPool.address := "0xdai"; HubPool.symbol := "DAI";
                HubPool.decimals := 18 |} in
  weth ∈ [dai; weth]
  /\ HubPoolQueries.getTokenInfoForL1Token [dai; weth] (HubPool.address weth)
     = Some weth
  /\ HubPoolQueries.getL1TokenForDeposit routes 10 "0xweth10"
     = inr (HubPool.address weth)
  /\ HubPoolQueries.getDestinationTokenForL1Token routes (HubPool.address weth) 10
     = inr (Some "0xweth10"%string).
Proof.
  cbv zeta. apply token_info_for_deposit_routes. vm_compute. reflexivity.
Defined.

Lemma l1_counterpart_at_block_witness :
  let mapping token block :=
    {| HubPoolQueries.l2Token := token; HubPoolQueries.mappingBlockNumber := block;
       HubPoolQueries.mappingTransactionIndex := 0;
       HubPoolQueries.mappingLogIndex := 0 |} in
  let routes : HubPoolQueries.JsObject (gmap Z (list HubPoolQueries.DestinationTokenWithBlock)) :=
    [ ("0xweth"%string, {[ 10 := [mapping "0xweth10"%string 5] ]});
      ("0xdai"%string,
       {[ 10 := [mapping "0xda10"%string 5; mapping "0xnew"%string 50] ]}) ] in
  HubPoolQueries.getL1TokenCounterpartAtBlock routes 10 "0xda10" 100
  = inr "0xdai"%string
  /\ "0xdai"%string <> EmptyString
  /\ HubPoolQueries.mappedAtOrBefore routes "0xdai" 10 "0xda10" 100
  /\ exists before after,
       HubPoolQueries.keys routes = before ++ "0xdai"%string :: after
       /\ forall key, key ∈ before ->
            ~ HubPoolQueries.mappedAtOrBefore routes key 10 "0xda10" 100.
Proof.
  cbv zeta. split; [vm_compute; reflexivity |].
  refine (proj1 (l1_counterpart_at_block _ 10 "0xda10" 100) "0xdai"%string _).
  vm_compute. reflexivity.
Defined.

(** * Token information, block ranges and updates *)

Section TokenInformation.

Import JsArray HubPool HubPoolQueries HubPoolState.

Variable l1TokensToDestinationTokens : JsObject (gmap Z string).
Variable l1TokensToDestinationTokensWithBlock :
  JsObject (gmap Z (list DestinationTokenWithBlock)).
Variable knownL1Tokens : list L1Token.

(** X16. The token information [getL1TokenInfoForL2Token] returns is an
    entry of the token list whose address has, for the chain, a mapping
    to the L2 token published at or before [latestBlockNumber]; on a
    client that was never updated only mappings at or before block 0
    count. *)
Theorem token_info_for_l2_token
    (latestBlockNumber : option Z) (token : string) (chain : Z) (info : L1Token) :
  getL1TokenInfoForL2Token l1TokensToDestinationTokensWithBlock knownL1Tokens
    latestBlockNumber token chain = inr (Some info) ->
  info ∈ knownL1Tokens
  /\ getL1TokenCounterpartAtBlock l1TokensToDestinationTokensWithBlock
       chain token (default 0 latestBlockNumber) = inr (address info)
  /\ mappedAtOrBefore l1TokensToDestinationTokensWithBlock (address info)
       chain token (default 0 latestBlockNumber)
  /\ (latestBlockNumber = None ->
      mappedAtOrBefore l1TokensToDestinationTokensWithBlock (address info)
        chain token 0).
Proof.
  unfold getL1TokenInfoForL2Token, latestOrZero.
  destruct (getL1TokenCounterpartAtBlock l1TokensToDestinationTokensWithBlock
              chain token (default 0 latestBlockNumber))
    as [e | l1Token] eqn:Hres; [discriminate |].
  intros [= Hinfo]. unfold getTokenInfoForL1Token in Hinfo.
  apply find_some in Hinfo as [Hin Haddr]. apply String.eqb_eq in Haddr.
  subst l1Token.
  destruct (proj1 (l1_counterpart_sound l1TokensToDestinationTokensWithBlock
                     chain token (default 0 latestBlockNumber)) _ Hres)
    as (_ & Hmapped & _).
  split; [apply list_elem_of_In; exact Hin |]. split; [reflexivity |].
  split; [exact Hmapped |]. intros ->. exact Hmapped.
Qed.

Lemma mapThrowing_inr {A B} (f : A -> Error + B) (l : list A) (ys : list B) :
  mapThrowing f l = inr ys -> Forall2 (fun x y => f x = inr y) l ys.
Proof.
  revert ys. induction l as [| x l IH]; simpl; intros ys.
  - intros [= <-]. constructor.
  - destruct (f x) as [e | y] eqn:Hfx; [discriminate |].
    destruct (mapThrowing f l) as [e | ys']; [discriminate |].
    intros [= <-]. constructor; [exact Hfx | apply IH; reflexivity].
Qed.

Lemma mapThrowing_inl {A B} (f : A -> Error + B) (l : list A) (e : Error) :
  mapThrowing f l = inl e -> exists x, x ∈ l /\ f x = inl e.
Proof.
  induction l as [| x l IH]; simpl; [discriminate |].
  destruct (f x) as [e' | y] eqn:Hfx.
  - intros [= <-]. exists x. split; [left | exact Hfx].
  - destruct (mapThrowing f l) as [e' | ys]; [| discriminate].
    intros [= <-]. destruct (IH eq_refl) as (x' & Hin & Hx').
    exists x'. split; [right; exact Hin | exact Hx'].
Qed.

Lemma fold_insert_lookup {V} (entries : list (string * V)) :
  forall (obj : gmap string V) key v,
    fold_left (fun obj entry => <[fst entry := snd entry]> obj) entries obj !! key
    = Some v ->
    (key, v) ∈ entries \/ obj !! key = Some v.
Proof.
  induction entries as [| [k w] rest IH]; simpl; intros obj key v Hl; [right; exact Hl |].
  apply IH in Hl as [Hin | Hl]; [left; right; exact Hin |].
  rewrite lookup_insert in Hl. case_decide as Hk.
  - injection Hl as <-. subst k. left. left.
  - right. exact Hl.
Qed.

Lemma fold_insert_is_Some {V} (entries : list (string * V)) :
  forall (obj : gmap string V) key,
    (is_Some (obj !! key) \/ exists v, (key, v) ∈ entries) ->
    is_Some (fold_left (fun obj entry => <[fst entry := snd entry]> obj)
               entries obj !! key).
Proof.
  induction entries as [| [k w] rest IH]; simpl; intros obj key Hk.
  - destruct Hk as [Hk | [v Hv]]; [exact Hk | inversion Hv].
  - apply IH. destruct Hk as [Hk | [v Hv]].
    + left. rewrite lookup_insert. case_decide; [eauto | exact Hk].
    + apply elem_of_cons in Hv as [[= -> ->] | Hv].
      * left. rewrite lookup_insert. case_decide; [eauto | congruence].
      * right. exists v. exact Hv.
Qed.

(** X17. When [getDestinationTokensToL1TokensForChainId] returns, every
    entry of the object it returns maps a destination token to a token of
    the token list whose route on the chain is that destination token,
    and every token of the list with a route on the chain has its
    destination token among the keys.  The call throws exactly when some
    token of the list has no entry in [l1TokensToDestinationTokens]. *)
Theorem destination_tokens_to_l1_tokens (chainId : Z) :
  let result :=
    getDestinationTokensToL1TokensForChainId l1TokensToDestinationTokens
      knownL1Tokens chainId in
  (forall obj,
     result = inr obj ->
     (forall destinationToken info,
        obj !! destinationToken = Some info ->
        info ∈ knownL1Tokens
        /\ getDestinationTokenForL1Token l1TokensToDestinationTokens
             (address info) chainId = inr (Some destinationToken))
     /\ (forall info destinationToken,
           info ∈ knownL1Tokens ->
           getDestinationTokenForL1Token l1TokensToDestinationTokens
             (address info) chainId = inr (Some destinationToken) ->
           is_Some (obj !! destinationToken)))
  /\ ((exists e, result = inl e)
      <-> exists info,
            info ∈ knownL1Tokens
            /\ get l1TokensToDestinationTokens (address info) = None).
Proof.
  cbv zeta. unfold getDestinationTokensToL1TokensForChainId.
  set (f := fun l1Token : L1Token =>
              match getDestinationTokenForL1Token l1TokensToDestinationTokens
                      (address l1Token) chainId with
              | inl e => inl e
              | inr destinationToken => inr (destinationToken, l1Token)
              end).
  split.
  - intros obj. destruct (mapThrowing f knownL1Tokens) as [e | entries] eqn:Hmap;
      [discriminate |].
    intros [= <-]. apply mapThrowing_inr in Hmap.
    split.
    + intros destinationToken info Hl. unfold fromEntries in Hl.
      apply fold_insert_lookup in Hl as [Hin | Hl];
        [| rewrite lookup_empty in Hl; discriminate].
      apply list_elem_of_omap in Hin as ([dest info'] & Hin & Hsome).
      simpl in Hsome. destruct dest as [dest |]; [| discriminate].
      injection Hsome as -> ->.
      apply list_elem_of_lookup in Hin as [i Hi].
      destruct (Forall2_lookup_r _ _ _ _ _ Hmap Hi) as (x & Hx & Hfx).
      unfold f in Hfx.
      destruct (getDestinationTokenForL1Token l1TokensToDestinationTokens
                  (address x) chainId) as [e | d] eqn:Hd; [discriminate |].
      injection Hfx as -> ->.
      split; [eapply list_elem_of_lookup_2; exact Hx | exact Hd].
    + intros info destinationToken Hin Hd. unfold fromEntries.
      apply fold_insert_is_Some. right. exists info.
      apply list_elem_of_omap. exists (Some destinationToken, info).
      split; [| reflexivity].
      apply list_elem_of_lookup in Hin as [i Hi].
      destruct (Forall2_lookup_l _ _ _ _ _ Hmap Hi) as (y & Hy & Hfy).
      unfold f in Hfy. rewrite Hd in Hfy. injection Hfy as <-.
      eapply list_elem_of_lookup_2. exact Hy.
  - split.
    + intros [e He].
      destruct (mapThrowing f knownL1Tokens) as [e' | entries] eqn:Hmap;
        [| discriminate].
      apply mapThrowing_inl in Hmap as (info & Hin & Hf).
      exists info. split; [exact Hin |].
      unfold f, getDestinationTokenForL1Token in Hf.
      destruct (get l1TokensToDestinationTokens (address info));
        [discriminate | reflexivity].
    + intros (info & Hin & Hget).
      destruct (mapThrowing f knownL1Tokens) as [e' | entries] eqn:Hmap;
        [eexists; reflexivity |].
      exfalso. apply mapThrowing_inr in Hmap.
      apply list_elem_of_lookup in Hin as [i Hi].
      destruct (Forall2_lookup_l _ _ _ _ _ Hmap Hi) as (y & _ & Hfy).
      unfold f, getDestinationTokenForL1Token in Hfy. rewrite Hget in Hfy.
      discriminate.
Qed.

End TokenInformation.

Lemma token_info_for_l2_token_witness :
  let mapping token block :=
    {| HubPoolQueries.l2Token := token; HubPoolQueries.mappingBlockNumber := block;
       HubPoolQueries.mappingTransactionIndex := 0;
       HubPoolQueries.mappingLogIndex := 0 |} in
  let routes : HubPoolQueries.JsObject (gmap Z (list HubPoolQueries.DestinationTokenWithBlock)) :=
    [ ("0xdai"%string, {[ 10 := [mapping "0xda10"%string 5] ]}) ] in
  let dai := {| HubPool.address := "0xdai"; HubPool.symbol := "DAI";
                HubPool.decimals := 18 |} in
  dai ∈ [dai]
  /\ HubPoolQueries.getL1TokenCounterpartAtBlock routes 10 "0xda10"
       (default 0 (Some 7)) = inr (HubPool.address dai)
  /\ HubPoolQueries.mappedAtOrBefore routes (HubPool.address dai) 10 "0xda10"
       (default 0 (Some 7))
  /\ (Some 7 = None ->
      HubPoolQueries.mappedAtOrBefore routes (HubPool.address dai) 10 "0xda10" 0).
Proof.
  cbv zeta. apply token_info_for_l2_token. vm_compute. reflexivity.
Defined.

Lemma destination_tokens_to_l1_tokens_witness :
  let routes : HubPoolQueries.JsObject (gmap Z string) :=
    [ ("0xdai"%string, {[ 1 := "0xdai"%string; 10 := "0xda10"%string ]});
      ("0xweth"%string, {[ 10 := "0xweth10"%string ]}) ] in
  let weth := {| HubPool.address := "0xweth"; HubPool.symbol := "WETH";
                 HubPool.decimals := 18 |} in
  let dai := {| HubPool.address := "0xdai"; HubPool.symbol := "DAI";
                HubPool.decimals := 18 |} in
  exists obj,
    HubPoolState.getDestinationTokensToL1TokensForChainId routes [dai; weth] 1
    = inr obj
    /\ (forall destinationToken info,
          obj !! destinationToken = Some info ->
          info ∈ [dai; weth]
          /\ HubPoolQueries.getDestinationTokenForL1Token routes
               (HubPool.address info) 1 = inr (Some destinationToken))
    /\ (forall info destinationToken,
          info ∈ [dai; weth] ->
          HubPoolQueries.getDestinationTokenForL1Token routes
            (HubPool.address info) 1 = inr (Some destinationToken) ->
          is_Some (obj !! destinationToken)).
Proof.
  cbv zeta. eexists. split; [reflexivity |].
  refine (proj1 (destination_tokens_to_l1_tokens _ _ 1) _ _). reflexivity.
Defined.

Section BlockRanges.

Import JsArray HubPool HubPoolQueries HubPoolState.

Context {A : Type} `{SortableEvent A}.

Lemma StronglySorted_List_filter {B} (R : relation B) (p : B -> bool) (l : list B) :
  StronglySorted R l -> StronglySorted R (List.filter p l).
Proof.
  induction 1 as [| x l Hs IH Hall]; simpl; [constructor |].
  destruct (p x); [| exact IH].
  constructor; [exact IH |].
  rewrite Forall_forall in *. intros y Hy.
  apply Hall. apply elem_of_List_filter in Hy as [Hy _]. exact Hy.
Qed.

(** X18. [getCancelledRootBundlesInBlockRange] and
    [getDisputedRootBundlesInBlockRange] return exactly the stored events
    with a block number from [startingBlock] to [endingBlock], most
    recent first; [getProposedRootBundlesInBlockRange] returns the
    proposals of that range in the order of the ledger.  All three are
    empty when [endingBlock] is before [startingBlock]. *)
Theorem bundles_in_block_range
    (canceledRootBundles disputedRootBundles : list A)
    (proposedRootBundles : list ProposedRootBundle)
    (startingBlock endingBlock : Z) :
  let cancelled :=
    getCancelledRootBundlesInBlockRange canceledRootBundles
      startingBlock endingBlock in
  let disputed :=
    getDisputedRootBundlesInBlockRange disputedRootBundles
      startingBlock endingBlock in
  let proposed :=
    getProposedRootBundlesInBlockRange proposedRootBundles
      startingBlock endingBlock in
  (forall x, x ∈ cancelled
     <-> x ∈ canceledRootBundles /\ startingBlock <= blockNumber x <= endingBlock)
  /\ StronglySorted notOlder cancelled
  /\ (forall x, x ∈ disputed
        <-> x ∈ disputedRootBundles /\ startingBlock <= blockNumber x <= endingBlock)
  /\ StronglySorted notOlder disputed
  /\ (forall b, b ∈ proposed
        <-> b ∈ proposedRootBundles /\ startingBlock <= blockNumber b <= endingBlock)
  /\ sublist proposed proposedRootBundles
  /\ (endingBlock < startingBlock ->
      cancelled = [] /\ disputed = [] /\ proposed = []).
Proof.
  cbv zeta.
  unfold getCancelledRootBundlesInBlockRange, getDisputedRootBundlesInBlockRange,
    getProposedRootBundlesInBlockRange.
  assert (Hrange : forall {B} `{SortableEvent B} (x : B),
    (startingBlock <=? blockNumber x) && (blockNumber x <=? endingBlock) = true
    <-> startingBlock <= blockNumber x <= endingBlock).
  { intros B HB x. rewrite andb_true_iff, !Z.leb_le. reflexivity. }
  split.
  { intros x. rewrite elem_of_List_filter, sortEventsDescending_elem_of, Hrange.
    reflexivity. }
  split; [apply StronglySorted_List_filter, sortEventsDescending_sorted |].
  split.
  { intros x. rewrite elem_of_List_filter, sortEventsDescending_elem_of, Hrange.
    reflexivity. }
  split; [apply StronglySorted_List_filter, sortEventsDescending_sorted |].
  split.
  { intros b. rewrite elem_of_List_filter, Hrange. reflexivity. }
  split; [apply List_filter_sublist |].
  intros Hempty.
  split; [| split]; apply List_filter_none; intros x _;
    destruct (Z.leb_spec startingBlock (blockNumber x));
    destruct (Z.leb_spec (blockNumber x) endingBlock); try reflexivity; lia.
Qed.

End BlockRanges.

Lemma bundles_in_block_range_witness :
  HubPoolState.getCancelledRootBundlesInBlockRange HubPool.threeLeaves 30 20 = []
  /\ HubPoolState.getDisputedRootBundlesInBlockRange HubPool.threeLeaves 30 20 = []
  /\ HubPoolQueries.getProposedRootBundlesInBlockRange HubPool.threeBundles 30 20 = [].
Proof.
  refine (proj2 (proj2 (proj2 (proj2 (proj2 (proj2
            (bundles_in_block_range HubPool.threeLeaves HubPool.threeLeaves
               HubPool.threeBundles 30 20)))))) _).
  lia.
Defined.

Section PendingBundle.

Import JsArray HubPool HubPoolQueries.

Lemma toNumberOrZero_safe (block : Z) :
  Z.abs (toNumberOrZero block) < 2 ^ 53
  /\ (Z.abs block < 2 ^ 53 -> toNumberOrZero block = block)
  /\ (2 ^ 53 <= Z.abs block -> toNumberOrZero block = 0).
Proof.
  unfold toNumberOrZero, toNumber.
  destruct (Z.ltb_spec (Z.abs block) (2 ^ 53)); repeat split; intros;
    first [lia | simpl; lia].
Qed.

(** X19. The pending root bundle that [update] stores: with an unclaimed
    leaf count of 0 or less it is undefined, whatever the ledger holds;
    with a positive count and an empty ledger [update] throws; with a
    positive count and a ledger whose latest proposal is [latest], the
    pending bundle takes its roots, proposer, count and challenge period
    from the contract's proposal, its proposal block from [latest], and
    as evaluation blocks those of [latest], each kept when it is a safe
    integer and replaced by 0 when it is not, so that every evaluation
    block stored is a safe integer.  [hasPendingProposal] is then true
    exactly when the count was positive. *)
Theorem pending_root_bundle
    (proposedRootBundles : list ProposedRootBundle)
    (pendingRootBundleProposal : RootBundleProposal) :
  let result := pendingRootBundleOf proposedRootBundles pendingRootBundleProposal in
  (unclaimedPoolRebalanceLeafCount pendingRootBundleProposal <= 0 ->
   result = inr None /\ hasPendingProposal None = false)
  /\ (0 < unclaimedPoolRebalanceLeafCount pendingRootBundleProposal ->
      proposedRootBundles = [] ->
      result = inl (MkError msg_undefined_property))
  /\ (0 < unclaimedPoolRebalanceLeafCount pendingRootBundleProposal ->
      forall latest,
        getLatestProposedRootBundle proposedRootBundles = Some latest ->
        exists pending,
          result = inr (Some pending)
          /\ hasPendingProposal (Some pending) = true
          /\ pendingPoolRebalanceRoot pending
             = proposalPoolRebalanceRoot pendingRootBundleProposal
          /\ pendingRelayerRefundRoot pending
             = proposalRelayerRefundRoot pendingRootBundleProposal
          /\ pendingSlowRelayRoot pending
             = proposalSlowRelayRoot pendingRootBundleProposal
          /\ pendingProposer pending = proposalProposer pendingRootBundleProposal
          /\ pendingUnclaimedPoolRebalanceLeafCount pending
             = unclaimedPoolRebalanceLeafCount pendingRootBundleProposal
          /\ pendingChallengePeriodEndTimestamp pending
             = challengePeriodEndTimestamp pendingRootBundleProposal
          /\ proposalBlockNumber pending = blockNumber latest
          /\ length (pendingBundleEvaluationBlockNumbers pending)
             = length (bundleEvaluationBlockNumbers latest)
          /\ (forall block, block ∈ pendingBundleEvaluationBlockNumbers pending ->
                Z.abs block < 2 ^ 53)
          /\ (forall (i : nat) block,
                bundleEvaluationBlockNumbers latest !! i = Some block ->
                pendingBundleEvaluationBlockNumbers pending !! i
                = Some (if Z.abs block <? 2 ^ 53 then block else 0))).
Proof.
  cbv zeta. unfold pendingRootBundleOf.
  split; [| split].
  - intros Hle.
    destruct (Z.ltb_spec 0 (unclaimedPoolRebalanceLeafCount pendingRootBundleProposal));
      [lia |]. split; reflexivity.
  - intros Hpos ->.
    destruct (Z.ltb_spec 0 (unclaimedPoolRebalanceLeafCount pendingRootBundleProposal));
      [reflexivity | lia].
  - intros Hpos latest Hlatest.
    destruct (Z.ltb_spec 0 (unclaimedPoolRebalanceLeafCount pendingRootBundleProposal));
      [| lia].
    unfold getLatestProposedRootBundle in Hlatest. rewrite Hlatest.
    eexists. split; [reflexivity |]. simpl.
    repeat (split; [reflexivity |]).
    split; [apply length_map |].
    split.
    + intros block Hin. apply list_elem_of_fmap in Hin as (orig & -> & _).
      apply toNumberOrZero_safe.
    + intros i block Hi.
      change (map toNumberOrZero (bundleEvaluationBlockNumbers latest))
        with (toNumberOrZero <$> bundleEvaluationBlockNumbers latest).
      rewrite list_lookup_fmap, Hi. simpl. f_equal.
      destruct (toNumberOrZero_safe block) as (_ & Hsafe & Hunsafe).
      destruct (Z.ltb_spec (Z.abs block) (2 ^ 53)); auto.
Qed.

End PendingBundle.

Lemma pending_root_bundle_witness :
  let proposal :=
    {| HubPoolQueries.proposalPoolRebalanceRoot := "0x01";
       HubPoolQueries.proposalRelayerRefundRoot := "0x02";
       HubPoolQueries.proposalSlowRelayRoot := "0x03";
       HubPoolQueries.proposalProposer := "0x04";
       HubPoolQueries.unclaimedPoolRebalanceLeafCount := 2;
       HubPoolQueries.challengePeriodEndTimestamp := 1700000000 |} in
  HubPoolQueries.pendingRootBundleOf [] proposal
  = inl (MkError HubPoolQueries.msg_undefined_property)
  /\ exists pending,
       HubPoolQueries.pendingRootBundleOf [HubPool.bundleAt 10 2 [100; 2 ^ 60]] proposal
       = inr (Some pending)
       /\ HubPoolQueries.pendingBundleEvaluationBlockNumbers pending = [100; 0]
       /\ HubPoolQueries.proposalBlockNumber pending = 10.
Proof.
  cbv zeta. split.
  - refine (proj1 (proj2 (pending_root_bundle [] _)) _ eq_refl). simpl. lia.
  - eexists. split; [reflexivity |]. split; reflexivity.
Defined.

Section TokenList.

Import HubPool.

Lemma ingestToken_invariant (knownTokens knownTokens' : list L1Token) (info : L1Token) :
  ingestToken knownTokens info = inr knownTokens' ->
  (NoDup (map symbol knownTokens) -> NoDup (map symbol knownTokens'))
  /\ (Forall supportedDecimals knownTokens -> Forall supportedDecimals knownTokens')
  /\ knownTokens `prefix_of` knownTokens'.
Proof.
  unfold ingestToken.
  destruct (List.find _ knownTokens) as [token |] eqn:Hf.
  - intros [= <-]. repeat split; auto.
  - destruct (Z.ltb_spec 0 (decimals info)); [| discriminate].
    destruct (Z.leb_spec (decimals info) 18); [| discriminate].
    simpl. intros [= <-]. split; [| split].
    + intros Hnd. rewrite map_app. apply NoDup_app. split; [exact Hnd |].
      split; [| apply NoDup_singleton].
      intros sym Hin Hin'. apply list_elem_of_singleton in Hin'. subst sym.
      apply find_symbol_None in Hf. apply Hf.
      change (map symbol knownTokens) with (symbol <$> knownTokens) in Hin.
      apply list_elem_of_fmap in Hin as (token & Hsym & Hin).
      exists token. split; [exact Hin | symmetry; exact Hsym].
    + intros Hall. apply Forall_app. split; [exact Hall |].
      apply Forall_singleton. unfold supportedDecimals. lia.
    + apply prefix_app_r. reflexivity.
Qed.

Lemma ingestTokens_invariant (tokenInfo : list L1Token) :
  forall knownTokens,
    (NoDup (map symbol knownTokens) ->
     NoDup (map symbol (snd (ingestTokens knownTokens tokenInfo))))
    /\ (Forall supportedDecimals knownTokens ->
        Forall supportedDecimals (snd (ingestTokens knownTokens tokenInfo)))
    /\ knownTokens `prefix_of` snd (ingestTokens knownTokens tokenInfo).
Proof.
  induction tokenInfo as [| info rest IH]; intros knownTokens; simpl.
  - repeat split; auto.
  - destruct (ingestToken knownTokens info) as [e | knownTokens'] eqn:Hi; simpl.
    + repeat split; auto.
    + destruct (ingestToken_invariant _ _ _ Hi) as (Hnd & Hall & Hpre).
      destruct (IH knownTokens') as (Hnd' & Hall' & Hpre').
      split; [auto |]. split; [auto |]. etrans; eassumption.
Qed.

(** X20. The token list of the client never holds two tokens with the
    same symbol nor a token whose decimals are outside (0, 18]: an
    ingestion keeps both properties, whether it ends normally or throws,
    and it keeps the tokens already in the list, in place.  So they hold
    after any run of updates of a client that starts with an empty list,
    whatever the token contracts answer. *)
Theorem token_list_invariants :
  (forall tokenSymbol tokenDecimals knownTokens l1TokensLpEvents,
     let after :=
       snd (updateL1Tokens tokenSymbol tokenDecimals knownTokens l1TokensLpEvents) in
     (NoDup (map symbol knownTokens) -> NoDup (map symbol after))
     /\ (Forall supportedDecimals knownTokens -> Forall supportedDecimals after)
     /\ knownTokens `prefix_of` after)
  /\ (forall batches : list ((string -> string) * (string -> Z) * list string),
        let final :=
          fold_left
            (fun knownTokens batch =>
               snd (updateL1Tokens (fst (fst batch)) (snd (fst batch))
                      knownTokens (snd batch)))
            batches [] in
        NoDup (map symbol final) /\ Forall supportedDecimals final).
Proof.
  split.
  - intros tokenSymbol tokenDecimals knownTokens l1TokensLpEvents. cbv zeta.
    unfold updateL1Tokens. apply ingestTokens_invariant.
  - intros batches. cbv zeta.
    enough (Hgen : forall knownTokens,
      NoDup (map symbol knownTokens) /\ Forall supportedDecimals knownTokens ->
      NoDup (map symbol
               (fold_left
                  (fun knownTokens batch =>
                     snd (updateL1Tokens (fst (fst batch)) (snd (fst batch))
                            knownTokens (snd batch)))
                  batches knownTokens))
      /\ Forall supportedDecimals
           (fold_left
              (fun knownTokens batch =>
                 snd (updateL1Tokens (fst (fst batch)) (snd (fst batch))
                        knownTokens (snd batch)))
              batches knownTokens)).
    { apply Hgen. split; constructor. }
    induction batches as [| batch rest IH]; intros knownTokens [Hnd Hall]; simpl.
    + split; assumption.
    + apply IH. unfold updateL1Tokens.
      destruct (ingestTokens_invariant
                  (map (fetchTokenInfoFromContract (fst (fst batch)) (snd (fst batch)))
                     (unique (snd batch))) knownTokens) as (Hnd' & Hall' & _).
      split; auto.
Qed.

End TokenList.

Lemma token_list_invariants_witness :
  let usdc := {| HubPool.address := "0xa0b8"; HubPool.symbol := "USDC";
                 HubPool.decimals := 6 |} in
  let after :=
    snd (HubPool.updateL1Tokens (fun _ => "USDC"%string) (fun _ => 0)
           [usdc] ["0xffff"%string]) in
  NoDup (map HubPool.symbol after).
Proof.
  cbv zeta.
  refine (proj1 (proj1 token_list_invariants (fun _ => "USDC"%string) (fun _ => 0)
                   _ ["0xffff"%string]) _).
  simpl. apply NoDup_singleton.
Defined.

Section SearchWindows.

Import HubPoolState.

Variable eventSearchConfig : EventSearchConfig.

Lemma nextStart_cons (start : Z) (window : Z * Z) (windows : list (Z * Z)) :
  nextStart start (window :: windows) = nextStart (snd window + 1) windows.
Proof.
  unfold nextStart. destruct windows as [| w ws]; [reflexivity |].
  rewrite last_cons. simpl last.
  destruct (last (w :: ws)) eqn:Hl; [reflexivity |].
  apply last_None in Hl. discriminate.
Qed.

Lemma completedWindows_cons (outcome : UpdateOutcome) (outcomes : list UpdateOutcome) :
  completedWindows (outcome :: outcomes)
  = match outcome with
    | Searched searchedFrom searchedTo =>
        (searchedFrom, searchedTo) :: completedWindows outcomes
    | _ => completedWindows outcomes
    end.
Proof. destruct outcome; reflexivity. Qed.

Lemma searchedWindows_cons (outcome : UpdateOutcome) (outcomes : list UpdateOutcome) :
  searchedWindows (outcome :: outcomes)
  = match outcome with
    | Skipped => searchedWindows outcomes
    | Threw _ searchedFrom searchedTo | Searched searchedFrom searchedTo =>
        (searchedFrom, searchedTo) :: searchedWindows outcomes
    end.
Proof. destruct outcome; reflexivity. Qed.

Lemma windowsPushedBy_cons (outcome : UpdateOutcome) (outcomes : list UpdateOutcome) :
  windowsPushedBy (outcome :: outcomes)
  = match outcome with
    | Threw PendingRootBundle searchedFrom searchedTo
    | Searched searchedFrom searchedTo =>
        (searchedFrom, searchedTo) :: windowsPushedBy outcomes
    | _ => windowsPushedBy outcomes
    end.
Proof. destruct outcome as [| [] |]; reflexivity. Qed.

(** The state after one update, read off its outcome. *)
Lemma update_state (providerBlock : Z) (throws : option ThrowSite) (st : SearchState) :
  let '(outcome, st') := update eventSearchConfig providerBlock throws st in
  latestBlockNumber st' = Some providerBlock
  /\ assignedWindows st' = assignedWindows st ++ searchedWindows [outcome]
  /\ pushedWindows st' = pushedWindows st ++ windowsPushedBy [outcome]
  /\ match outcome with
     | Skipped =>
         firstBlockToSearch st' = firstBlockToSearch st
         /\ isUpdated st' = isUpdated st
         /\ searchToBlock eventSearchConfig providerBlock < firstBlockToSearch st
     | Threw site searchedFrom searchedTo =>
         firstBlockToSearch st' = firstBlockToSearch st
         /\ isUpdated st' = isUpdated st
         /\ searchedFrom = firstBlockToSearch st
         /\ searchedTo = searchToBlock eventSearchConfig providerBlock
         /\ searchedFrom <= searchedTo
     | Searched searchedFrom searchedTo =>
         firstBlockToSearch st' = searchedTo + 1
         /\ isUpdated st' = true
         /\ searchedFrom = firstBlockToSearch st
         /\ searchedTo = searchToBlock eventSearchConfig providerBlock
         /\ searchedFrom <= searchedTo
     end.
Proof.
  unfold update.
  destruct (Z.ltb_spec (searchToBlock eventSearchConfig providerBlock)
              (firstBlockToSearch st)); [| destruct throws as [[] |]];
    simpl; rewrite ?app_nil_r; repeat split; try reflexivity; lia.
Qed.

Lemma updates_windows (calls : list (Z * option ThrowSite)) :
  forall st,
    let outcomes := fst (updates eventSearchConfig calls st) in
    let final := snd (updates eventSearchConfig calls st) in
    length outcomes = length calls
    /\ (forall (i : nat) outcome,
          outcomes !! i = Some outcome ->
          match outcome with
          | Skipped => True
          | Threw _ searchedFrom searchedTo | Searched searchedFrom searchedTo =>
              searchedFrom
              = nextStart (firstBlockToSearch st) (completedWindows (take i outcomes))
              /\ searchedFrom <= searchedTo
          end)
    /\ firstBlockToSearch final
       = nextStart (firstBlockToSearch st) (completedWindows outcomes)
    /\ isUpdated final
       = isUpdated st || negb (bool_decide (completedWindows outcomes = []))
    /\ assignedWindows final = assignedWindows st ++ searchedWindows outcomes
    /\ pushedWindows final = pushedWindows st ++ windowsPushedBy outcomes
    /\ (forall fixedTo, toBlock eventSearchConfig = Some fixedTo -> fixedTo <> 0 ->
        fixedTo < firstBlockToSearch st ->
        forall outcome, outcome ∈ outcomes -> outcome = Skipped).
Proof.
  induction calls as [| [providerBlock throws] rest IH]; intros st; cbv zeta.
  - simpl. split; [reflexivity |]. split; [intros i o Hi; discriminate Hi |].
    split; [reflexivity |]. split; [rewrite orb_false_r; reflexivity |].
    split; [symmetry; apply app_nil_r |]. split; [symmetry; apply app_nil_r |].
    intros fixedTo _ _ _ outcome Hin. inversion Hin.
  - simpl.
    pose proof (update_state providerBlock throws st) as Hone.
    destruct (update eventSearchConfig providerBlock throws st) as [outcome st'].
    destruct Hone as (_ & Hassigned1 & Hpushed1 & Hone).
    specialize (IH st'). cbv zeta in IH.
    destruct (updates eventSearchConfig rest st') as [outcomes final].
    cbn [fst snd length] in IH |- *.
    destruct IH as (Hlen & Hwin & Hfirst & Hupd & Hassigned & Hpushed & Hfixed).
    assert (Hnext : forall l,
      nextStart (firstBlockToSearch st) (completedWindows (outcome :: l))
      = nextStart (firstBlockToSearch st') (completedWindows l)).
    { intros l. rewrite completedWindows_cons.
      destruct outcome as [| site f t | f t].
      - destruct Hone as (-> & _). reflexivity.
      - destruct Hone as (-> & _). reflexivity.
      - destruct Hone as (-> & _). apply nextStart_cons. }
    split; [lia |].
    split.
    { intros [| i] o Hi; simpl in Hi.
      - injection Hi as <-. simpl.
        destruct outcome as [| site f t | f t]; [trivial | |];
          destruct Hone as (_ & _ & -> & _ & Hle); split; try reflexivity; exact Hle.
      - specialize (Hwin i o Hi).
        change (take (S i) (outcome :: outcomes)) with (outcome :: take i outcomes).
        rewrite Hnext. exact Hwin. }
    split; [rewrite Hnext; exact Hfirst |].
    split.
    { rewrite Hupd, completedWindows_cons.
      destruct outcome as [| site f t | f t].
      - destruct Hone as (_ & -> & _). reflexivity.
      - destruct Hone as (_ & -> & _). reflexivity.
      - destruct Hone as (_ & -> & _). simpl. rewrite orb_true_r. reflexivity. }
    split.
    { rewrite Hassigned, Hassigned1, <- app_assoc. f_equal. symmetry.
      apply (omap_app _ [outcome] outcomes). }
    split.
    { rewrite Hpushed, Hpushed1, <- app_assoc. f_equal. symmetry.
      apply (omap_app _ [outcome] outcomes). }
    intros fixedTo Hto Hne Hpast o Hin.
    assert (Hsearch : searchToBlock eventSearchConfig providerBlock = fixedTo).
    { unfold searchToBlock. rewrite Hto.
      destruct (Z.eqb_spec fixedTo 0); [contradiction | reflexivity]. }
    destruct outcome as [| site f t | f t].
    + destruct Hone as (Hf & _).
      apply elem_of_cons in Hin as [-> | Hin]; [reflexivity |].
      apply (Hfixed fixedTo Hto Hne); [lia | exact Hin].
    + destruct Hone as (_ & _ & -> & -> & Hle). lia.
    + destruct Hone as (_ & _ & -> & -> & Hle). lia.
Qed.


End SearchWindows.


(** * Historical fees and the mock deposit counter *)

Section RunningBalances.

Import JsArray UBA UBAFees.

Variables (originSpoke refundSpoke : UBASpokeBalanceType).

Lemma slice_prefix {A} (l : list A) (i : nat) :
  slice l 0 (Z.of_nat i) = take i l.
Proof.
  unfold slice, clampIndex.
  destruct (Z.ltb_spec 0 0); [lia |].
  destruct (Z.ltb_spec (Z.of_nat i) 0); [lia |].
  rewrite (Z.min_l 0) by lia. change (Z.to_nat 0) with 0%nat. rewrite drop_0.
  destruct (Z.min_spec (Z.of_nat i) (Z.of_nat (length l))) as [[Hlt ->] | [Hge ->]].
  - rewrite Z.sub_0_r, Nat2Z.id. reflexivity.
  - rewrite Z.sub_0_r, Nat2Z.id. rewrite !take_ge by lia. reflexivity.
Qed.

Lemma reduceFlow_snoc (flows : list UbaFlow) (flow : UbaFlow) (validated : option Z) :
  reduceFlow (flows ++ [flow]) validated
  = reduceFlow flows validated + signedAmount flow.
Proof.
  unfold reduceFlow, signedAmount. rewrite fold_left_app. simpl.
  destruct (isUbaInflow flow); [reflexivity |].
  destruct (isUbaOutflow flow); lia.
Qed.

Lemma balance_of_prefix (side : SpokeSide) (i : nat) :
  calculateRecentRunningBalance originSpoke refundSpoke side
    (Some {| startIndex := 0; endIndex := Z.of_nat i |})
  = reduceFlow
      (take i (recentRequestFlow
                 (match side with origin => originSpoke | refund => refundSpoke end)))
      (lastValidatedRunningBalance
         (match side with origin => originSpoke | refund => refundSpoke end)).
Proof.
  unfold calculateRecentRunningBalance. simpl startIndex. simpl endIndex.
  rewrite slice_prefix. reflexivity.
Qed.

(** X22. The running balance over the first [i] flows of a spoke (the
    range from 0 to [i]) starts at the last validated running balance, or
    0, for [i = 0]; the flow at position [i] changes it by its amount,
    added for an inflow and subtracted for an outflow; and from the
    number of flows on it is the running balance without a range. *)
Theorem running_balance_by_prefix (side : SpokeSide) :
  let spoke := match side with origin => originSpoke | refund => refundSpoke end in
  let flows := recentRequestFlow spoke in
  let balance (i : nat) :=
    calculateRecentRunningBalance originSpoke refundSpoke side
      (Some {| startIndex := 0; endIndex := Z.of_nat i |}) in
  balance 0%nat = default 0 (lastValidatedRunningBalance spoke)
  /\ (forall (i : nat) flow,
        flows !! i = Some flow ->
        balance (S i) = balance i + signedAmount flow)
  /\ (forall i : nat,
        (length flows <= i)%nat ->
        balance i = calculateRecentRunningBalance originSpoke refundSpoke side None).
Proof.
  cbv zeta. split; [| split].
  - rewrite balance_of_prefix. reflexivity.
  - intros i flow Hi. rewrite !balance_of_prefix.
    rewrite (take_S_r _ _ _ Hi). apply reduceFlow_snoc.
  - intros i Hlen. rewrite balance_of_prefix, take_ge by exact Hlen.
    reflexivity.
Qed.

End RunningBalances.

Lemma running_balance_by_prefix_witness :
  let deposit a := {| UBA.amount := a; UBA.quoteTimestamp := Some 1700000000;
                      UBA.isSlowRelay := None; UBA.fillBlock := None |} in
  let fill a := {| UBA.amount := a; UBA.quoteTimestamp := None;
                   UBA.isSlowRelay := Some false; UBA.fillBlock := None |} in
  let spoke := {| UBA.chainId := 1;
                  UBA.recentRequestFlow := [deposit 100; fill 30; deposit 5];
                  UBA.lastValidatedRunningBalance := Some 7 |} in
  UBA.calculateRecentRunningBalance spoke spoke UBA.origin
    (Some {| UBA.startIndex := 0; UBA.endIndex := Z.of_nat 2 |})
  = UBA.calculateRecentRunningBalance spoke spoke UBA.origin
      (Some {| UBA.startIndex := 0; UBA.endIndex := Z.of_nat 1 |})
    + UBAFees.signedAmount (fill 30).
Proof.
  cbv zeta.
  refine (proj1 (proj2 (running_balance_by_prefix _ _ UBA.origin)) 1%nat _ _).
  reflexivity.
Defined.

Section HistoricalFees.

Import JsArray UBA UBAFees.

Variable BalancingFeeTuples : Type.
Variable getBaselineFee : Z -> Z -> Error + Z.
Variable getUtilizationFee : Error + Z.
Variable getBalancingFeeTuples : Z -> Error + BalancingFeeTuples.
Variable getRefundBalancingFee : BalancingFeeTuples -> Z -> Z -> Error + Z.
Variable getDepositBalancingFee : BalancingFeeTuples -> Z -> Z -> Error + Z.
Variables (originSpoke refundSpoke : UBASpokeBalanceType).

Local Notation "'fee' amount range" :=
  (getUBAFee BalancingFeeTuples getBaselineFee getUtilizationFee
     getBalancingFeeTuples getRefundBalancingFee getDepositBalancingFee
     originSpoke refundSpoke amount range)
  (at level 10, amount at level 9, range at level 9, only parsing).

Lemma promiseAll_inr {A} (promises : list (Error + A)) (values : list A) :
  promiseAll promises = inr values ->
  Forall2 (fun promise value => promise = inr value) promises values.
Proof.
  revert values. induction promises as [| [e | a] rest IH]; simpl; intros values.
  - intros [= <-]. constructor.
  - discriminate.
  - destruct (promiseAll rest) as [e | vs]; [discriminate |].
    intros [= <-]. constructor; [reflexivity | apply IH; reflexivity].
Qed.

Lemma promiseAll_inl {A} (promises : list (Error + A)) (e : Error) :
  promiseAll promises = inl e ->
  exists i : nat,
    promises !! i = Some (inl e)
    /\ forall j : nat, (j < i)%nat -> exists a, promises !! j = Some (inr a).
Proof.
  induction promises as [| [e' | a] rest IH]; simpl; [discriminate | |].
  - intros [= <-]. exists 0%nat. split; [reflexivity |]. intros j Hj. lia.
  - destruct (promiseAll rest) as [e' | vs]; [| discriminate].
    intros [= <-]. destruct (IH eq_refl) as (i & Hi & Hbefore).
    exists (S i). split; [exact Hi |].
    intros [| j] Hj; [exists a; reflexivity | apply Hbefore; lia].
Qed.

Lemma getUBAFee_inr (amount : Z) (flowRange : option UBAFlowRange)
    (result : UBAFeeResult) :
  fee amount flowRange = inr result ->
  exists alphaFee utilizationFee originTuples refundTuples
         refundBalancingFee depositBalancingFee,
    getBaselineFee (chainId originSpoke) (chainId refundSpoke) = inr alphaFee
    /\ getUtilizationFee = inr utilizationFee
    /\ getBalancingFeeTuples (chainId originSpoke) = inr originTuples
    /\ getBalancingFeeTuples (chainId refundSpoke) = inr refundTuples
    /\ getRefundBalancingFee refundTuples
         (calculateRecentRunningBalance originSpoke refundSpoke refund flowRange)
         amount = inr refundBalancingFee
    /\ getDepositBalancingFee originTuples
         (calculateRecentRunningBalance originSpoke refundSpoke origin flowRange)
         amount = inr depositBalancingFee
    /\ depositorFee result = alphaFee + depositBalancingFee
    /\ refundFee result = utilizationFee + refundBalancingFee
    /\ totalUBAFee result = depositorFee result + refundFee result.
Proof.
  unfold getUBAFee, andThen.
  destruct (getBaselineFee _ _) as [e | alphaFee]; [discriminate |].
  destruct getUtilizationFee as [e | utilizationFee]; [discriminate |].
  destruct (getBalancingFeeTuples (chainId originSpoke)) as [e | originTuples];
    [discriminate |].
  destruct (getBalancingFeeTuples (chainId refundSpoke)) as [e | refundTuples];
    [discriminate |].
  destruct (getRefundBalancingFee refundTuples _ amount) as [e | refundBalancingFee]
    eqn:Hr; [discriminate |].
  destruct (getDepositBalancingFee originTuples _ amount) as [e | depositBalancingFee]
    eqn:Hd; [discriminate |].
  intros [= <-].
  exists alphaFee, utilizationFee, originTuples, refundTuples,
    refundBalancingFee, depositBalancingFee.
  simpl. repeat split; assumption || reflexivity.
Qed.

(** X23. [getHistoricalUBAFees] of a side returns one fee per flow of
    that side, in order.  The fee at position [i] is [getUBAFee] of the
    amount of the flow at [i], with the refund balancing fee computed on
    the running balance of the first [i] flows of the refund spoke and
    the deposit balancing fee on that of the first [i] flows of the
    origin spoke: the flow itself is not counted, and the flows of both
    spokes are cut at the same position.  The depositor fee is the
    baseline fee plus the deposit balancing fee, the refund fee the
    utilization fee plus the refund balancing fee, and the total their
    sum.  When a call of [getUBAFee] throws, the error returned is that
    of the first flow for which it throws. *)
Theorem historical_fees_by_prefix (type : SpokeSide) :
  let flows :=
    recentRequestFlow
      (match type with refund => refundSpoke | origin => originSpoke end) in
  let result :=
    getHistoricalUBAFees BalancingFeeTuples getBaselineFee getUtilizationFee
      getBalancingFeeTuples getRefundBalancingFee getDepositBalancingFee
      originSpoke refundSpoke type in
  let prior (spoke : UBASpokeBalanceType) (i : nat) :=
    reduceFlow (take i (recentRequestFlow spoke))
      (lastValidatedRunningBalance spoke) in
  (forall fees,
     result = inr fees ->
     length fees = length flows
     /\ forall (i : nat) flow,
          flows !! i = Some flow ->
          exists feeResult alphaFee utilizationFee originTuples refundTuples
                 refundBalancingFee depositBalancingFee,
            fees !! i = Some feeResult
            /\ fee (amount flow)
                 (Some {| startIndex := 0; endIndex := Z.of_nat i |})
               = inr feeResult
            /\ getBaselineFee (chainId originSpoke) (chainId refundSpoke)
               = inr alphaFee
            /\ getUtilizationFee = inr utilizationFee
            /\ getBalancingFeeTuples (chainId originSpoke) = inr originTuples
            /\ getBalancingFeeTuples (chainId refundSpoke) = inr refundTuples
            /\ getRefundBalancingFee refundTuples (prior refundSpoke i) (amount flow)
               = inr refundBalancingFee
            /\ getDepositBalancingFee originTuples (prior originSpoke i) (amount flow)
               = inr depositBalancingFee
            /\ depositorFee feeResult = alphaFee + depositBalancingFee
            /\ refundFee feeResult = utilizationFee + refundBalancingFee
            /\ totalUBAFee feeResult
               = depositorFee feeResult + refundFee feeResult)
  /\ (forall e,
        result = inl e ->
        exists (i : nat) flow,
          flows !! i = Some flow
          /\ fee (amount flow)
               (Some {| startIndex := 0; endIndex := Z.of_nat i |}) = inl e
          /\ forall (j : nat) earlier,
               (j < i)%nat -> flows !! j = Some earlier ->
               exists feeResult,
                 fee (amount earlier)
                   (Some {| startIndex := 0; endIndex := Z.of_nat j |})
                 = inr feeResult).
Proof.
  cbv zeta. unfold getHistoricalUBAFees.
  set (flows := recentRequestFlow
                  (match type with refund => refundSpoke | origin => originSpoke end)).
  split.
  - intros fees Hres. apply promiseAll_inr in Hres.
    split.
    { apply Forall2_length in Hres. rewrite length_imap in Hres. lia. }
    intros i flow Hi.
    destruct (Forall2_lookup_l _ _ _ i
                (fee (amount flow)
                   (Some {| startIndex := 0; endIndex := Z.of_nat i |})) Hres)
      as (feeResult & Hfee & Hcall).
    { rewrite list_lookup_imap, Hi. reflexivity. }
    destruct (getUBAFee_inr _ _ _ Hcall)
      as (alphaFee & utilizationFee & originTuples & refundTuples
          & refundBalancingFee & depositBalancingFee
          & Ha & Hu & Hot & Hrt & Hrb & Hdb & Hdf & Hrf & Htot).
    rewrite (balance_of_prefix originSpoke refundSpoke refund i) in Hrb.
    rewrite (balance_of_prefix originSpoke refundSpoke origin i) in Hdb.
    exists feeResult, alphaFee, utilizationFee, originTuples, refundTuples,
      refundBalancingFee, depositBalancingFee.
    repeat split; assumption.
  - intros e Hres. apply promiseAll_inl in Hres as (i & Hi & Hbefore).
    rewrite list_lookup_imap in Hi.
    destruct (flows !! i) as [flow |] eqn:Hflow; [| discriminate].
    simpl in Hi. injection Hi as Hi.
    exists i, flow. split; [exact Hflow |]. split; [exact Hi |].
    intros j earlier Hj Hearlier.
    destruct (Hbefore j Hj) as [feeResult Hfee].
    rewrite list_lookup_imap, Hearlier in Hfee. simpl in Hfee.
    injection Hfee as Hfee. exists feeResult. exact Hfee.
Qed.

End HistoricalFees.

Lemma historical_fees_by_prefix_witness :
  let deposit a := {| UBA.amount := a; UBA.quoteTimestamp := Some 1700000000;
                      UBA.isSlowRelay := None; UBA.fillBlock := None |} in
  let fill a := {| UBA.amount := a; UBA.quoteTimestamp := None;
                   UBA.isSlowRelay := Some false; UBA.fillBlock := None |} in
  let originSpoke := {| UBA.chainId := 1;
                        UBA.recentRequestFlow := [deposit 100; deposit 5];
                        UBA.lastValidatedRunningBalance := Some 7 |} in
  let refundSpoke := {| UBA.chainId := 10;
                        UBA.recentRequestFlow := [fill 30];
                        UBA.lastValidatedRunningBalance := None |} in
  let fees :=
    [ {| UBAFees.depositorFee := 8; UBAFees.refundFee := 2;
         UBAFees.totalUBAFee := 10 |};
      {| UBAFees.depositorFee := 108; UBAFees.refundFee := -28;
         UBAFees.totalUBAFee := 80 |} ] in
  UBAFees.getHistoricalUBAFees unit (fun _ _ => inr 1) (inr 2) (fun _ => inr tt)
    (fun _ balance _ => inr balance) (fun _ balance _ => inr balance)
    originSpoke refundSpoke UBA.origin = inr fees
  /\ length fees = length (UBA.recentRequestFlow originSpoke).
Proof.
  cbv zeta. split; [vm_compute; reflexivity |].
  refine (proj1 (proj1 (historical_fees_by_prefix unit (fun _ _ => inr 1) (inr 2)
                          (fun _ => inr tt) (fun _ balance _ => inr balance)
                          (fun _ balance _ => inr balance) _
                          {| UBA.chainId := 10;
                             UBA.recentRequestFlow :=
                               [ {| UBA.amount := 30; UBA.quoteTimestamp := None;
                                    UBA.isSlowRelay := Some false;
                                    UBA.fillBlock := None |} ];
                             UBA.lastValidatedRunningBalance := None |}
                          UBA.origin) _ _)).
  vm_compute. reflexivity.
Defined.

Section MockDepositIds.

Import JsArray MockSpokePool.

Lemma setDepositIdsLoop_spec (rest : list Z) :
  forall lastDepositId depositIdAtBlock,
    exists stored,
      snd (setDepositIdsLoop lastDepositId rest depositIdAtBlock)
      = depositIdAtBlock ++ stored
      /\ Sorted Z.le (lastDepositId :: stored)
      /\ match fst (setDepositIdsLoop lastDepositId rest depositIdAtBlock) with
         | None => stored = rest
         | Some e =>
             e = MkError msg_deposit_id_order
             /\ exists bad after,
                  rest = stored ++ bad :: after
                  /\ bad < default lastDepositId (last stored)
         end.
Proof.
  induction rest as [| depositId rest IH]; intros lastDepositId depositIdAtBlock; simpl.
  - exists []. split; [symmetry; apply app_nil_r |].
    split; [repeat constructor | reflexivity].
  - destruct (Z.ltb_spec depositId lastDepositId) as [Hlt | Hge]; simpl.
    + exists []. split; [symmetry; apply app_nil_r |].
      split; [repeat constructor |]. split; [reflexivity |].
      exists depositId, rest. split; [reflexivity | exact Hlt].
    + destruct (IH depositId (depositIdAtBlock ++ [depositId]))
        as (stored & Hsnd & Hsorted & Hfst).
      exists (depositId :: stored).
      split; [rewrite Hsnd, <- app_assoc; reflexivity |].
      split; [constructor; [exact Hsorted | constructor; exact Hge] |].
      destruct (fst (setDepositIdsLoop depositId rest (depositIdAtBlock ++ [depositId])))
        as [e |].
      * destruct Hfst as (-> & bad & after & -> & Hbad).
        split; [reflexivity |]. exists bad, after. split; [reflexivity |].
        destruct stored as [| x stored']; [exact Hbad |].
        rewrite last_cons. destruct (last (x :: stored')); exact Hbad.
      * rewrite Hfst. reflexivity.
Qed.

Lemma setDepositIdsLoop_sorted (rest : list Z) :
  forall lastDepositId depositIdAtBlock,
    Sorted Z.le (lastDepositId :: rest) ->
    fst (setDepositIdsLoop lastDepositId rest depositIdAtBlock) = None.
Proof.
  induction rest as [| depositId rest IH]; intros lastDepositId depositIdAtBlock Hs;
    simpl; [reflexivity |].
  apply Sorted_inv in Hs as [Hs Hhd]. apply HdRel_inv in Hhd.
  destruct (Z.ltb_spec depositId lastDepositId); [lia |].
  apply IH. exact Hs.
Qed.

Lemma Sorted_le_lookup (l : list Z) :
  Sorted Z.le l ->
  forall (i j : nat) x y, (i <= j)%nat -> l !! i = Some x -> l !! j = Some y -> x <= y.
Proof.
  intros Hs. apply Sorted_StronglySorted in Hs; [| intros a b c; lia].
  induction Hs as [| a l Hs IH Hall]; intros i j x y Hij Hi Hj; [discriminate Hi |].
  destruct i as [| i], j as [| j]; simpl in Hi, Hj; try lia.
  - injection Hi as <-. injection Hj as <-. lia.
  - injection Hi as <-. rewrite Forall_forall in Hall.
    apply Hall. eapply list_elem_of_lookup_2. exact Hj.
  - apply (IH i j); [lia | assumption | assumption].
Qed.

(** X24. [setDepositIds] throws exactly when some deposit id is smaller
    than the one before it.  Without a throw the mock stores the ids as
    given; with a throw it stores the ids before the first one that is
    smaller than its predecessor, which are at least one.  Either way the
    array stored is non-decreasing, so the counter that
    [_getDepositIdAtBlock] then serves never decreases from a block to a
    later one; it is undefined exactly for a block tag that is negative
    or not below the length of the array. *)
Theorem mock_deposit_ids (_depositIds : list Z) :
  let outcome := fst (setDepositIds _depositIds) in
  let depositIdAtBlock := snd (setDepositIds _depositIds) in
  (outcome = None <-> Sorted Z.le _depositIds)
  /\ (outcome = None -> depositIdAtBlock = _depositIds)
  /\ (forall e,
        outcome = Some e ->
        e = MkError msg_deposit_id_order
        /\ exists previous bad after,
             _depositIds = depositIdAtBlock ++ bad :: after
             /\ last depositIdAtBlock = Some previous
             /\ bad < previous)
  /\ Sorted Z.le depositIdAtBlock
  /\ (forall a b x y,
        0 <= a -> a <= b ->
        _getDepositIdAtBlock depositIdAtBlock a = Some x ->
        _getDepositIdAtBlock depositIdAtBlock b = Some y ->
        x <= y)
  /\ (forall blockTag,
        _getDepositIdAtBlock depositIdAtBlock blockTag = None
        <-> blockTag < 0 \/ Z.of_nat (length depositIdAtBlock) <= blockTag).
Proof.
  cbv zeta.
  assert (Hundefined : forall (l : list Z) blockTag,
    _getDepositIdAtBlock l blockTag = None
    <-> blockTag < 0 \/ Z.of_nat (length l) <= blockTag).
  { intros l blockTag. unfold _getDepositIdAtBlock, at_index.
    destruct (Z.ltb_spec blockTag 0) as [Hneg | Hpos]; [split; [left; lia | reflexivity] |].
    rewrite lookup_ge_None. split; [right; lia | intros [? | ?]; lia]. }
  assert (Hmono : forall l : list Z, Sorted Z.le l ->
    forall a b x y, 0 <= a -> a <= b ->
      _getDepositIdAtBlock l a = Some x -> _getDepositIdAtBlock l b = Some y -> x <= y).
  { intros l Hs a b x y Ha Hab. unfold _getDepositIdAtBlock, at_index.
    destruct (Z.ltb_spec a 0); [lia |]. destruct (Z.ltb_spec b 0); [lia |].
    apply (Sorted_le_lookup l Hs); lia. }
  destruct _depositIds as [| first rest]; simpl.
  { split; [split; [constructor | reflexivity] |].
    split; [reflexivity |]. split; [discriminate |].
    split; [constructor |]. split; [apply Hmono; constructor | apply Hundefined]. }
  destruct (Z.ltb_spec first first) as [Hlt | _]; [lia |].
  destruct (setDepositIdsLoop_spec rest first ([] ++ [first]))
    as (stored & Hsnd & Hsorted & Hfst).
  simpl app in *. rewrite Hsnd.
  split.
  { split.
    - intros Hnone. rewrite Hnone in Hfst. subst stored. exact Hsorted.
    - intros Hs. apply setDepositIdsLoop_sorted. exact Hs. }
  split; [intros Hnone; rewrite Hnone in Hfst; subst stored; reflexivity |].
  split.
  { intros e He. rewrite He in Hfst.
    destruct Hfst as (-> & bad & after & -> & Hbad).
    split; [reflexivity |].
    exists (default first (last stored)), bad, after.
    split; [reflexivity |]. split; [| exact Hbad].
    destruct stored as [| x stored']; [reflexivity |].
    change ([first] ++ x :: stored') with (first :: x :: stored').
    rewrite last_cons. destruct (last (x :: stored')) eqn:Hl; [reflexivity |].
    apply last_None in Hl. discriminate. }
  split; [exact Hsorted |].
  split; [apply Hmono; exact Hsorted | apply Hundefined].
Qed.

End MockDepositIds.

Lemma mock_deposit_ids_witness :
  fst (MockSpokePool.setDepositIds [0; 0; 3; 2; 5])
  = Some (MkError MockSpokePool.msg_deposit_id_order)
  /\ snd (MockSpokePool.setDepositIds [0; 0; 3; 2; 5]) = [0; 0; 3]
  /\ exists previous bad after,
       [0; 0; 3; 2; 5]
       = snd (MockSpokePool.setDepositIds [0; 0; 3; 2; 5]) ++ bad :: after
       /\ last (snd (MockSpokePool.setDepositIds [0; 0; 3; 2; 5])) = Some previous
       /\ bad < previous.
Proof.
  split; [reflexivity |]. split; [reflexivity |].
  refine (proj2 (proj1 (proj2 (proj2 (mock_deposit_ids [0; 0; 3; 2; 5]))) _ _)).
  reflexivity.
Defined.
